(** * NoiseTreeOps: HBHE channel map, channel geometry and pulse energy

    A shallow embedding of
    - [HBHEChannelMap] (channel enumeration, inverse lookup, hardware
      grouping and the lazily cached neighbour tables),
    - [HBHEChannelGeometry] (loading of channel directions),
    - [NoiseTreeHelper] (the "Method 0" energy sum),
    - [fillTuplesFromText] and [tupleString] (tuples read from and written
      as text), and the event loop of [ExampleAnalysis],
    together with the properties stated for them. *)

From Stdlib Require Import PrimFloat.
From Stdlib Require Import ZArith QArith Lia Lqa Ascii.
From stdpp Require Import base tactics option list gmap sorting.

Open Scope Z_scope.

(** ** Failures

    The C++ code fails either by throwing one of three standard exceptions
    or by a failed [assert] (the Makefile does not define NDEBUG, so
    assertions are active). *)

Inductive failure : Type :=
  | out_of_range
  | invalid_argument
  | runtime_error
  | assertion_failed.

Definition result (A : Type) : Type := failure + A.

Definition throw {A} (e : failure) : result A := inl e.

Global Instance result_ret : MRet result := λ A a, inr a.
Global Instance result_bind : MBind result := λ A B k c,
  match c with
  | inl e => inl e
  | inr a => k a
  end.

Definition assert (b : bool) : result unit :=
  if b then mret tt else throw assertion_failed.

(** Monadic left fold: a [for] loop whose body may fail. *)
Fixpoint foldM {A S} (f : S → A → result S) (s : S) (l : list A) : result S :=
  match l with
  | [] => mret s
  | x :: l => s' ← f s x; foldM f s' l
  end.

(** ** Channel identifiers *)

(** Modelled from the spec: the class [HBHEChannelId] is declared in a
    header that is not among the sources; the spec describes it as a
    (depth, ieta, iphi) triple.  The code uses its three-argument
    constructor, the accessors [depth()], [ieta()], [iphi()] and its
    ordering as a key of [std::map]; keys are identified with the triples
    themselves. *)
Record HBHEChannelId : Type := mkId { depth : Z; ieta : Z; iphi : Z }.

Global Instance HBHEChannelId_eq_dec : EqDecision HBHEChannelId.
Proof. solve_decision. Defined.

Global Instance HBHEChannelId_countable : Countable HBHEChannelId.
Proof.
  refine (inj_countable' (λ c, (depth c, ieta c, iphi c))
                         (λ t, mkId t.1.1 t.1.2 t.2) _).
  by intros [].
Defined.

Inductive HcalSubdetector : Type := HcalBarrel | HcalEndcap.

Global Instance HcalSubdetector_eq_dec : EqDecision HcalSubdetector.
Proof. solve_decision. Defined.

(** ** HBHEChannelMap::getSubdetector *)

Definition getSubdetector (depth0 : Z) (ieta0 : Z) : result HcalSubdetector :=
  let abseta := Z.abs ieta0 in
  _ ← assert (abseta <=? 29);
  _ ← assert ((0 <? depth0) && (depth0 <? 4));
  _ ← (if abseta =? 29 then assert (depth0 <=? 2) else mret tt);
  if abseta <=? 15 then mret HcalBarrel
  else if abseta =? 16 then
    mret (if depth0 <=? 2 then HcalBarrel else HcalEndcap)
  else mret HcalEndcap.

(** ** The channel enumeration of the constructor *)

(** Modelled from the spec: [ChannelCount] is a constant of the header
    [HBHEChannelMap.h], which is not among the sources; the spec calls it
    the fixed detector constant.  The value is the one the constructor's
    [assert(l == ChannelCount)] demands, and the one used for the hit-count
    axis in the analysis code ([5184-0.5]). *)
Definition ChannelCount : nat := 5184.

(** [lookup_[l++] = id]: the state of the first part of the constructor is
    the array under construction and the write position. *)
Definition fill_state : Type := list HBHEChannelId * nat.

Definition put (st : fill_state) (id : HBHEChannelId) : fill_state :=
  (<[st.2 := id]> st.1, S st.2).

(** Values visited by [for (i = first; i <= last; i += step)]. *)
Definition loop_values (first last step : Z) : list Z :=
  (λ k, first + step * k) <$> seqZ 0 ((last - first) `div` step + 1).

(** [for (iphi=1; iphi<72; iphi+=2)] and [for (iphi=1; iphi<=72; ++iphi)] *)
Definition iphi_odd : list Z := loop_values 1 71 2.
Definition iphi_all : list Z := loop_values 1 72 1.

(** One block of the constructor: a loop over rings with an inner loop
    over azimuth.  [skip0] is the [if (ieta)] test of the central block. *)
Definition fill_rings (skip0 : bool) (depth0 eta_first eta_last : Z)
    (phis : list Z) (st : fill_state) : fill_state :=
  foldl (λ st ieta0,
           if skip0 && (ieta0 =? 0) then st
           else foldl (λ st iphi0, put st (mkId depth0 ieta0 iphi0)) st phis)
        st (loop_values eta_first eta_last 1).

Definition fill_lookup (st : fill_state) : fill_state :=
  let st := fill_rings false 1 (-29) (-21) iphi_odd st in
  let st := fill_rings true  1 (-20) 20 iphi_all st in
  let st := fill_rings false 1 21 29 iphi_odd st in
  let st := fill_rings false 2 (-29) (-21) iphi_odd st in
  let st := fill_rings false 2 (-20) (-18) iphi_all st in
  let st := fill_rings false 2 (-16) (-15) iphi_all st in
  let st := fill_rings false 2 15 16 iphi_all st in
  let st := fill_rings false 2 18 20 iphi_all st in
  let st := fill_rings false 2 21 29 iphi_odd st in
  let st := fill_rings false 3 (-28) (-27) iphi_odd st in
  let st := fill_rings false 3 (-16) (-16) iphi_all st in
  let st := fill_rings false 3 16 16 iphi_all st in
  let st := fill_rings false 3 27 28 iphi_odd st in
  st.

(** The identifiers written by one block, in the order of writing. *)
Definition ring_ids (skip0 : bool) (depth0 eta_first eta_last : Z)
    (phis : list Z) : list HBHEChannelId :=
  ieta0 ← loop_values eta_first eta_last 1;
  if skip0 && (ieta0 =? 0) then [] else mkId depth0 ieta0 <$> phis.

(** The canonical enumeration: everything the constructor writes. *)
Definition channel_ids : list HBHEChannelId :=
  ring_ids false 1 (-29) (-21) iphi_odd ++
  ring_ids true  1 (-20) 20 iphi_all ++
  ring_ids false 1 21 29 iphi_odd ++
  ring_ids false 2 (-29) (-21) iphi_odd ++
  ring_ids false 2 (-20) (-18) iphi_all ++
  ring_ids false 2 (-16) (-15) iphi_all ++
  ring_ids false 2 15 16 iphi_all ++
  ring_ids false 2 18 20 iphi_all ++
  ring_ids false 2 21 29 iphi_odd ++
  ring_ids false 3 (-28) (-27) iphi_odd ++
  ring_ids false 3 (-16) (-16) iphi_all ++
  ring_ids false 3 16 16 iphi_all ++
  ring_ids false 3 27 28 iphi_odd.

(** ** Descriptions of the enumeration used in the statements *)

(** Position of an identifier in the enumeration, if it occurs there. *)
Definition index_of (c : HBHEChannelId) : option nat :=
  fst <$> list_find (λ c', c' = c) channel_ids.

(** The enumeration is written in increasing order of this key
    (depth first, then ieta, then iphi). *)
Definition id_key (c : HBHEChannelId) : Z :=
  (depth c * 64 + (ieta c + 32)) * 128 + iphi c.

(** Ranges of the fields of the enumerated identifiers. *)
Definition id_ok (c : HBHEChannelId) : Prop :=
  (1 ≤ depth c ≤ 3) ∧ (1 ≤ Z.abs (ieta c) ≤ 29) ∧
  (Z.abs (ieta c) = 29 → depth c ≤ 2) ∧ (1 ≤ iphi c ≤ 72).

Global Instance id_ok_dec c : Decision (id_ok c).
Proof. unfold id_ok. apply _. Defined.

(** ** The hardware mapping

    [HcalHPDRBXMap] and [HcalDetId] are external to the sources at hand:
    the channel map only calls [indexHPD] on a detector id built from
    (subdetector, ieta, iphi, depth), calls [indexRBXfromHPD], and reads the
    two constants.  They are taken as an interface. *)
Record HcalDetId : Type :=
  mkDetId { subdet : HcalSubdetector; det_ieta : Z; det_iphi : Z; det_depth : Z }.

Class HcalHPDRBXMap : Type := {
  NUM_HPDS : Z;
  NUM_RBXS : Z;
  indexHPD : HcalDetId → Z;
  indexRBXfromHPD : Z → Z
}.

(** ** The channel map object *)

(** Modelled from the spec: content of a slot of [lookup_] before the
    constructor body writes it (the default-constructed [HBHEChannelId] of
    the header that is not among the sources).  Every slot is overwritten,
    whatever this value is. *)
Definition unset_id : HBHEChannelId := mkId 0 0 0.

Global Instance HBHEChannelId_inhabited : Inhabited HBHEChannelId :=
  populate unset_id.

Record HBHEChannelMap : Type := mkMap {
  lookup_ : list HBHEChannelId;
  inverse_ : gmap HBHEChannelId nat;
  hpd_lookup_ : list nat;
  chan_in_hpd_lookup_ : list nat;
  hpd_channel_lookup_ : list (list nat);
  rbx_lookup_ : list nat;
  chan_in_rbx_lookup_ : list nat;
  rbx_channel_lookup_ : list (list nat);
  channel_neighbors_ : list (list nat);
  neighborInfoFilled_ : bool;
  hpd_neighbors_ : list (list nat);
  hpdNeighborsFilled_ : bool
}.

Definition set_channel_neighbors (f : list (list nat) → list (list nat))
    (m : HBHEChannelMap) : HBHEChannelMap :=
  mkMap (lookup_ m) (inverse_ m) (hpd_lookup_ m) (chan_in_hpd_lookup_ m)
        (hpd_channel_lookup_ m) (rbx_lookup_ m) (chan_in_rbx_lookup_ m)
        (rbx_channel_lookup_ m) (f (channel_neighbors_ m))
        (neighborInfoFilled_ m) (hpd_neighbors_ m) (hpdNeighborsFilled_ m).

Definition set_neighborInfoFilled (b : bool) (m : HBHEChannelMap)
    : HBHEChannelMap :=
  mkMap (lookup_ m) (inverse_ m) (hpd_lookup_ m) (chan_in_hpd_lookup_ m)
        (hpd_channel_lookup_ m) (rbx_lookup_ m) (chan_in_rbx_lookup_ m)
        (rbx_channel_lookup_ m) (channel_neighbors_ m)
        b (hpd_neighbors_ m) (hpdNeighborsFilled_ m).

Definition set_hpd_neighbors (f : list (list nat) → list (list nat))
    (m : HBHEChannelMap) : HBHEChannelMap :=
  mkMap (lookup_ m) (inverse_ m) (hpd_lookup_ m) (chan_in_hpd_lookup_ m)
        (hpd_channel_lookup_ m) (rbx_lookup_ m) (chan_in_rbx_lookup_ m)
        (rbx_channel_lookup_ m) (channel_neighbors_ m)
        (neighborInfoFilled_ m) (f (hpd_neighbors_ m)) (hpdNeighborsFilled_ m).

Definition set_hpdNeighborsFilled (b : bool) (m : HBHEChannelMap)
    : HBHEChannelMap :=
  mkMap (lookup_ m) (inverse_ m) (hpd_lookup_ m) (chan_in_hpd_lookup_ m)
        (hpd_channel_lookup_ m) (rbx_lookup_ m) (chan_in_rbx_lookup_ m)
        (rbx_channel_lookup_ m) (channel_neighbors_ m)
        (neighborInfoFilled_ m) (hpd_neighbors_ m) b.

(** [v[k].push_back(i)] on a vector of vectors. *)
Definition push_at (k i : nat) (v : list (list nat)) : list (list nat) :=
  <[k := (v !!! k) ++ [i]]> v.

Section ChannelMap.
Context {hw : HcalHPDRBXMap}.

(** *** HBHEChannelMap::HBHEChannelMap *)

(** Body of the second loop of the constructor, for channel [i]. *)
Definition register_channel (m : HBHEChannelMap) (i : nat)
    : result HBHEChannelMap :=
  let cid := lookup_ m !!! i in
  let inverse' := <[cid := i]> (inverse_ m) in
  sub ← getSubdetector (depth cid) (ieta cid);
  let id := mkDetId sub (ieta cid) (iphi cid) (depth cid) in
  let hpd := indexHPD id in
  _ ← assert ((0 <=? hpd) && (hpd <? NUM_HPDS));
  let h := Z.to_nat hpd in
  let hpd_lookup' := <[i := h]> (hpd_lookup_ m) in
  let chan_in_hpd' :=
    <[i := length (hpd_channel_lookup_ m !!! h)]> (chan_in_hpd_lookup_ m) in
  let hpd_channel' := push_at h i (hpd_channel_lookup_ m) in
  let rbx := indexRBXfromHPD hpd in
  _ ← assert ((0 <=? rbx) && (rbx <? NUM_RBXS));
  let r := Z.to_nat rbx in
  let rbx_lookup' := <[i := r]> (rbx_lookup_ m) in
  let chan_in_rbx' :=
    <[i := length (rbx_channel_lookup_ m !!! r)]> (chan_in_rbx_lookup_ m) in
  let rbx_channel' := push_at r i (rbx_channel_lookup_ m) in
  mret (mkMap (lookup_ m) inverse' hpd_lookup' chan_in_hpd' hpd_channel'
              rbx_lookup' chan_in_rbx' rbx_channel'
              (channel_neighbors_ m) (neighborInfoFilled_ m)
              (hpd_neighbors_ m) (hpdNeighborsFilled_ m)).

(** The object as the member initialisers leave it, with [lookup_]
    already filled by the first part of the constructor body. *)
Definition initial_map (lk : list HBHEChannelId) : HBHEChannelMap :=
  mkMap lk ∅
        (replicate ChannelCount 0%nat) (replicate ChannelCount 0%nat)
        (replicate (Z.to_nat NUM_HPDS) [])
        (replicate ChannelCount 0%nat) (replicate ChannelCount 0%nat)
        (replicate (Z.to_nat NUM_RBXS) [])
        (replicate ChannelCount []) false
        (replicate (Z.to_nat NUM_HPDS) []) false.

Definition HBHEChannelMap_new : result HBHEChannelMap :=
  let '(lk, l) := fill_lookup (replicate ChannelCount unset_id, 0%nat) in
  _ ← assert (bool_decide (l = ChannelCount));
  foldM register_channel (initial_map lk) (seq 0 ChannelCount).

(** *** Simple accessors *)

Definition getChannelTriple (m : HBHEChannelMap) (index : nat)
    : result HBHEChannelId :=
  if bool_decide (ChannelCount ≤ index)%nat then throw out_of_range
  else mret (lookup_ m !!! index).

Definition getHPD (m : HBHEChannelMap) (index : nat) : result nat :=
  if bool_decide (ChannelCount ≤ index)%nat then throw out_of_range
  else mret (hpd_lookup_ m !!! index).

Definition isValidTriple (m : HBHEChannelMap) (depth0 ieta0 iphi0 : Z)
    : bool :=
  bool_decide (is_Some (inverse_ m !! mkId depth0 ieta0 iphi0)).

Definition linearIndex (m : HBHEChannelMap) (depth0 ieta0 iphi0 : Z)
    : result nat :=
  match inverse_ m !! mkId depth0 ieta0 iphi0 with
  | None => throw invalid_argument
  | Some i => mret i
  end.

(** *** Neighbours from other HPDs *)

(** Values of [for (int s=-1; s<2; ++s)]. *)
Definition shifts : list Z := [-1; 0; 1].

(** "Jump over 0" *)
Definition shift_eta (eta0 etaShift : Z) : Z :=
  let iEta := eta0 + etaShift in
  if iEta =? 0 then iEta + etaShift else iEta.

(** "Wrap 0 to 72 and 73 to 1" *)
Definition wrap_phi (iPhi : Z) : Z :=
  if iPhi =? 0 then 72 else if iPhi =? 73 then 1 else iPhi.

(** Body of the inner loop of [calculateNeighborList]; [acc] is the
    filled part of [neighborChannels]. *)
Definition neighbor_step (m : HBHEChannelMap) (depth0 eta0 phi0 : Z)
    (myHPD : nat) (etaShift : Z) (acc : list nat) (phiShift : Z)
    : result (list nat) :=
  if negb (etaShift =? 0) || negb (phiShift =? 0) then
    let iPhi := phi0 + phiShift in
    _ ← assert ((0 <=? iPhi) && (iPhi <=? 73));
    match inverse_ m !! mkId depth0 (shift_eta eta0 etaShift) (wrap_phi iPhi) with
    | Some neighbor =>
        h ← getHPD m neighbor;
        if bool_decide (myHPD ≠ h) then mret (acc ++ [neighbor]) else mret acc
    | None => mret acc
    end
  else mret acc.

Definition calculateNeighborList (m : HBHEChannelMap) (index : nat)
    : result (list nat) :=
  let depth0 := depth (lookup_ m !!! index) in
  let eta0 := ieta (lookup_ m !!! index) in
  let phi0 := iphi (lookup_ m !!! index) in
  myHPD ← getHPD m index;
  neighborChannels ←
    foldM (λ acc etaShift,
             foldM (neighbor_step m depth0 eta0 phi0 myHPD etaShift) acc shifts)
          [] shifts;
  mret (merge_sort (≤)%nat neighborChannels).

(** The lazily filled table of channel neighbours.  The method is
    [const] and fills the cache through a [const_cast]; the updated
    object is returned together with the answer. *)
Definition fill_channel_neighbors (m : HBHEChannelMap) : result HBHEChannelMap :=
  m' ← foldM (λ mi i, vec ← calculateNeighborList mi i;
                      mret (set_channel_neighbors (λ t, <[i := vec]> t) mi))
             m (seq 0 ChannelCount);
  mret (set_neighborInfoFilled true m').

Definition channelNeigborsFromOtherHPDs (m : HBHEChannelMap) (index : nat)
    : result (list nat * HBHEChannelMap) :=
  if bool_decide (ChannelCount ≤ index)%nat then throw out_of_range
  else
    m' ← (if neighborInfoFilled_ m then mret m else fill_channel_neighbors m);
    mret (channel_neighbors_ m' !!! index, m').

(** *** Neighbours of an HPD *)

(** Iteration over a [std::set<unsigned>] visits the elements in
    increasing order. *)
Definition set_iteration (s : gset nat) : list nat :=
  merge_sort (≤)%nat (elements s).

Definition calculateHPDNeighbors (m : HBHEChannelMap) (hpd : nat)
    : result (list nat * HBHEChannelMap) :=
  let hpdChannels := hpd_channel_lookup_ m !!! hpd in
  '(neighborSet, m') ←
    foldM (λ '(acc, mi) chan,
             '(chNeighbors, mi') ← channelNeigborsFromOtherHPDs mi chan;
             mret (foldl (λ (s : gset nat) n, {[n]} ∪ s) acc chNeighbors, mi'))
          (∅, m) hpdChannels;
  mret (merge_sort (≤)%nat (set_iteration neighborSet), m').

Definition fill_hpd_neighbors (m : HBHEChannelMap) : result HBHEChannelMap :=
  m' ← foldM (λ mi i, '(vec, mi') ← calculateHPDNeighbors mi i;
                      mret (set_hpd_neighbors (λ t, <[i := vec]> t) mi'))
             m (seq 0 (Z.to_nat NUM_HPDS));
  mret (set_hpdNeighborsFilled true m').

Definition getHPDNeigbors (m : HBHEChannelMap) (hpd : nat)
    : result (list nat * HBHEChannelMap) :=
  if bool_decide (Z.to_nat NUM_HPDS ≤ hpd)%nat then throw out_of_range
  else
    m' ← (if hpdNeighborsFilled_ m then mret m else fill_hpd_neighbors m);
    mret (hpd_neighbors_ m' !!! hpd, m').

(** *** Descriptions of the tables used in the statements *)

(** Subdetector of an enumerated channel (the assertions of
    [getSubdetector] hold for all of them). *)
Definition subdetector_of (c : HBHEChannelId) : HcalSubdetector :=
  match getSubdetector (depth c) (ieta c) with
  | inr sub => sub
  | inl _ => HcalBarrel
  end.

Definition hpd_index (c : HBHEChannelId) : Z :=
  indexHPD (mkDetId (subdetector_of c) (ieta c) (iphi c) (depth c)).

Definition rbx_index (c : HBHEChannelId) : Z :=
  indexRBXfromHPD (hpd_index c).

(** The hardware mapping passes the two range assertions of the
    constructor on every enumerated channel. *)
Definition hw_ok : Prop :=
  Forall (λ c, (0 ≤ hpd_index c < NUM_HPDS) ∧ (0 ≤ rbx_index c < NUM_RBXS))
         channel_ids.

(** HPD of channel number [i]. *)
Definition hpd_of (i : nat) : nat := Z.to_nat (hpd_index (channel_ids !!! i)).

(** Channels of HPD number [h], in increasing order. *)
Definition hpd_channels (h : nat) : list nat :=
  filter (λ i, hpd_of i = h) (seq 0 ChannelCount).

(** The eight identifiers looked up by [calculateNeighborList], in the
    order of the two loops. *)
Definition candidates (c : HBHEChannelId) : list HBHEChannelId :=
  etaShift ← shifts; phiShift ← shifts;
  if negb (etaShift =? 0) || negb (phiShift =? 0)
  then [mkId (depth c) (shift_eta (ieta c) etaShift) (wrap_phi (iphi c + phiShift))]
  else [].

(** Content of [neighborChannels] when the loops finish. *)
Definition raw_neighbors (i : nat) : list nat :=
  filter (λ j, hpd_of i ≠ hpd_of j) (omap index_of (candidates (channel_ids !!! i))).

Definition neighbors_of (i : nat) : list nat :=
  merge_sort (≤)%nat (raw_neighbors i).

Definition hpd_neighbor_set (h : nat) : gset nat :=
  list_to_set (hpd_channels h ≫= neighbors_of).

Definition hpd_neighbors_of (h : nat) : list nat :=
  merge_sort (≤)%nat (set_iteration (hpd_neighbor_set h)).

(** *** Invariants

    [ctor_state n m]: the object [m] after [n] rounds of the second loop
    of the constructor. *)
Definition hw_ok_at (c : HBHEChannelId) : Prop :=
  (0 ≤ hpd_index c < NUM_HPDS) ∧ (0 ≤ rbx_index c < NUM_RBXS).

Definition ctor_state (n : nat) (m : HBHEChannelMap) : Prop :=
  lookup_ m = channel_ids ∧
  (∀ c i, inverse_ m !! c = Some i ↔ (i < n)%nat ∧ channel_ids !! i = Some c) ∧
  length (hpd_lookup_ m) = ChannelCount ∧
  (∀ i, (i < n)%nat → hpd_lookup_ m !! i = Some (hpd_of i)) ∧
  length (hpd_channel_lookup_ m) = Z.to_nat NUM_HPDS ∧
  (∀ h, (h < Z.to_nat NUM_HPDS)%nat →
        hpd_channel_lookup_ m !! h = Some (filter (λ i, hpd_of i = h) (seq 0 n))) ∧
  Forall hw_ok_at (take n channel_ids) ∧
  channel_neighbors_ m = replicate ChannelCount [] ∧
  neighborInfoFilled_ m = false ∧
  hpd_neighbors_ m = replicate (Z.to_nat NUM_HPDS) [] ∧
  hpdNeighborsFilled_ m = false.

(** The tables written by the constructor; they are never changed
    afterwards. *)
Definition geom_ok (m : HBHEChannelMap) : Prop :=
  lookup_ m = channel_ids ∧
  (∀ c, inverse_ m !! c = index_of c) ∧
  length (hpd_lookup_ m) = ChannelCount ∧
  (∀ i, (i < ChannelCount)%nat → hpd_lookup_ m !! i = Some (hpd_of i)) ∧
  (∀ h, (h < Z.to_nat NUM_HPDS)%nat →
        hpd_channel_lookup_ m !! h = Some (hpd_channels h)) ∧
  hw_ok.

(** The two caches: of the right size, and holding the neighbour lists
    once they are flagged as filled. *)
Definition cache_ok (m : HBHEChannelMap) : Prop :=
  length (channel_neighbors_ m) = ChannelCount ∧
  (neighborInfoFilled_ m = true →
   ∀ i, (i < ChannelCount)%nat → channel_neighbors_ m !! i = Some (neighbors_of i)) ∧
  length (hpd_neighbors_ m) = Z.to_nat NUM_HPDS ∧
  (hpdNeighborsFilled_ m = true →
   ∀ h, (h < Z.to_nat NUM_HPDS)%nat → hpd_neighbors_ m !! h = Some (hpd_neighbors_of h)).

Definition map_ok (m : HBHEChannelMap) : Prop := geom_ok m ∧ cache_ok m.

(** The object once the table of channel neighbours has been filled. *)
Definition warm_channels (m : HBHEChannelMap) : HBHEChannelMap :=
  if neighborInfoFilled_ m then m
  else set_neighborInfoFilled true
         (set_channel_neighbors
            (λ t, (neighbors_of <$> seq 0 ChannelCount) ++ drop ChannelCount t) m).

(** What the statement on HPD neighbours expects instead: the HPDs of
    the channel neighbours of the channels of HPD [h], without duplicates,
    in increasing order. *)
Definition module_neighbors_claimed (h : nat) : list nat :=
  merge_sort (≤)%nat
    (elements (list_to_set (hpd_of <$> (hpd_channels h ≫= neighbors_of)) : gset nat)).

(** Adjacency of two identifiers as [calculateNeighborList] searches it:
    same depth, at most one ring away (jumping over ring 0), at most one
    azimuth bin away (wrapping around). *)
Definition adjacent_ids (ci cj : HBHEChannelId) : Prop :=
  depth cj = depth ci ∧
  (∃ etaShift, etaShift ∈ shifts ∧ ieta cj = shift_eta (ieta ci) etaShift) ∧
  (∃ phiShift, phiShift ∈ shifts ∧ iphi cj = wrap_phi (iphi ci + phiShift)).

(** Adjacency in the words of the statement on channel neighbours, without
    reference to the loops of the code: the same depth; the same ring, the
    next ring below or the next ring above, where rings -1 and 1 are next
    to each other because there is no ring 0; the same azimuth bin or one
    of the two bins beside it, where bins 72 and 1 are beside each other. *)
Definition stated_adjacent (ci cj : HBHEChannelId) : Prop :=
  depth cj = depth ci ∧
  (Z.abs (ieta cj - ieta ci) ≤ 1 ∨
   (ieta ci = -1 ∧ ieta cj = 1) ∨ (ieta ci = 1 ∧ ieta cj = -1)) ∧
  (Z.abs (iphi cj - iphi ci) ≤ 1 ∨
   (iphi ci = 1 ∧ iphi cj = 72) ∨ (iphi ci = 72 ∧ iphi cj = 1)).

(** *** Life of a channel map object

    An object is created by the constructor and afterwards only changed
    by the two caching queries. *)
Inductive reachable : HBHEChannelMap → Prop :=
  | reach_new m :
      HBHEChannelMap_new = inr m → reachable m
  | reach_channel m index l m' :
      reachable m →
      channelNeigborsFromOtherHPDs m index = inr (l, m') → reachable m'
  | reach_hpd m hpd l m' :
      reachable m →
      getHPDNeigbors m hpd = inr (l, m') → reachable m'.

End ChannelMap.

(** A hardware mapping for closed examples: one HPD per azimuth bin, side
    and subdetector, four HPDs per RBX. *)
Definition sample_hw : HcalHPDRBXMap := {|
  NUM_HPDS := 288;
  NUM_RBXS := 72;
  indexHPD := λ id,
    (match subdet id with HcalBarrel => 0 | HcalEndcap => 144 end)
    + (if 0 <? det_ieta id then 72 else 0) + (det_iphi id - 1);
  indexRBXfromHPD := λ hpd, hpd `div` 4
|}.

(** The value of a computation that did not fail. *)
Definition from_result {A} (d : A) (r : result A) : A :=
  match r with
  | inr a => a
  | inl _ => d
  end.

(** The object the constructor builds for the sample mapping. *)
Definition sample_map : HBHEChannelMap :=
  from_result (@initial_map sample_hw []) (@HBHEChannelMap_new sample_hw).

(** A second mapping for closed examples: a single HPD in a single RBX. *)
Definition single_hw : HcalHPDRBXMap := {|
  NUM_HPDS := 1;
  NUM_RBXS := 1;
  indexHPD := λ _, 0;
  indexRBXfromHPD := λ _, 0
|}.

(** The object the constructor builds for it. *)
Definition single_map : HBHEChannelMap :=
  from_result (@initial_map single_hw []) (@HBHEChannelMap_new single_hw).

(** ** Floating point numbers

    The type [double] and its arithmetic are kept abstract: nothing below
    depends on how sums, differences and products are rounded. *)
Class Arith : Type := {
  double : Type;
  d_zero : double;
  d_add : double → double → double;
  d_sub : double → double → double;
  d_mul : double → double → double
}.

Global Instance double_inhabited `{Arith} : Inhabited double := populate d_zero.

(** Conversion of an [int] to [unsigned]. *)
Definition to_unsigned (v : Z) : Z := v `mod` 2 ^ 32.

(** ** HBHEChannelGeometry

    [TVector3] belongs to an external library.  The geometry code builds a
    vector from three coordinates, normalises it with [Unit()], and compares
    with a default-constructed vector using [==]; the only property of
    these operations it relies on is that the default vector compares equal
    to itself. *)
Class Vector3 `{Arith} : Type := {
  TVector3 : Type;
  zero_vector : TVector3;
  mk_vector : double → double → double → TVector3;
  Unit : TVector3 → TVector3;
  vector_eqb : TVector3 → TVector3 → bool;
  zero_eqb_zero : vector_eqb zero_vector zero_vector = true
}.

Section Geometry.
Context {hw : HcalHPDRBXMap} `{V : Vector3}.

(** [std::tuple<int, int, int, double, double, double>], in the order
    ieta, iphi, depth, x, y, z. *)
Record Tuple : Type := mkTuple {
  t_ieta : Z; t_iphi : Z; t_depth : Z; t_x : double; t_y : double; t_z : double
}.

(** What opening and parsing a geometry file yields. *)
Inductive geometry_file : Type :=
  | Unreadable
  | Malformed
  | Rows (nt : list Tuple).

Definition row_vector (t : Tuple) : TVector3 :=
  Unit (mk_vector (t_x t) (t_y t) (t_z t)).

(** Body of the loop over rows in [loadData]; [directions_.at(idx)]
    throws when out of range. *)
Definition load_row (chmap : HBHEChannelMap) (directions : list TVector3)
    (t : Tuple) : result (list TVector3) :=
  idx ← linearIndex chmap (to_unsigned (t_depth t)) (t_ieta t)
                    (to_unsigned (t_iphi t));
  if bool_decide (idx < length directions)%nat
  then mret (<[idx := row_vector t]> directions)
  else throw out_of_range.

Definition loadData (file : geometry_file) (chmap : HBHEChannelMap)
    (directions : list TVector3) : result (list TVector3) :=
  match file with
  | Unreadable => throw invalid_argument
  | Malformed => throw invalid_argument
  | Rows nt => foldM (load_row chmap) directions nt
  end.

Global Instance TVector3_inhabited : Inhabited TVector3 := populate zero_vector.

(** "Check that we have directions for all channels" *)
Definition check_direction (chmap : HBHEChannelMap) (directions : list TVector3)
    (_ : unit) (i : nat) : result unit :=
  if vector_eqb (directions !!! i) zero_vector
  then _ ← getChannelTriple chmap i; throw runtime_error
  else mret tt.

Record HBHEChannelGeometry : Type := mkGeometry { directions_ : list TVector3 }.

Definition HBHEChannelGeometry_new (hbFile heFile : geometry_file)
    : result HBHEChannelGeometry :=
  chmap ← HBHEChannelMap_new;
  d ← loadData hbFile chmap (replicate ChannelCount zero_vector);
  d ← loadData heFile chmap d;
  _ ← foldM (check_direction chmap d) tt (seq 0 ChannelCount);
  mret (mkGeometry d).

(** Channel number a row is stored at, if its triple is enumerated. *)
Definition row_index (t : Tuple) : option nat :=
  index_of (mkId (to_unsigned (t_depth t)) (t_ieta t) (to_unsigned (t_iphi t))).

(** Rows of the two files, in the order of loading. *)
Definition file_rows (file : geometry_file) : list Tuple :=
  match file with
  | Rows nt => nt
  | _ => []
  end.

(** The table of directions after loading rows that all name enumerated
    channels: each row overwrites the slot of its channel. *)
Definition load_rows (directions : list TVector3) (nt : list Tuple)
    : list TVector3 :=
  foldl (λ d t, match row_index t with
                | Some idx => <[idx := row_vector t]> d
                | None => d
                end) directions nt.

End Geometry.

(** ** NoiseTreeHelper *)

(** Number of time slices *)
Definition N_TIME_SLICES : nat := 10.

Section Energy.
Context `{Arith}.

(** The members of the tree class [HcalNoiseTree] (generated from the
    input file, not among the sources) that [energy] reads: the number of
    pulses of the event and, per pulse, the charge, pedestal and gain of each
    time slice. *)
Record NoiseTreeHelper : Type := mkHelper {
  PulseCount : Z;
  Charge : list (list double);
  Pedestal : list (list double);
  Gain : list (list double);
  eMinTS_ : nat;
  eMaxTS_ : nat
}.

(** The constructor sets the window to [3, 8). *)
Definition NoiseTreeHelper_new (pulses : Z) (q ped g : list (list double))
    : NoiseTreeHelper :=
  mkHelper pulses q ped g 3 8.

Definition setEMinMaxTS (tsMin tsMax : nat) (h : NoiseTreeHelper)
    : result NoiseTreeHelper :=
  _ ← assert (bool_decide (tsMin < tsMax)%nat);
  _ ← assert (bool_decide (tsMax ≤ N_TIME_SLICES)%nat);
  mret (mkHelper (PulseCount h) (Charge h) (Pedestal h) (Gain h) tsMin tsMax).

(** Energy "a-la Method 0": the loop
    [for (i=eMinTS_; i<eMaxTS_; ++i) e += (q[i] - ped[i])*g[i]]. *)
Definition energy (h : NoiseTreeHelper) (idx : nat) : result double :=
  _ ← assert (Z.of_nat idx <? to_unsigned (PulseCount h));
  let q := Charge h !!! idx in
  let ped := Pedestal h !!! idx in
  let g := Gain h !!! idx in
  mret (foldl (λ e i, d_add e (d_mul (d_sub (q !!! i) (ped !!! i)) (g !!! i)))
              d_zero
              (seq (eMinTS_ h) (eMaxTS_ h - eMinTS_ h))).

(** The sum of [term t] for [t] in [[window_start, window_start + n)],
    accumulated from the lowest index up, starting from zero. *)
Fixpoint window_sum (term : nat → double) (window_start n : nat) : double :=
  match n with
  | O => d_zero
  | S n' => d_add (window_sum term window_start n') (term (window_start + n')%nat)
  end.

(** The value stated for the energy of pulse [idx] over
    [[window_start, window_end)]. *)
Definition stated_energy (h : NoiseTreeHelper) (idx window_start window_end : nat)
    : double :=
  window_sum (λ t, d_mul (d_sub ((Charge h !!! idx) !!! t) ((Pedestal h !!! idx) !!! t))
                         ((Gain h !!! idx) !!! t))
             window_start (window_end - window_start).

End Energy.

(** Integer arithmetic as an instance, for closed examples. *)
Definition Z_arith : Arith :=
  {| double := Z; d_zero := 0; d_add := Z.add; d_sub := Z.sub; d_mul := Z.mul |}.

(** Integer vectors as an instance, for closed examples.  On vectors along
    a coordinate axis, taking signs is normalisation. *)
Definition Z_vector3 : @Vector3 Z_arith :=
  @Build_Vector3 Z_arith (Z * Z * Z) (0, 0, 0)
    (λ x y z : Z, (x, y, z))
    (λ v, (Z.sgn v.1.1, Z.sgn v.1.2, Z.sgn v.2))
    (λ u v, bool_decide (u = v))
    eq_refl.

(** A geometry file for the closed examples: one row per enumerated
    channel, in the order of the enumeration, all pointing along x. *)
Definition sample_rows : list (@Tuple Z_arith) :=
  (λ c, @mkTuple Z_arith (ieta c) (iphi c) (depth c) 1 0 0) <$> channel_ids.

(** A second row for channel 0 = (depth 1, ieta -29, iphi 1), pointing
    along y. *)
Definition sample_extra_row : @Tuple Z_arith := @mkTuple Z_arith (-29) 1 1 0 1 0.

(** One pulse with ten time slices, for the closed examples. *)
Definition sample_helper : @NoiseTreeHelper Z_arith :=
  @NoiseTreeHelper_new Z_arith 1
    [[5; 7; 9; 11; 13; 6; 5; 5; 5; 5]]
    [[5; 5; 5; 5; 5; 5; 5; 5; 5; 5]]
    [[2; 2; 2; 2; 2; 2; 2; 2; 2; 2]].

(** ** Pruning by energy budget *)

(** The comparisons [<=] and [==] of [double], abstract like its
    arithmetic. *)
Class Compare `{Arith} : Type := {
  d_leb : double → double → bool;
  d_eqb : double → double → bool
}.

Section Pruner.
Context `{C : Compare}.

(** A channel of a jet: its transverse energy and its number, as in the
    member [jetChannels_] of [FFTJetChannelSelector], a vector of
    [std::pair<double,int>] per jet. *)
Definition jet_channel : Type := double * Z.

Definition energy_le (a b : jet_channel) : Prop := d_leb a.1 b.1 = true.

Global Instance energy_le_dec a b : Decision (energy_le a b).
Proof. unfold energy_le. apply _. Defined.

(** Modelled from the spec: the file FFTJetChannelSelector.icc, which holds
    the pruning loop, is not among the sources.  Going through the channels
    in increasing order of energy, the energy of a channel is added to the
    running discard sum and the channel is discarded while that sum does
    not exceed the budget; the first channel that would take the sum over
    the budget is kept, with everything after it.  The result is the pair
    (discarded, kept). *)
Fixpoint discard_within (budget running : double) (sorted : list jet_channel)
    : list jet_channel * list jet_channel :=
  match sorted with
  | [] => ([], [])
  | c :: rest =>
      let running' := d_add running c.1 in
      if d_leb running' budget then
        let '(discarded, kept) := discard_within budget running' rest in
        (c :: discarded, kept)
      else ([], sorted)
  end.

(** Modelled from the spec: the pruner for one jet of total energy [total]
    with budget fraction [f].  A jet with zero total energy discards all
    its channels; for any other jet the budget is [f] times the total and
    the running discard sum starts at zero. *)
Definition prune_jet (f total : double) (chans : list jet_channel)
    : list jet_channel * list jet_channel :=
  let sorted := merge_sort energy_le chans in
  if d_eqb total d_zero then (sorted, [])
  else discard_within (d_mul f total) d_zero sorted.

(** The running discard sum after the channels of [l], added up in that
    order starting from zero. *)
Definition running_sum (l : list jet_channel) : double :=
  foldl (λ acc c, d_add acc c.1) d_zero l.

End Pruner.

(** IEEE 754 binary64 numbers, the [double] of the platform. *)
Definition binary64 : Arith := {|
  double := float;
  d_zero := 0%float;
  d_add := PrimFloat.add;
  d_sub := PrimFloat.sub;
  d_mul := PrimFloat.mul
|}.

Definition binary64_compare : @Compare binary64 :=
  @Build_Compare binary64 PrimFloat.leb PrimFloat.eqb.

(** Exact rational numbers, for closed examples. *)
Definition Q_arith : Arith := {|
  double := Q;
  d_zero := 0%Q;
  d_add := Qplus;
  d_sub := Qminus;
  d_mul := Qmult
|}.

Definition Q_compare : @Compare Q_arith :=
  @Build_Compare Q_arith Qle_bool Qeq_bool.

(** The enumeration and the channel count are never unfolded by
    simplification. *)
Global Arguments channel_ids : simpl never.
Global Arguments ChannelCount : simpl never.

(** ** Further queries of the channel map *)

(** [std::unique_copy] on a range of numbers: an element is copied unless
    it equals the one copied last. *)
Fixpoint unique_from (prev : nat) (l : list nat) : list nat :=
  match l with
  | [] => []
  | x :: l' =>
      if bool_decide (x = prev) then unique_from prev l'
      else x :: unique_from x l'
  end.

Definition unique_copy (l : list nat) : list nat :=
  match l with
  | [] => []
  | x :: l' => x :: unique_from x l'
  end.

(** The loop shared by [maxChannelsPerHPD] and [maxChannelsPerRBX]:
    [if (nchan > maxcount) maxcount = nchan] over a vector of vectors. *)
Definition max_count (v : list (list nat)) : nat :=
  foldl (λ maxcount chans,
           if bool_decide (maxcount < length chans)%nat then length chans
           else maxcount)
        0%nat v.

Definition getChannelInHPD (m : HBHEChannelMap) (index : nat) : result nat :=
  if bool_decide (ChannelCount ≤ index)%nat then throw out_of_range
  else mret (chan_in_hpd_lookup_ m !!! index).

Definition getRBX (m : HBHEChannelMap) (index : nat) : result nat :=
  if bool_decide (ChannelCount ≤ index)%nat then throw out_of_range
  else mret (rbx_lookup_ m !!! index).

Definition getChannelInRBX (m : HBHEChannelMap) (index : nat) : result nat :=
  if bool_decide (ChannelCount ≤ index)%nat then throw out_of_range
  else mret (chan_in_rbx_lookup_ m !!! index).

Definition maxChannelsPerHPD (m : HBHEChannelMap) : nat :=
  max_count (hpd_channel_lookup_ m).

Definition maxChannelsPerRBX (m : HBHEChannelMap) : nat :=
  max_count (rbx_channel_lookup_ m).

(** [channelSetNeighbors]: the neighbours of up to 18 channels, collected
    in the buffer [cands], sorted, and copied to the output without
    repetitions.  The output vector is cleared first, so the result does not
    depend on what it held. *)
Definition channelSetNeighbors (m : HBHEChannelMap) (input : list nat)
    : result (list nat * HBHEChannelMap) :=
  let nIn := length input in
  _ ← assert (bool_decide (nIn ≤ 18)%nat);
  '(cands, m') ←
    foldM (λ '(cands, mi) inp,
             '(chNeighbors, mi') ← channelNeigborsFromOtherHPDs mi inp;
             _ ← assert (bool_decide (length chNeighbors ≤ 8)%nat);
             mret (cands ++ chNeighbors, mi'))
          ([], m) input;
  mret (unique_copy (merge_sort (≤)%nat cands), m').

(** The tables written by the constructor, as opposed to the two caches. *)
Definition tables (m : HBHEChannelMap) :=
  (lookup_ m, inverse_ m, hpd_lookup_ m, chan_in_hpd_lookup_ m,
   hpd_channel_lookup_ m, rbx_lookup_ m, chan_in_rbx_lookup_ m,
   rbx_channel_lookup_ m).

Section ChannelMapLayout.
Context {hw : HcalHPDRBXMap}.

(** RBX of channel number [i]. *)
Definition rbx_of (i : nat) : nat := Z.to_nat (rbx_index (channel_ids !!! i)).

(** [layout_state n m]: the RBX tables and the two tables of positions
    after [n] rounds of the second loop of the constructor. *)
Definition layout_state (n : nat) (m : HBHEChannelMap) : Prop :=
  length (chan_in_hpd_lookup_ m) = ChannelCount ∧
  (∀ i, (i < n)%nat →
        chan_in_hpd_lookup_ m !! i
        = Some (length (filter (λ j, hpd_of j = hpd_of i) (seq 0 i)))) ∧
  length (rbx_lookup_ m) = ChannelCount ∧
  (∀ i, (i < n)%nat → rbx_lookup_ m !! i = Some (rbx_of i)) ∧
  length (chan_in_rbx_lookup_ m) = ChannelCount ∧
  (∀ i, (i < n)%nat →
        chan_in_rbx_lookup_ m !! i
        = Some (length (filter (λ j, rbx_of j = rbx_of i) (seq 0 i)))) ∧
  length (rbx_channel_lookup_ m) = Z.to_nat NUM_RBXS ∧
  (∀ r, (r < Z.to_nat NUM_RBXS)%nat →
        rbx_channel_lookup_ m !! r = Some (filter (λ i, rbx_of i = r) (seq 0 n))).

End ChannelMapLayout.

(** The enumerated triples in closed form, read off the thirteen loops of
    the constructor. *)
Definition enumerated (d e p : Z) : Prop :=
  1 ≤ p ≤ 72 ∧ (21 ≤ Z.abs e → Z.odd p = true) ∧
  ((d = 1 ∧ 1 ≤ Z.abs e ≤ 29) ∨
   (d = 2 ∧ (15 ≤ Z.abs e ≤ 16 ∨ 18 ≤ Z.abs e ≤ 29)) ∨
   (d = 3 ∧ (Z.abs e = 16 ∨ 27 ≤ Z.abs e ≤ 28))).

(** ** fillTuplesFromText

    The function reads an input stream line by line.  The stream is
    modelled by the characters not yet extracted and the three state bits of
    [std::ios]; [std::getline] is modelled after its description in the C++
    standard (lines longer than [max_size()] are not considered).  Reading
    one tuple from a line with [operator>>] is left abstract: [read_tuple]
    gives the tuple read from a line, or [None] when [fail()] is set after
    reading the fields. *)

Record istream : Type := mkStream {
  pending : list ascii;
  eofbit : bool;
  failbit : bool;
  badbit : bool
}.

(** [good()], [fail()] and the conversion to [bool] *)
Definition stream_good (s : istream) : bool :=
  negb (eofbit s || failbit s || badbit s).

Definition stream_fail (s : istream) : bool := failbit s || badbit s.

Definition stream_ok (s : istream) : bool := negb (stream_fail s).

(** A stream on which nothing has been read yet. *)
Definition fresh_stream (text : list ascii) : istream :=
  mkStream text false false false.

Definition newline : ascii := ascii_of_nat 10.

(** The characters before the next newline, and what follows the newline;
    [None] when the input ends before a newline is found. *)
Fixpoint take_line (cs : list ascii) : list ascii * option (list ascii) :=
  match cs with
  | [] => ([], None)
  | c :: cs' =>
      if Ascii.eqb c newline then ([], Some cs')
      else let '(line, rest) := take_line cs' in (c :: line, rest)
  end.

(** [std::getline(is, str)]: when the stream is not good, [failbit] is set
    and [str] is left as it was; otherwise [str] is erased and filled up to
    the newline, which is extracted too; at the end of the input [eofbit] is
    set, and [failbit] as well when nothing was extracted. *)
Definition getline (s : istream) (str : list ascii) : istream * list ascii :=
  if stream_good s then
    match take_line (pending s) with
    | (line, Some rest) => (mkStream rest false false false, line)
    | (line, None) =>
        (mkStream [] true (if line is [] then true else false) false, line)
    end
  else (mkStream (pending s) (eofbit s) true (badbit s), str).

(** [isspace] in the "C" locale: space, and the characters from horizontal
    tab to carriage return. *)
Definition isspace (c : ascii) : bool :=
  let n := nat_of_ascii c in
  (n =? 32)%nat || ((9 <=? n)%nat && (n <=? 13)%nat).

Definition comma : ascii := ascii_of_nat 44.
Definition hash : ascii := ascii_of_nat 35.
Definition space : ascii := ascii_of_nat 32.

(** The loop over the characters of a line: commas become spaces when
    [hasCommasBetweenValues] is set, as far as the loop gets; the loop stops
    at a [#] that has only white space before it.  The result is the line as
    the loop leaves it, [isComment] and [allSpace]. *)
Fixpoint scan_line (hasCommas allSpace : bool) (line : list ascii)
    : list ascii * bool * bool :=
  match line with
  | [] => ([], false, allSpace)
  | c :: rest =>
      let c' := if hasCommas && Ascii.eqb c comma then space else c in
      if isspace c' then
        let '(rest', isComment, allSpace') := scan_line hasCommas allSpace rest in
        (c' :: rest', isComment, allSpace')
      else if allSpace && Ascii.eqb c' hash then (c' :: rest, true, allSpace)
      else
        let '(rest', isComment, allSpace') := scan_line hasCommas false rest in
        (c' :: rest', isComment, allSpace')
  end.

(** A character the scan treats as white space: commas count when
    [hasCommasBetweenValues] is set. *)
Definition blank (hasCommas : bool) (c : ascii) : Prop :=
  isspace c = true ∨ (hasCommas = true ∧ c = comma).

Section FillTuples.
Context {T : Type} (read_tuple : list ascii → option T).

(** The local variables of the function that live across iterations. *)
Record tuple_fill : Type := mkFill {
  f_stream : istream;
  f_linebuf : list ascii;
  f_status : bool;
  f_nfilled : N;
  f_tofill : list T
}.

(** One round of the [while] loop. *)
Definition fill_step (hasCommas : bool) (st : tuple_fill) : tuple_fill :=
  let '(s, linebuf) := getline (f_stream st) (f_linebuf st) in
  match linebuf with
  | [] => mkFill s linebuf (f_status st) (f_nfilled st) (f_tofill st)
  | _ :: _ =>
      let '(line, isComment, allSpace) := scan_line hasCommas true linebuf in
      if isComment || allSpace then
        mkFill s line (f_status st) (f_nfilled st) (f_tofill st)
      else
        match read_tuple line with
        | Some buf =>
            mkFill s line true (f_nfilled st + 1)%N (f_tofill st ++ [buf])
        | None => mkFill s line false (f_nfilled st) (f_tofill st)
        end
  end.

(** [while (asciiStream && status && nfilled<maxElementsToFill)] *)
Definition fill_continues (maxElementsToFill : N) (st : tuple_fill) : bool :=
  stream_ok (f_stream st) && f_status st && (f_nfilled st <? maxElementsToFill)%N.

Fixpoint fill_loop (fuel : nat) (hasCommas : bool) (maxElementsToFill : N)
    (st : tuple_fill) : tuple_fill :=
  match fuel with
  | O => st
  | S fuel' =>
      if fill_continues maxElementsToFill st
      then fill_loop fuel' hasCommas maxElementsToFill (fill_step hasCommas st)
      else st
  end.

(** The value returned and the vector, for the state the loop ends in:
    [if ((asciiStream.fail() && !asciiStream.eof()) || asciiStream.bad())
    status = false]. *)
Definition fill_result (st : tuple_fill) : bool * list T :=
  (if (stream_fail (f_stream st) && negb (eofbit (f_stream st)))
      || badbit (f_stream st)
   then false else f_status st,
   f_tofill st).

(** Every round but the last extracts a character, so two rounds more than
    there are characters are enough (see [fill_loop_enough]).  The result is
    the returned status, the vector and the stream as the call leaves them. *)
Definition fillTuplesFromText (asciiStream : istream) (tofill : list T)
    (hasCommasBetweenValues : bool) (maxElementsToFill : N)
    : bool * list T * istream :=
  if (maxElementsToFill =? 0)%N then (true, tofill, asciiStream)
  else
    let st := fill_loop (S (S (length (pending asciiStream))))
                hasCommasBetweenValues maxElementsToFill
                (mkFill asciiStream [] true 0 tofill) in
    let s := f_stream st in
    let status :=
      if (stream_fail s && negb (eofbit s)) || badbit s then false
      else f_status st in
    (status, f_tofill st, s).

(** A line that the loop passes over: empty, white space only, or a
    comment. *)
Definition skipped (hasCommas : bool) (line : list ascii) : bool :=
  match line with
  | [] => true
  | _ :: _ => let '(_, isComment, allSpace) := scan_line hasCommas true line in
              isComment || allSpace
  end.

(** The text handed to [operator>>] for a line that is not passed over. *)
Definition scanned (hasCommas : bool) (line : list ascii) : list ascii :=
  (scan_line hasCommas true line).1.1.

(** What reading a sequence of complete lines amounts to: the status and
    the tuples appended, when [nfilled] tuples have been appended before. *)
Fixpoint fill_lines (hasCommas : bool) (maxElementsToFill nfilled : N)
    (lines : list (list ascii)) : bool * list T :=
  match lines with
  | [] => (true, [])
  | line :: rest =>
      if (nfilled <? maxElementsToFill)%N then
        if skipped hasCommas line
        then fill_lines hasCommas maxElementsToFill nfilled rest
        else
          match read_tuple (scanned hasCommas line) with
          | Some buf =>
              let '(status, rows) :=
                fill_lines hasCommas maxElementsToFill (nfilled + 1)%N rest in
              (status, buf :: rows)
          | None => (false, [])
          end
      else (true, [])
  end.

End FillTuples.

(** The characters of a text made of complete lines. *)
Definition text_of_lines (lines : list (list ascii)) : list ascii :=
  lines ≫= (λ line, line ++ [newline]).

(** [ULONG_MAX], the default of [maxElementsToFill] *)
Definition ULONG_MAX : N := 2 ^ 64 - 1.

(** ** tupleString

    [TuplePrintCycler<Tuple, N>::print] writes the first [N] fields, with
    the separator before every field but the first unless the separator is
    the empty string.  [shown] holds, field by field, what [operator<<]
    writes for it. *)
Fixpoint TuplePrintCycler_print (n : nat) (shown : list (list ascii))
    (sep : list ascii) : list ascii :=
  match n with
  | O => []
  | S n' =>
      TuplePrintCycler_print n' shown sep
      ++ (if (1 <? n)%nat && (if sep is [] then false else true) then sep else [])
      ++ shown !!! n'
  end.

(** A null [separator] stands for a single space. *)
Definition tupleString (shown : list (list ascii)) (separator : option (list ascii))
    : list ascii :=
  let sep := match separator with Some s => s | None => [space] end in
  TuplePrintCycler_print (length shown) shown sep.

(** ** Geometry files as text *)

Section GeometryText.
Context `{Arith} (read_tuple : list ascii → option Tuple).

(** The first half of [loadData]: opening the file ([None] when it cannot
    be opened) and parsing it with [fillTuplesFromText], called with its
    default arguments. *)
Definition read_geometry (content : option (list ascii)) : geometry_file :=
  match content with
  | None => Unreadable
  | Some text =>
      let '(status, nt, _) :=
        fillTuplesFromText read_tuple (fresh_stream text) [] false ULONG_MAX in
      if status then Rows nt else Malformed
  end.

End GeometryText.

(** ** Life of a NoiseTreeHelper, and the event loop of ExampleAnalysis *)

Section EnergyLoop.
Context `{Arith}.

(** An object is created by the constructor; afterwards the window is
    set with [setEMinMaxTS] and the tree data change when an entry is
    loaded. *)
Inductive helper_reachable : NoiseTreeHelper → Prop :=
  | helper_new pulses q ped g :
      helper_reachable (NoiseTreeHelper_new pulses q ped g)
  | helper_window h tsMin tsMax h' :
      helper_reachable h → setEMinMaxTS tsMin tsMax h = inr h' →
      helper_reachable h'
  | helper_entry h pulses q ped g :
      helper_reachable h →
      helper_reachable (mkHelper pulses q ped g (eMinTS_ h) (eMaxTS_ h)).

(** [ExampleAnalysis::event], as far as [totalEnergy_] goes: the sum of
    [energy(i)] for [i] from 0 up to [PulseCount], exclusive.  (The call that
    fills the histograms afterwards is not part of the model.) *)
Definition ExampleAnalysis_event (h : NoiseTreeHelper) : result double :=
  foldM (λ totalEnergy_ i, e ← energy h i; mret (d_add totalEnergy_ e))
        d_zero (seq 0 (Z.to_nat (PulseCount h))).

End EnergyLoop.

(** A reader for the closed examples: the tuple is one decimal digit,
    possibly after blanks. *)
Fixpoint sample_read (line : list ascii) : option nat :=
  match line with
  | [] => None
  | c :: rest =>
      if isspace c then sample_read rest
      else
        let n := nat_of_ascii c in
        if (48 <=? n)%nat && (n <=? 57)%nat then Some (n - 48)%nat else None
  end.

(** Lines for the closed examples: a comment, a row, an empty line, and
    a row again. *)
Definition sample_lines : list (list ascii) :=
  [[hash; space; "c"%char]; [space; "1"%char]; []; ["2"%char]].

(** A reader of geometry rows for the closed examples: the digit read is
    the x coordinate of a row for channel 0 = (depth 1, ieta -29, iphi 1). *)
Definition sample_read_row (line : list ascii) : option (@Tuple Z_arith) :=
  (λ n, @mkTuple Z_arith (-29) 1 1 (Z.of_nat n) 0 0) <$> sample_read line.

(** * Properties *)


(** ** Generic facts about the failure monad and array writes *)

Lemma bind_inr {A B} (a : A) (k : A → result B) : (inr a ≫= k) = k a.
Proof. done. Qed.

Lemma bind_mret {A B} (a : A) (k : A → result B) : (mret a ≫= k) = k a.
Proof. done. Qed.

Lemma bind_inl {A B} (e : failure) (k : A → result B) : (inl e ≫= k) = inl e.
Proof. done. Qed.

Lemma inr_eq {A B} (x y : B) : @inr A B x = inr y → x = y.
Proof. by intros [=]. Qed.

Lemma foldM_app {A S} (f : S → A → result S) s l k :
  foldM f s (l ++ k) = s' ← foldM f s l; foldM f s' k.
Proof.
  revert s. induction l as [|x l IH]; intros s; simpl; [done|].
  destruct (f s x) as [e|s']; simpl; [done|]. apply IH.
Qed.

(** A loop whose body appends a list that does not depend on what was
    accumulated so far. *)
Lemma foldM_append {A B} (f : list B → A → result (list B)) (g : A → list B) l :
  (∀ acc x, x ∈ l → f acc x = inr (acc ++ g x)) →
  ∀ acc, foldM f acc l = inr (acc ++ (l ≫= g)).
Proof.
  induction l as [|x l IH]; intros Hf acc; simpl.
  - by rewrite app_nil_r.
  - rewrite Hf by left. simpl. rewrite IH.
    + by rewrite app_assoc.
    + intros acc' y Hy. apply Hf. by right.
Qed.

(** Writing [xs] to consecutive slots of an array, starting at slot [l]. *)
Lemma foldl_put xs : ∀ a l,
  (l + length xs ≤ length a)%nat →
  foldl put (a, l) xs
  = (take l a ++ xs ++ drop (l + length xs) a, (l + length xs)%nat).
Proof.
  induction xs as [|x xs IH]; intros a l Hl; simpl in *.
  - by rewrite Nat.add_0_r, take_drop.
  - unfold put at 2. simpl. rewrite IH by (rewrite length_insert; lia).
    f_equal; [|lia].
    rewrite (take_S_r _ _ x); [|apply list_lookup_insert_eq; lia].
    rewrite take_insert_ge by lia.
    rewrite drop_insert_lt by lia.
    rewrite <- app_assoc. simpl.
    by replace (l + S (length xs))%nat with (S (l + length xs)) by lia.
Qed.

(** Writing [f i] to slot [i] for [i] from [0] to [n-1]. *)
Lemma foldl_insert_seq {A} (f : nat → A) n : ∀ t,
  (n ≤ length t)%nat →
  foldl (λ t i, <[i := f i]> t) t (seq 0 n) = (f <$> seq 0 n) ++ drop n t.
Proof.
  induction n as [|n IH]; intros t Hn.
  - done.
  - rewrite seq_S, foldl_app, fmap_app. simpl.
    rewrite IH by lia.
    rewrite insert_app_r_alt by (rewrite length_fmap, length_seq; lia).
    rewrite length_fmap, length_seq, Nat.sub_diag.
    rewrite <- app_assoc. f_equal.
    destruct (drop n t) as [|y r] eqn:Hd.
    + apply (f_equal length) in Hd. rewrite length_drop in Hd. simpl in Hd. lia.
    + simpl. f_equal.
      by rewrite <- (Nat.add_1_r n), <- drop_drop, Hd.
Qed.

Lemma StronglySorted_lt_NoDup (l : list Z) : StronglySorted Z.lt l → NoDup l.
Proof.
  induction 1 as [|x l _ IH Hx]; constructor; [|done].
  intros Hin. rewrite Forall_forall in Hx. specialize (Hx _ Hin). lia.
Qed.

Lemma Sorted_le_NoDup_lt (l : list nat) :
  Sorted (≤)%nat l → NoDup l → StronglySorted (<)%nat l.
Proof.
  intros Hs Hn. apply (Sorted_StronglySorted _) in Hs.
  induction Hs as [|x l _ IH Hx]; constructor.
  - apply IH. by apply NoDup_cons in Hn as [_ ?].
  - apply NoDup_cons in Hn as [Hx' _].
    rewrite Forall_forall in Hx |- *. intros y Hy.
    specialize (Hx _ Hy). assert (x ≠ y) by (intros ->; done). lia.
Qed.

Lemma NoDup_omap_inj {A B} (f : A → option B) (l : list A) :
  (∀ x y z, f x = Some z → f y = Some z → x = y) →
  NoDup l → NoDup (omap f l).
Proof.
  intros Hinj. induction 1 as [|x l Hx _ IH]; simpl; [constructor|].
  destruct (f x) as [z|] eqn:Hfx; [|done].
  constructor; [|done].
  rewrite list_elem_of_omap. intros (y & Hy & Hfy).
  by rewrite (Hinj _ _ _ Hfx Hfy) in Hx.
Qed.

(** ** The enumeration *)

Lemma fill_rings_spec skip0 d a b phis st :
  fill_rings skip0 d a b phis st = foldl put st (ring_ids skip0 d a b phis).
Proof.
  unfold fill_rings, ring_ids. generalize (loop_values a b 1). intros l.
  revert st. induction l as [|e l IH]; intros st; simpl; [done|].
  rewrite foldl_app, <- IH. f_equal.
  destruct (skip0 && (e =? 0)); simpl; [done|].
  by rewrite foldl_fmap.
Qed.

Lemma fill_lookup_spec st : fill_lookup st = foldl put st channel_ids.
Proof.
  unfold fill_lookup, channel_ids. by rewrite !foldl_app, !fill_rings_spec.
Qed.

Lemma channel_ids_length : length channel_ids = ChannelCount.
Proof. vm_compute. reflexivity. Qed.

Lemma fill_lookup_any a :
  length a = ChannelCount → fill_lookup (a, 0%nat) = (channel_ids, ChannelCount).
Proof.
  intros Ha. rewrite fill_lookup_spec, foldl_put by (rewrite channel_ids_length; lia).
  rewrite channel_ids_length, Nat.add_0_l, take_0, drop_ge by lia.
  by rewrite app_nil_r.
Qed.

Lemma channel_ids_keys_sorted : Sorted Z.lt (id_key <$> channel_ids).
Proof. apply (bool_decide_unpack _). vm_compute. reflexivity. Qed.

Lemma channel_ids_NoDup : NoDup channel_ids.
Proof.
  apply (NoDup_fmap_1 id_key), StronglySorted_lt_NoDup.
  apply (Sorted_StronglySorted _), channel_ids_keys_sorted.
Qed.

Lemma channel_ids_ok : Forall id_ok channel_ids.
Proof. apply (bool_decide_unpack _). vm_compute. reflexivity. Qed.

Lemma channel_ids_lookup_ok i c : channel_ids !! i = Some c → id_ok c.
Proof.
  intros H. eapply Forall_forall; [apply channel_ids_ok|].
  by eapply list_elem_of_lookup_2.
Qed.

Lemma channel_ids_lookup_lt i :
  (i < ChannelCount)%nat → ∃ c, channel_ids !! i = Some c ∧ channel_ids !!! i = c.
Proof.
  intros Hi. rewrite <- channel_ids_length in Hi.
  apply lookup_lt_is_Some in Hi as [c Hc]. exists c. split; [done|].
  by apply list_lookup_total_correct.
Qed.

Lemma index_of_Some c i : index_of c = Some i ↔ channel_ids !! i = Some c.
Proof.
  unfold index_of. split.
  - intros H. apply fmap_Some in H as ([i' c'] & Hf & ->).
    apply list_find_Some in Hf as (Hl & -> & _). done.
  - intros Hl.
    destruct (list_find (λ c', c' = c) channel_ids) as [[i' c']|] eqn:Hf.
    + apply list_find_Some in Hf as (Hl' & -> & _). simpl. f_equal.
      eapply NoDup_lookup; eauto using channel_ids_NoDup.
    + apply list_find_None in Hf. rewrite Forall_forall in Hf.
      exfalso. eapply Hf; [|done]. by eapply list_elem_of_lookup_2.
Qed.

Lemma index_of_lt c i : index_of c = Some i → (i < ChannelCount)%nat.
Proof.
  rewrite index_of_Some. intros H. apply lookup_lt_Some in H.
  by rewrite channel_ids_length in H.
Qed.

Lemma index_of_None c : index_of c = None ↔ c ∉ channel_ids.
Proof.
  split.
  - intros Hn Hin. apply list_elem_of_lookup in Hin as [i Hi].
    apply index_of_Some in Hi. congruence.
  - intros Hn. destruct (index_of c) as [i|] eqn:Hi; [|done].
    apply index_of_Some in Hi. exfalso. apply Hn.
    by eapply list_elem_of_lookup_2.
Qed.

Lemma index_of_inj c1 c2 i : index_of c1 = Some i → index_of c2 = Some i → c1 = c2.
Proof. rewrite !index_of_Some. congruence. Qed.

(** ** getSubdetector *)

Lemma getSubdetector_spec d e :
  getSubdetector d e =
    if bool_decide (1 ≤ d ≤ 3 ∧ Z.abs e ≤ 29 ∧ (Z.abs e = 29 → d ≤ 2)) then
      inr (if bool_decide (Z.abs e ≤ 15) then HcalBarrel
           else if bool_decide (Z.abs e = 16 ∧ d ≤ 2) then HcalBarrel
           else HcalEndcap)
    else inl assertion_failed.
Proof.
  unfold getSubdetector, assert.
  repeat case_bool_decide;
    repeat (match goal with
            | |- context [?a <=? ?b] => destruct (Z.leb_spec a b)
            | |- context [?a <? ?b] => destruct (Z.ltb_spec a b)
            | |- context [?a =? ?b] => destruct (Z.eqb_spec a b)
            end; simpl; try done; try lia).
Qed.

Lemma getSubdetector_enumerated c :
  id_ok c → getSubdetector (depth c) (ieta c) = inr (subdetector_of c).
Proof.
  intros (Hd & He & H29 & _). unfold subdetector_of.
  rewrite getSubdetector_spec, bool_decide_true; [done|]. repeat split; lia || done.
Qed.

(** ** The constructor *)

Section ChannelMapFacts.
Context {hw : HcalHPDRBXMap}.

Lemma register_channel_spec m n c :
  lookup_ m !! n = Some c → id_ok c →
  register_channel m n =
    if bool_decide (hw_ok_at c) then
      inr (mkMap (lookup_ m) (<[c := n]> (inverse_ m))
             (<[n := Z.to_nat (hpd_index c)]> (hpd_lookup_ m))
             (<[n := length (hpd_channel_lookup_ m !!! Z.to_nat (hpd_index c))]>
                (chan_in_hpd_lookup_ m))
             (push_at (Z.to_nat (hpd_index c)) n (hpd_channel_lookup_ m))
             (<[n := Z.to_nat (rbx_index c)]> (rbx_lookup_ m))
             (<[n := length (rbx_channel_lookup_ m !!! Z.to_nat (rbx_index c))]>
                (chan_in_rbx_lookup_ m))
             (push_at (Z.to_nat (rbx_index c)) n (rbx_channel_lookup_ m))
             (channel_neighbors_ m) (neighborInfoFilled_ m)
             (hpd_neighbors_ m) (hpdNeighborsFilled_ m))
    else inl assertion_failed.
Proof.
  intros Hl Hc. unfold register_channel.
  rewrite (list_lookup_total_correct _ _ _ Hl).
  rewrite (getSubdetector_enumerated _ Hc). simpl.
  fold (hpd_index c). fold (rbx_index c). unfold hw_ok_at, assert.
  destruct (Z.leb_spec 0 (hpd_index c)), (Z.ltb_spec (hpd_index c) NUM_HPDS);
    simpl; try (rewrite bool_decide_false by lia; done).
  destruct (Z.leb_spec 0 (rbx_index c)), (Z.ltb_spec (rbx_index c) NUM_RBXS);
    simpl; try (rewrite bool_decide_false by lia; done).
  by rewrite bool_decide_true by lia.
Qed.

Lemma ctor_state_initial : ctor_state 0 (initial_map channel_ids).
Proof.
  unfold ctor_state, initial_map; simpl.
  split_and!; try done; try (by rewrite length_replicate).
  - intros c i. rewrite lookup_empty. split; [done|lia].
  - intros; lia.
  - intros h Hh. by apply lookup_replicate_2.
Qed.

Lemma ctor_state_step n m m' :
  (n < ChannelCount)%nat → ctor_state n m →
  register_channel m n = inr m' → ctor_state (S n) m'.
Proof.
  intros Hn (Hlk & Hinv & Hlen & Hhpd & Hclen & Hchan & Hrange & Hc1 & Hc2 & Hc3 & Hc4).
  destruct (channel_ids_lookup_lt n Hn) as (c & Hc & Hct).
  pose proof (channel_ids_lookup_ok _ _ Hc) as Hok.
  rewrite (register_channel_spec m n c) by (by rewrite ?Hlk).
  case_bool_decide as Hhw; [|done]. intros [= <-].
  assert (hpd_of n = Z.to_nat (hpd_index c)) as Hn_hpd
    by (unfold hpd_of; by rewrite Hct).
  destruct Hhw as [Hh Hr].
  unfold ctor_state.
  cbn [lookup_ inverse_ hpd_lookup_ hpd_channel_lookup_ channel_neighbors_
       neighborInfoFilled_ hpd_neighbors_ hpdNeighborsFilled_].
  split_and!; try done.
  - intros c0 i. destruct (decide (c = c0)) as [<-|Hne].
    + rewrite lookup_insert_eq. split.
      * intros [= <-]. split; [lia|done].
      * intros [_ Hci]. f_equal.
        eapply NoDup_lookup; eauto using channel_ids_NoDup.
    + rewrite lookup_insert_ne by done. rewrite Hinv.
      split; intros [Hi Hci]; (split; [|done]); [lia|].
      assert (i ≠ n) by congruence. lia.
  - by rewrite length_insert.
  - intros i Hi. destruct (decide (i = n)) as [->|Hne].
    + rewrite list_lookup_insert_eq by lia. by rewrite Hn_hpd.
    + rewrite list_lookup_insert_ne by done. apply Hhpd. lia.
  - unfold push_at. by rewrite length_insert.
  - intros h Hh'. unfold push_at. rewrite seq_S, filter_app. simpl.
    destruct (decide (h = Z.to_nat (hpd_index c))) as [->|Hne].
    + rewrite list_lookup_insert_eq by lia.
      rewrite (list_lookup_total_correct _ _ _ (Hchan _ Hh')).
      rewrite (filter_cons_True _ n) by done. by rewrite filter_nil.
    + rewrite list_lookup_insert_ne by done.
      rewrite (filter_cons_False _ n) by congruence.
      rewrite filter_nil, app_nil_r. by apply Hchan.
  - rewrite (take_S_r _ _ c) by done. apply Forall_app. split; [done|].
    apply Forall_singleton. by split.
Qed.

Lemma ctor_loop_inv n :
  (n ≤ ChannelCount)%nat → ∀ m,
  foldM register_channel (initial_map channel_ids) (seq 0 n) = inr m →
  ctor_state n m.
Proof.
  induction n as [|n IH]; intros Hn m.
  - simpl. intros [= <-]. apply ctor_state_initial.
  - rewrite seq_S, foldM_app. simpl.
    destruct (foldM register_channel (initial_map channel_ids) (seq 0 n))
      as [e|m1] eqn:Hm1; simpl; [done|].
    destruct (register_channel m1 n) as [e|m2] eqn:Hm2; simpl; [done|].
    intros [= <-]. eapply ctor_state_step; [lia| |done]. apply IH; [lia|done].
Qed.

Lemma ctor_loop_total n :
  hw_ok → (n ≤ ChannelCount)%nat →
  ∃ m, foldM register_channel (initial_map channel_ids) (seq 0 n) = inr m.
Proof.
  intros Hhw. induction n as [|n IH]; intros Hn.
  - by eexists.
  - destruct IH as [m1 Hm1]; [lia|].
    rewrite seq_S, foldM_app, Hm1. simpl.
    pose proof (ctor_loop_inv n ltac:(lia) m1 Hm1) as (Hlk & _).
    destruct (channel_ids_lookup_lt n ltac:(lia)) as (c & Hc & _).
    rewrite (register_channel_spec m1 n c)
      by (rewrite ?Hlk; eauto using channel_ids_lookup_ok).
    rewrite bool_decide_true; [by eexists|].
    unfold hw_ok in Hhw. rewrite Forall_forall in Hhw. apply Hhw.
    by eapply list_elem_of_lookup_2.
Qed.

Lemma HBHEChannelMap_new_unfold :
  HBHEChannelMap_new
  = foldM register_channel (initial_map channel_ids) (seq 0 ChannelCount).
Proof.
  unfold HBHEChannelMap_new.
  rewrite fill_lookup_any by apply length_replicate.
  by rewrite bool_decide_true.
Qed.

Lemma ctor_state_geom m : ctor_state ChannelCount m → geom_ok m.
Proof.
  intros (Hlk & Hinv & Hlen & Hhpd & Hclen & Hchan & Hrange & _).
  split_and!; [exact Hlk| |exact Hlen|exact Hhpd|exact Hchan|].
  - intros c. apply option_eq. intros i. rewrite Hinv, index_of_Some.
    split; [by intros [_ ?]|]. intros H. split; [|done].
    apply lookup_lt_Some in H. by rewrite channel_ids_length in H.
  - unfold hw_ok. by rewrite <- channel_ids_length, firstn_all in Hrange.
Qed.

Lemma ctor_state_map_ok m : ctor_state ChannelCount m → map_ok m.
Proof.
  intros H. split; [by apply ctor_state_geom|].
  destruct H as (_ & _ & _ & _ & _ & _ & _ & Hc1 & Hc2 & Hc3 & Hc4).
  unfold cache_ok. rewrite Hc1, Hc2, Hc3, Hc4, !length_replicate. done.
Qed.

Lemma new_ctor_state m : HBHEChannelMap_new = inr m → ctor_state ChannelCount m.
Proof. rewrite HBHEChannelMap_new_unfold. by apply ctor_loop_inv. Qed.

Lemma new_total : hw_ok → ∃ m, HBHEChannelMap_new = inr m.
Proof. rewrite HBHEChannelMap_new_unfold. intros. by apply ctor_loop_total. Qed.

(** ** Neighbours of a channel *)

Lemma foldM_pure {A S} (f : S → A → result S) (g : S → A → S) (Inv : S → Prop) l :
  (∀ s x, x ∈ l → Inv s → f s x = inr (g s x) ∧ Inv (g s x)) →
  ∀ s, Inv s → foldM f s l = inr (foldl g s l) ∧ Inv (foldl g s l).
Proof.
  induction l as [|x l IH]; intros Hf s Hs; simpl; [done|].
  destruct (Hf s x) as [-> Hs']; [by left|done|]. simpl.
  apply IH; [|done]. intros s' y Hy. apply Hf. by right.
Qed.

Lemma filter_bind {A B} (P : B → Prop) `{∀ x, Decision (P x)} (g : A → list B) l :
  filter P (l ≫= g) = l ≫= (λ x, filter P (g x)).
Proof.
  induction l as [|x l IH]; [done|].
  rewrite !bind_cons, filter_app. by f_equal.
Qed.

Lemma omap_bind_list {A B C} (f : B → option C) (g : A → list B) l :
  omap f (l ≫= g) = l ≫= (λ x, omap f (g x)).
Proof.
  induction l as [|x l IH]; [done|].
  rewrite !bind_cons, omap_app. by f_equal.
Qed.

Lemma getHPD_spec m i :
  geom_ok m → (i < ChannelCount)%nat → getHPD m i = inr (hpd_of i).
Proof.
  intros (_ & _ & _ & Hhpd & _) Hi. unfold getHPD.
  rewrite bool_decide_false by lia.
  by rewrite (list_lookup_total_correct _ _ _ (Hhpd _ Hi)).
Qed.

Lemma neighbor_step_spec m d e p myHPD es acc ps :
  geom_ok m → 1 ≤ p ≤ 72 → ps ∈ shifts →
  neighbor_step m d e p myHPD es acc ps
  = inr (acc ++ filter (λ j, myHPD ≠ hpd_of j)
                  (omap index_of
                     (if negb (es =? 0) || negb (ps =? 0)
                      then [mkId d (shift_eta e es) (wrap_phi (p + ps))]
                      else []))).
Proof.
  intros Hg Hp Hps. unfold neighbor_step.
  destruct (negb (es =? 0) || negb (ps =? 0)); simpl; [|by rewrite app_nil_r].
  assert (-1 ≤ ps ≤ 1) as Hps'.
  { unfold shifts in Hps. rewrite !elem_of_cons, elem_of_nil in Hps. lia. }
  unfold assert.
  destruct (Z.leb_spec 0 (p + ps)); [|lia].
  destruct (Z.leb_spec (p + ps) 73); [|lia]. simpl.
  pose proof Hg as (_ & Hinv & _). rewrite Hinv.
  destruct (index_of _) as [j|] eqn:Hj; simpl; [|by rewrite app_nil_r].
  rewrite getHPD_spec; [|done|by eapply index_of_lt]. simpl.
  case_bool_decide as Hh.
  - rewrite filter_cons_True by exact Hh. by rewrite filter_nil.
  - rewrite filter_cons_False by (intros Hn; by apply Hn).
    by rewrite filter_nil, app_nil_r.
Qed.

Lemma calculateNeighborList_spec m i :
  geom_ok m → (i < ChannelCount)%nat →
  calculateNeighborList m i = inr (neighbors_of i).
Proof.
  intros Hg Hi. unfold calculateNeighborList.
  rewrite getHPD_spec, bind_inr by done.
  destruct (channel_ids_lookup_lt i Hi) as (c & Hc & Hct).
  pose proof Hg as (Hlk & _). rewrite Hlk, Hct.
  pose proof (channel_ids_lookup_ok _ _ Hc) as (_ & _ & _ & Hp).
  rewrite (foldM_append _
    (λ es, ps ← shifts;
           filter (λ j, hpd_of i ≠ hpd_of j)
             (omap index_of
                (if negb (es =? 0) || negb (ps =? 0)
                 then [mkId (depth c) (shift_eta (ieta c) es) (wrap_phi (iphi c + ps))]
                 else [])))).
  - rewrite bind_inr, app_nil_l. unfold mret, result_ret. f_equal.
    unfold neighbors_of, raw_neighbors, candidates.
    rewrite Hct. rewrite omap_bind_list, filter_bind. f_equal.
    apply list_bind_ext; [|done]. intros es.
    by rewrite omap_bind_list, filter_bind.
  - intros acc es _. apply foldM_append.
    intros acc' ps Hps. by apply neighbor_step_spec.
Qed.

Lemma geom_ok_set_channel_neighbors f m :
  geom_ok m → geom_ok (set_channel_neighbors f m).
Proof. done. Qed.

Lemma foldl_set_channel_neighbors (g : nat → list nat) l : ∀ m,
  foldl (λ mi i, set_channel_neighbors (λ t, <[i := g i]> t) mi) m l
  = set_channel_neighbors (λ t, foldl (λ t i, <[i := g i]> t) t l) m.
Proof.
  induction l as [|x l IH]; intros m; simpl; [by destruct m|].
  by rewrite IH.
Qed.

Lemma set_channel_neighbors_ext f g m :
  f (channel_neighbors_ m) = g (channel_neighbors_ m) →
  set_channel_neighbors f m = set_channel_neighbors g m.
Proof. unfold set_channel_neighbors. by intros ->. Qed.

Lemma fill_channel_neighbors_spec m :
  geom_ok m → length (channel_neighbors_ m) = ChannelCount →
  neighborInfoFilled_ m = false →
  fill_channel_neighbors m = inr (warm_channels m).
Proof.
  intros Hg Hlen Hf. unfold fill_channel_neighbors.
  pose proof (foldM_pure
    (λ mi i, vec ← calculateNeighborList mi i;
             mret (set_channel_neighbors (λ t, <[i := vec]> t) mi))
    (λ mi i, set_channel_neighbors (λ t, <[i := neighbors_of i]> t) mi)
    geom_ok (seq 0 ChannelCount)) as Hloop.
  destruct (Hloop) with (s := m) as [Heq _]; [|exact Hg|].
  - intros mi i Hi Hmi. apply elem_of_seq in Hi.
    rewrite calculateNeighborList_spec; [|exact Hmi|lia].
    rewrite bind_inr. split; [reflexivity|exact Hmi].
  - rewrite Heq, bind_inr, foldl_set_channel_neighbors.
    unfold warm_channels. rewrite Hf.
    rewrite (set_channel_neighbors_ext _
               (λ t, (neighbors_of <$> seq 0 ChannelCount) ++ drop ChannelCount t));
      [reflexivity|].
    apply foldl_insert_seq. lia.
Qed.

Lemma warm_channels_filled m : neighborInfoFilled_ (warm_channels m) = true.
Proof. unfold warm_channels. by destruct (neighborInfoFilled_ m) eqn:H. Qed.

Lemma warm_channels_idem m : warm_channels (warm_channels m) = warm_channels m.
Proof.
  unfold warm_channels at 1. by rewrite warm_channels_filled.
Qed.

Lemma warm_channels_geom m : geom_ok m → geom_ok (warm_channels m).
Proof. unfold warm_channels. by destruct (neighborInfoFilled_ m). Qed.

Lemma warm_channels_hpd_cache m :
  hpd_neighbors_ (warm_channels m) = hpd_neighbors_ m ∧
  hpdNeighborsFilled_ (warm_channels m) = hpdNeighborsFilled_ m.
Proof. unfold warm_channels. by destruct (neighborInfoFilled_ m). Qed.

Lemma neighbor_table_lookup (t : list (list nat)) i :
  (i < ChannelCount)%nat →
  ((neighbors_of <$> seq 0 ChannelCount) ++ drop ChannelCount t) !! i
  = Some (neighbors_of i).
Proof.
  intros Hi. rewrite lookup_app_l by (by rewrite length_fmap, length_seq).
  by rewrite list_lookup_fmap, lookup_seq_lt.
Qed.

Lemma neighbor_table_length (t : list (list nat)) :
  length t = ChannelCount →
  length ((neighbors_of <$> seq 0 ChannelCount) ++ drop ChannelCount t) = ChannelCount.
Proof.
  intros Ht. rewrite length_app, length_fmap, length_seq, length_drop. lia.
Qed.

Lemma warm_channels_ok m : map_ok m → map_ok (warm_channels m).
Proof.
  intros [Hg Hc]. split; [by apply warm_channels_geom|].
  unfold warm_channels. destruct (neighborInfoFilled_ m) eqn:Hf; [exact Hc|].
  destruct Hc as (Hl1 & Hc1 & Hl2 & Hc2).
  unfold cache_ok. cbn [set_neighborInfoFilled set_channel_neighbors
    channel_neighbors_ neighborInfoFilled_ hpd_neighbors_ hpdNeighborsFilled_].
  split_and!; [by apply neighbor_table_length| |exact Hl2|exact Hc2].
  intros _ i Hi. by apply neighbor_table_lookup.
Qed.

Lemma warm_channels_lookup m i :
  map_ok m → (i < ChannelCount)%nat →
  channel_neighbors_ (warm_channels m) !!! i = neighbors_of i.
Proof.
  intros Hm Hi. apply list_lookup_total_correct.
  destruct (warm_channels_ok m Hm) as [_ (_ & Hc & _)].
  apply Hc; [apply warm_channels_filled|done].
Qed.

Lemma channelNeigbors_spec m i :
  map_ok m → (i < ChannelCount)%nat →
  channelNeigborsFromOtherHPDs m i = inr (neighbors_of i, warm_channels m).
Proof.
  intros Hm Hi. unfold channelNeigborsFromOtherHPDs.
  rewrite bool_decide_false by lia.
  assert ((if neighborInfoFilled_ m then mret m else fill_channel_neighbors m)
          = inr (warm_channels m)) as ->.
  { destruct (neighborInfoFilled_ m) eqn:Hf.
    - unfold warm_channels. by rewrite Hf.
    - destruct Hm as [Hg (Hl & _)]. by apply fill_channel_neighbors_spec. }
  rewrite bind_inr. by rewrite warm_channels_lookup.
Qed.

Lemma channelNeigbors_out_of_range m i :
  (ChannelCount ≤ i)%nat → channelNeigborsFromOtherHPDs m i = inl out_of_range.
Proof.
  intros Hi. unfold channelNeigborsFromOtherHPDs. by rewrite bool_decide_true.
Qed.

(** *** The neighbour list itself *)

Lemma elem_of_shifts s : s ∈ shifts ↔ s = -1 ∨ s = 0 ∨ s = 1.
Proof. unfold shifts. rewrite !elem_of_cons, elem_of_nil. tauto. Qed.

Lemma elem_of_candidates c c' :
  c' ∈ candidates c ↔
  ∃ es ps, es ∈ shifts ∧ ps ∈ shifts ∧ (es ≠ 0 ∨ ps ≠ 0) ∧
           c' = mkId (depth c) (shift_eta (ieta c) es) (wrap_phi (iphi c + ps)).
Proof.
  unfold candidates. rewrite list_elem_of_bind. split.
  - intros (es & Hin & Hes). apply list_elem_of_bind in Hin as (ps & Hin & Hps).
    exists es, ps. split_and!; try done;
      destruct (Z.eqb_spec es 0), (Z.eqb_spec ps 0); simpl in Hin;
      rewrite ?elem_of_nil, ?list_elem_of_singleton in Hin; tauto.
  - intros (es & ps & Hes & Hps & Hne & ->). exists es. split; [|done].
    apply list_elem_of_bind. exists ps. split; [|done].
    destruct (Z.eqb_spec es 0), (Z.eqb_spec ps 0); simpl;
      rewrite ?list_elem_of_singleton; tauto.
Qed.

Lemma candidates_length c : length (candidates c) = 8%nat.
Proof. reflexivity. Qed.

Lemma shift_eta_distinct e :
  shift_eta e (-1) ≠ shift_eta e 0 ∧ shift_eta e (-1) ≠ shift_eta e 1 ∧
  shift_eta e 0 ≠ shift_eta e 1.
Proof.
  unfold shift_eta.
  destruct (Z.eqb_spec (e + -1) 0), (Z.eqb_spec (e + 0) 0), (Z.eqb_spec (e + 1) 0); lia.
Qed.

Lemma wrap_phi_distinct p :
  1 ≤ p ≤ 72 →
  wrap_phi (p + -1) ≠ wrap_phi (p + 0) ∧ wrap_phi (p + -1) ≠ wrap_phi (p + 1) ∧
  wrap_phi (p + 0) ≠ wrap_phi (p + 1).
Proof.
  intros Hp. unfold wrap_phi.
  destruct (Z.eqb_spec (p + -1) 0), (Z.eqb_spec (p + -1) 73),
    (Z.eqb_spec (p + 0) 0), (Z.eqb_spec (p + 0) 73),
    (Z.eqb_spec (p + 1) 0), (Z.eqb_spec (p + 1) 73); lia.
Qed.

Lemma candidates_NoDup c : 1 ≤ iphi c ≤ 72 → NoDup (candidates c).
Proof.
  intros Hp.
  destruct (shift_eta_distinct (ieta c)) as (He1 & He2 & He3).
  destruct (wrap_phi_distinct (iphi c) Hp) as (Hp1 & Hp2 & Hp3).
  unfold candidates, shifts. cbn [mbind list_bind app negb orb Z.eqb].
  generalize dependent (shift_eta (ieta c) (-1)).
  generalize dependent (shift_eta (ieta c) 0).
  generalize dependent (shift_eta (ieta c) 1).
  generalize dependent (wrap_phi (iphi c + -1)).
  generalize dependent (wrap_phi (iphi c + 0)).
  generalize dependent (wrap_phi (iphi c + 1)).
  intros p1 p0 pm Hp1 Hp2 Hp3 e1 e0 em He1 He2 He3.
  repeat (apply NoDup_cons; split;
          [rewrite ?not_elem_of_cons; split_and?; try apply not_elem_of_nil;
           intros [=]; congruence|]).
  apply NoDup_nil_2.
Qed.

Lemma length_omap_le {A B} (f : A → option B) l : (length (omap f l) ≤ length l)%nat.
Proof. induction l as [|x l IH]; csimpl; [done|]. destruct (f x); csimpl; lia. Qed.

Lemma raw_neighbors_NoDup i : (i < ChannelCount)%nat → NoDup (raw_neighbors i).
Proof.
  intros Hi. destruct (channel_ids_lookup_lt i Hi) as (c & Hc & Hct).
  unfold raw_neighbors. rewrite Hct.
  apply NoDup_filter, NoDup_omap_inj.
  - intros ???. apply index_of_inj.
  - apply candidates_NoDup. by apply (channel_ids_lookup_ok _ _ Hc).
Qed.

Lemma neighbors_of_sorted i :
  (i < ChannelCount)%nat → StronglySorted (<)%nat (neighbors_of i).
Proof.
  intros Hi. unfold neighbors_of. apply Sorted_le_NoDup_lt.
  - apply (Sorted_merge_sort _).
  - rewrite merge_sort_Permutation. by apply raw_neighbors_NoDup.
Qed.

Lemma neighbors_of_length i : (length (neighbors_of i) ≤ 8)%nat.
Proof.
  unfold neighbors_of, raw_neighbors.
  rewrite merge_sort_Permutation.
  etrans; [apply length_filter|]. etrans; [apply length_omap_le|].
  by rewrite candidates_length.
Qed.

Lemma elem_of_neighbors_of i j :
  j ∈ neighbors_of i ↔
  hpd_of i ≠ hpd_of j ∧
  ∃ c', c' ∈ candidates (channel_ids !!! i) ∧ channel_ids !! j = Some c'.
Proof.
  unfold neighbors_of, raw_neighbors.
  rewrite merge_sort_Permutation, list_elem_of_filter, list_elem_of_omap.
  by setoid_rewrite index_of_Some.
Qed.

Lemma neighbors_of_lt i j : j ∈ neighbors_of i → (j < ChannelCount)%nat.
Proof.
  rewrite elem_of_neighbors_of. intros (_ & c' & _ & Hj).
  apply lookup_lt_Some in Hj. by rewrite channel_ids_length in Hj.
Qed.

(** ** Neighbours of an HPD *)

Lemma elem_of_hpd_channels h c :
  c ∈ hpd_channels h ↔ (c < ChannelCount)%nat ∧ hpd_of c = h.
Proof.
  unfold hpd_channels. rewrite list_elem_of_filter, elem_of_seq. split; intros []; split; done || lia.
Qed.

Lemma foldl_set_insert (l : list nat) : ∀ acc : gset nat,
  foldl (λ (s : gset nat) n, {[n]} ∪ s) acc l = list_to_set l ∪ acc.
Proof.
  induction l as [|x l IH]; intros acc; simpl.
  - by rewrite union_empty_l_L.
  - by rewrite IH, (assoc_L (∪)), (comm_L (∪) _ {[x]}).
Qed.

Lemma calculateHPDNeighbors_loop m chans : ∀ (acc : gset nat) mi,
  map_ok mi → (mi = m ∨ mi = warm_channels m) →
  Forall (λ c, (c < ChannelCount)%nat) chans →
  ∃ m',
    foldM (λ '(acc, mi) chan,
             '(chNeighbors, mi') ← channelNeigborsFromOtherHPDs mi chan;
             mret (foldl (λ (s : gset nat) n, {[n]} ∪ s) acc chNeighbors, mi'))
          (acc, mi) chans
    = inr (list_to_set (chans ≫= neighbors_of) ∪ acc, m')
    ∧ map_ok m' ∧ (m' = m ∨ m' = warm_channels m).
Proof.
  induction chans as [|c chans IH]; intros acc mi Hmi Hor Hall.
  - exists mi. simpl. split_and!; try done. by rewrite union_empty_l_L.
  - apply Forall_cons in Hall as [Hc Hall].
    destruct (IH (list_to_set (neighbors_of c) ∪ acc) (warm_channels mi))
      as (m' & Heq & Hok & Hor'); [by apply warm_channels_ok| |done|].
    { right. destruct Hor as [->| ->]; [done|apply warm_channels_idem]. }
    exists m'. split_and!; [|done..].
    cbn [foldM]. cbn beta iota. rewrite channelNeigbors_spec, bind_inr by done.
    rewrite bind_mret, foldl_set_insert, Heq. do 2 f_equal.
    by rewrite bind_cons, list_to_set_app_L, (assoc_L (∪)), (comm_L (∪) (list_to_set (chans ≫= _))).
Qed.

Lemma calculateHPDNeighbors_spec m h :
  map_ok m → (h < Z.to_nat NUM_HPDS)%nat →
  ∃ m', calculateHPDNeighbors m h = inr (hpd_neighbors_of h, m')
        ∧ map_ok m' ∧ (m' = m ∨ m' = warm_channels m).
Proof.
  intros Hm Hh. unfold calculateHPDNeighbors.
  pose proof Hm as [(_ & _ & _ & _ & Hchan & _) _].
  rewrite (list_lookup_total_correct _ _ _ (Hchan _ Hh)).
  destruct (calculateHPDNeighbors_loop m (hpd_channels h) ∅ m)
    as (m' & Heq & Hok & Hor); [done|by left| |].
  { apply Forall_forall. intros c Hc. by apply elem_of_hpd_channels in Hc as [? _]. }
  exists m'. split_and!; [|done..].
  rewrite Heq, bind_inr. cbn [mret result_ret]. do 2 f_equal.
  unfold hpd_neighbors_of, hpd_neighbor_set. by rewrite union_empty_r_L.
Qed.

Lemma elem_of_hpd_neighbors_of h j :
  j ∈ hpd_neighbors_of h ↔
  ∃ c, (c < ChannelCount)%nat ∧ hpd_of c = h ∧ j ∈ neighbors_of c.
Proof.
  unfold hpd_neighbors_of, set_iteration, hpd_neighbor_set.
  rewrite !merge_sort_Permutation, elem_of_elements, elem_of_list_to_set,
    list_elem_of_bind.
  setoid_rewrite elem_of_hpd_channels. naive_solver.
Qed.

Lemma hpd_neighbors_of_sorted h : StronglySorted (<)%nat (hpd_neighbors_of h).
Proof.
  unfold hpd_neighbors_of, set_iteration. apply Sorted_le_NoDup_lt.
  - apply (Sorted_merge_sort _).
  - rewrite !merge_sort_Permutation. apply NoDup_elements.
Qed.

Lemma geom_ok_set_hpd_neighbors f m : geom_ok m → geom_ok (set_hpd_neighbors f m).
Proof. done. Qed.

Lemma fill_hpd_loop m k :
  map_ok m → hpdNeighborsFilled_ m = false → (k ≤ Z.to_nat NUM_HPDS)%nat →
  ∃ mk,
    foldM (λ mi i, '(vec, mi') ← calculateHPDNeighbors mi i;
                   mret (set_hpd_neighbors (λ t, <[i := vec]> t) mi'))
          m (seq 0 k) = inr mk
    ∧ map_ok mk ∧ hpdNeighborsFilled_ mk = false
    ∧ (neighborInfoFilled_ m = true → neighborInfoFilled_ mk = true)
    ∧ ∀ h, (h < k)%nat → hpd_neighbors_ mk !! h = Some (hpd_neighbors_of h).
Proof.
  intros Hm Hf. induction k as [|k IH]; intros Hk.
  - exists m. split_and!; try done. intros; lia.
  - destruct IH as (mk & Heq & Hok & Hfk & Hnk & Hent); [lia|].
    rewrite seq_S, Nat.add_0_l, foldM_app, Heq, bind_inr. cbn [foldM].
    destruct (calculateHPDNeighbors_spec mk k Hok) as (m' & Hcalc & Hok' & Hor); [lia|].
    rewrite Hcalc, bind_inr. cbn beta iota. rewrite bind_mret.
    eexists. split; [reflexivity|].
    assert (hpd_neighbors_ m' = hpd_neighbors_ mk ∧
            hpdNeighborsFilled_ m' = hpdNeighborsFilled_ mk) as [Hsame1 Hsame2].
    { destruct Hor as [->| ->]; [done|apply warm_channels_hpd_cache]. }
    destruct Hok' as [Hg' (Hl1 & Hc1 & Hl2 & Hc2)].
    split_and!.
    + split; [by apply geom_ok_set_hpd_neighbors|].
      unfold cache_ok. cbn [set_hpd_neighbors channel_neighbors_
        neighborInfoFilled_ hpd_neighbors_ hpdNeighborsFilled_].
      rewrite length_insert, Hsame2, Hfk. by split_and!.
    + cbn [set_hpd_neighbors hpdNeighborsFilled_]. by rewrite Hsame2.
    + intros Hn. cbn [set_hpd_neighbors neighborInfoFilled_].
      destruct Hor as [->| ->]; [by apply Hnk|apply warm_channels_filled].
    + intros h Hh. cbn [set_hpd_neighbors hpd_neighbors_].
      destruct (decide (h = k)) as [->|Hne].
      * by rewrite list_lookup_insert_eq by lia.
      * rewrite list_lookup_insert_ne by done. rewrite Hsame1. apply Hent. lia.
Qed.

Lemma getHPDNeigbors_spec m h :
  map_ok m → (h < Z.to_nat NUM_HPDS)%nat →
  ∃ m', getHPDNeigbors m h = inr (hpd_neighbors_of h, m')
        ∧ map_ok m' ∧ hpdNeighborsFilled_ m' = true
        ∧ (hpdNeighborsFilled_ m = true → m' = m).
Proof.
  intros Hm Hh. unfold getHPDNeigbors. rewrite bool_decide_false by lia.
  destruct (hpdNeighborsFilled_ m) eqn:Hf.
  - exists m. rewrite bind_mret. split_and!; try done.
    destruct Hm as [_ (_ & _ & _ & Hc)].
    by rewrite (list_lookup_total_correct _ _ _ (Hc Hf _ Hh)).
  - unfold fill_hpd_neighbors.
    destruct (fill_hpd_loop m (Z.to_nat NUM_HPDS) Hm Hf)
      as (mk & Heq & [Hg (Hl1 & Hc1 & Hl2 & Hc2)] & Hfk & _ & Hent); [lia|].
    rewrite Heq, bind_inr, bind_mret.
    cbn [set_hpdNeighborsFilled hpd_neighbors_].
    rewrite (list_lookup_total_correct _ _ _ (Hent _ Hh)).
    eexists. split_and!; [reflexivity| |reflexivity|done].
    split; [done|]. unfold cache_ok.
    cbn [set_hpdNeighborsFilled channel_neighbors_ neighborInfoFilled_
           hpd_neighbors_ hpdNeighborsFilled_].
    by split_and!.
Qed.

Lemma getHPDNeigbors_out_of_range m h :
  (Z.to_nat NUM_HPDS ≤ h)%nat → getHPDNeigbors m h = inl out_of_range.
Proof. intros Hh. unfold getHPDNeigbors. by rewrite bool_decide_true. Qed.

(** ** Every object met during a run is well formed *)

Lemma reachable_map_ok m : reachable m → map_ok m.
Proof.
  induction 1 as [m Hnew|m index l m' _ IH Hcall|m hpd l m' _ IH Hcall].
  - by apply ctor_state_map_ok, new_ctor_state.
  - destruct (decide (index < ChannelCount)%nat) as [Hi|Hi].
    + rewrite channelNeigbors_spec in Hcall by done.
      injection Hcall as _ <-. by apply warm_channels_ok.
    + by rewrite channelNeigbors_out_of_range in Hcall by lia.
  - destruct (decide (hpd < Z.to_nat NUM_HPDS)%nat) as [Hh|Hh].
    + destruct (getHPDNeigbors_spec m hpd IH Hh) as (m'' & Heq & Hok & _).
      rewrite Heq in Hcall. by injection Hcall as _ <-.
    + by rewrite getHPDNeigbors_out_of_range in Hcall by lia.
Qed.

(** ** The statements about the channel map *)

Lemma reachable_lookup m : reachable m → lookup_ m = channel_ids.
Proof. intros Hr. by destruct (reachable_map_ok m Hr) as [(? & _) _]. Qed.

Lemma linearIndex_spec m d e p :
  reachable m → linearIndex m d e p
  = match index_of (mkId d e p) with Some i => inr i | None => inl invalid_argument end.
Proof.
  intros Hr. destruct (reachable_map_ok m Hr) as [(_ & Hinv & _) _].
  unfold linearIndex. by rewrite Hinv.
Qed.

Lemma getChannelTriple_spec m i :
  reachable m → getChannelTriple m i
  = if bool_decide (ChannelCount ≤ i)%nat then inl out_of_range
    else inr (channel_ids !!! i).
Proof. intros Hr. unfold getChannelTriple. by rewrite (reachable_lookup m Hr). Qed.

Lemma getChannelTriple_inr m i c :
  reachable m → getChannelTriple m i = inr c ↔
  (i < ChannelCount)%nat ∧ channel_ids !! i = Some c.
Proof.
  intros Hr. rewrite (getChannelTriple_spec m i Hr). case_bool_decide as Hi.
  - split; [done|]. intros [? _]. lia.
  - destruct (channel_ids_lookup_lt i) as (c' & Hc' & ->); [lia|].
    split.
    + intros [= <-]. split; [lia|done].
    + intros [_ Hc]. congruence.
Qed.

Lemma getHPD_inr m i h :
  reachable m → getHPD m i = inr h ↔ (i < ChannelCount)%nat ∧ hpd_of i = h.
Proof.
  intros Hr. destruct (reachable_map_ok m Hr) as [Hg _].
  destruct (decide (i < ChannelCount)%nat) as [Hi|Hi].
  - rewrite getHPD_spec by done. split; [by intros [= <-]|by intros [_ <-]].
  - unfold getHPD. rewrite bool_decide_true by lia. split; [done|]. intros [? _]; lia.
Qed.

(** C1: for every triple of the enumerated channel set, [linearIndex]
    returns an index, and [getChannelTriple] at that index gives the triple
    back. *)
Theorem linearIndex_roundtrip m c :
  reachable m → c ∈ lookup_ m →
  ∃ i, linearIndex m (depth c) (ieta c) (iphi c) = inr i
       ∧ getChannelTriple m i = inr c.
Proof.
  intros Hr Hc. rewrite (reachable_lookup m Hr) in Hc.
  apply list_elem_of_lookup in Hc as [i Hi].
  exists i. rewrite linearIndex_spec by done.
  replace (mkId (depth c) (ieta c) (iphi c)) with c by (by destruct c).
  rewrite (proj2 (index_of_Some c i) Hi). split; [done|].
  apply getChannelTriple_inr; [done|]. split; [|done].
  apply lookup_lt_Some in Hi. by rewrite channel_ids_length in Hi.
Qed.

(** C6: [linearIndex] throws [std::invalid_argument] for a triple
    outside the enumeration and returns its position for a triple inside;
    [getChannelTriple] throws [std::out_of_range] for an index at or above
    the channel count and returns the triple at that position otherwise. *)
Theorem lookup_failures m :
  reachable m →
  (∀ d e p, mkId d e p ∉ lookup_ m → linearIndex m d e p = inl invalid_argument) ∧
  (∀ d e p, mkId d e p ∈ lookup_ m →
     ∃ i, linearIndex m d e p = inr i ∧ lookup_ m !! i = Some (mkId d e p)) ∧
  (∀ i, (ChannelCount ≤ i)%nat → getChannelTriple m i = inl out_of_range) ∧
  (∀ i, (i < ChannelCount)%nat →
     ∃ c, getChannelTriple m i = inr c ∧ lookup_ m !! i = Some c).
Proof.
  intros Hr. rewrite (reachable_lookup m Hr). split_and!.
  - intros d e p Hn. rewrite linearIndex_spec by done.
    by rewrite (proj2 (index_of_None _) Hn).
  - intros d e p Hin. apply list_elem_of_lookup in Hin as [i Hi].
    exists i. rewrite linearIndex_spec by done.
    by rewrite (proj2 (index_of_Some _ i) Hi).
  - intros i Hi. rewrite getChannelTriple_spec by done.
    by rewrite bool_decide_true.
  - intros i Hi. destruct (channel_ids_lookup_lt i Hi) as (c & Hc & _).
    exists c. split; [|done]. by apply getChannelTriple_inr.
Qed.

(** C10: the list of neighbours from other HPDs of a valid channel has at
    most 8 entries, is strictly increasing, and holds only valid channel
    numbers, never the channel itself and never a channel of its own HPD. *)
Theorem channel_neighbors_invariants m index :
  reachable m → (index < ChannelCount)%nat →
  ∃ l m', channelNeigborsFromOtherHPDs m index = inr (l, m')
    ∧ (length l ≤ 8)%nat
    ∧ StronglySorted (<)%nat l
    ∧ ∀ j, j ∈ l →
        (j < ChannelCount)%nat ∧ j ≠ index ∧ getHPD m j ≠ getHPD m index.
Proof.
  intros Hr Hi. pose proof (reachable_map_ok m Hr) as Hm.
  exists (neighbors_of index), (warm_channels m).
  split_and!.
  - by apply channelNeigbors_spec.
  - apply neighbors_of_length.
  - by apply neighbors_of_sorted.
  - intros j Hj. pose proof (neighbors_of_lt _ _ Hj) as Hlt.
    apply elem_of_neighbors_of in Hj as [Hne _].
    destruct Hm as [Hg _]. rewrite !getHPD_spec by done.
    split_and!; [done|by intros ->|]. intros [=]. by apply Hne.
Qed.

Lemma adjacent_candidates ci cj :
  1 ≤ iphi ci ≤ 72 → adjacent_ids ci cj → cj = ci ∨ cj ∈ candidates ci.
Proof.
  intros Hp (Hd & (es & Hes & He) & (ps & Hps & Hph)).
  destruct (decide (es = 0 ∧ ps = 0)) as [[-> ->]|Hne].
  - left. destruct ci as [d0 e0 p0], cj as [d1 e1 p1]; simpl in *. f_equal; [done| |].
    + rewrite He. unfold shift_eta. destruct (Z.eqb_spec (e0 + 0) 0); lia.
    + rewrite Hph. unfold wrap_phi.
      destruct (Z.eqb_spec (p0 + 0) 0), (Z.eqb_spec (p0 + 0) 73); lia.
  - right. apply elem_of_candidates. exists es, ps.
    split_and!; [done|done|lia|]. destruct cj; simpl in *. by f_equal.
Qed.

Lemma candidates_adjacent ci cj : cj ∈ candidates ci → adjacent_ids ci cj.
Proof.
  rewrite elem_of_candidates. intros (es & ps & Hes & Hps & _ & ->).
  split_and!; [done|by exists es|by exists ps].
Qed.

(** On enumerated identifiers the adjacency searched by the loops is the
    stated one. *)
Lemma stated_adjacent_ids ci cj :
  id_ok ci → id_ok cj → stated_adjacent ci cj ↔ adjacent_ids ci cj.
Proof.
  intros (_ & Hei & _ & Hpi) (_ & Hej & _ & Hpj).
  unfold stated_adjacent, adjacent_ids. split.
  - intros (Hd & He & Hp). split_and!; [exact Hd| |].
    + destruct He as [He|[[He1 He2]|[He1 He2]]].
      * exists (ieta cj - ieta ci). split; [apply elem_of_shifts; lia|].
        unfold shift_eta.
        destruct (Z.eqb_spec (ieta ci + (ieta cj - ieta ci)) 0); lia.
      * exists 1. split; [apply elem_of_shifts; lia|].
        rewrite He1, He2. reflexivity.
      * exists (-1). split; [apply elem_of_shifts; lia|].
        rewrite He1, He2. reflexivity.
    + destruct Hp as [Hp|[[Hp1 Hp2]|[Hp1 Hp2]]].
      * exists (iphi cj - iphi ci). split; [apply elem_of_shifts; lia|].
        unfold wrap_phi.
        destruct (Z.eqb_spec (iphi ci + (iphi cj - iphi ci)) 0),
                 (Z.eqb_spec (iphi ci + (iphi cj - iphi ci)) 73); lia.
      * exists (-1). split; [apply elem_of_shifts; lia|].
        rewrite Hp1, Hp2. reflexivity.
      * exists 1. split; [apply elem_of_shifts; lia|].
        rewrite Hp1, Hp2. reflexivity.
  - intros (Hd & (es & Hes & He) & (ps & Hps & Hp)).
    apply elem_of_shifts in Hes, Hps.
    split_and!; [exact Hd| |].
    + rewrite He. unfold shift_eta.
      destruct (Z.eqb_spec (ieta ci + es) 0); lia.
    + rewrite Hp. unfold wrap_phi.
      destruct (Z.eqb_spec (iphi ci + ps) 0), (Z.eqb_spec (iphi ci + ps) 73); lia.
Qed.

(** C2: for a valid channel number the query returns, in strictly
    increasing order, exactly the channel numbers whose identifier has the
    depth of the source, lies in the same ring or in the next ring on
    either side (rings -1 and 1 being next to each other, as there is no
    ring 0) and in the same azimuth bin or in one of the two bins beside it
    (bins 72 and 1 being beside each other), and whose HPD differs from
    that of the source; in particular the channels at iphi 1 and iphi 72
    of one ring and depth are neighbours of each other when their HPDs
    differ. *)
Theorem channel_neighbors_characterized m index :
  reachable m → (index < ChannelCount)%nat →
  ∃ l m', channelNeigborsFromOtherHPDs m index = inr (l, m')
    ∧ StronglySorted (<)%nat l
    ∧ (∀ j, j ∈ l ↔
         ∃ ci cj hi hj,
           getChannelTriple m index = inr ci ∧ getChannelTriple m j = inr cj ∧
           getHPD m index = inr hi ∧ getHPD m j = inr hj ∧
           stated_adjacent ci cj ∧ hi ≠ hj)
    ∧ (∀ d e i1 i72 h1 h72,
         linearIndex m d e 1 = inr i1 → linearIndex m d e 72 = inr i72 →
         getHPD m i1 = inr h1 → getHPD m i72 = inr h72 → h1 ≠ h72 →
         (index = i1 → i72 ∈ l) ∧ (index = i72 → i1 ∈ l)).
Proof.
  intros Hr Hi. pose proof (reachable_map_ok m Hr) as Hm.
  destruct (channel_ids_lookup_lt index Hi) as (ci & Hci & Hcit).
  pose proof (channel_ids_lookup_ok _ _ Hci) as Hoki.
  pose proof Hoki as (_ & _ & _ & Hp).
  assert (∀ j, j ∈ neighbors_of index ↔
            ∃ ci cj hi hj,
              getChannelTriple m index = inr ci ∧ getChannelTriple m j = inr cj ∧
              getHPD m index = inr hi ∧ getHPD m j = inr hj ∧
              stated_adjacent ci cj ∧ hi ≠ hj) as Hchar.
  { intros j. rewrite elem_of_neighbors_of, Hcit. split.
    - intros (Hne & cj & Hcand & Hcj).
      assert (j < ChannelCount)%nat as Hj.
      { apply lookup_lt_Some in Hcj. by rewrite channel_ids_length in Hcj. }
      exists ci, cj, (hpd_of index), (hpd_of j).
      split_and!; try done.
      + by apply getChannelTriple_inr.
      + by apply getChannelTriple_inr.
      + by apply getHPD_inr.
      + by apply getHPD_inr.
      + apply stated_adjacent_ids;
          [exact Hoki|exact (channel_ids_lookup_ok _ _ Hcj)|].
        by apply candidates_adjacent.
    - intros (ci' & cj & hi & hj & Hti & Htj & Hhi & Hhj & Hadj & Hne).
      apply getChannelTriple_inr in Hti as [_ Hti]; [|done].
      apply getChannelTriple_inr in Htj as [Hj Htj]; [|done].
      apply getHPD_inr in Hhi as [_ <-]; [|done].
      apply getHPD_inr in Hhj as [_ <-]; [|done].
      assert (ci' = ci) as -> by congruence.
      split; [done|]. exists cj. split; [|done].
      apply stated_adjacent_ids in Hadj;
        [|exact Hoki|exact (channel_ids_lookup_ok _ _ Htj)].
      destruct (adjacent_candidates ci cj Hp Hadj) as [->|Hc]; [|done].
      exfalso. apply Hne. f_equal.
      eapply NoDup_lookup; eauto using channel_ids_NoDup. }
  exists (neighbors_of index), (warm_channels m).
  split_and!; [by apply channelNeigbors_spec|by apply neighbors_of_sorted|done|].
  intros d e i1 i72 h1 h72 H1 H72 Hh1 Hh72 Hne.
  rewrite linearIndex_spec in H1, H72 by done.
  destruct (index_of (mkId d e 1)) as [k1|] eqn:Hk1; [|done].
  destruct (index_of (mkId d e 72)) as [k72|] eqn:Hk72; [|done].
  injection H1 as ->. injection H72 as ->.
  apply index_of_Some in Hk1, Hk72.
  pose proof (lookup_lt_Some _ _ _ Hk1) as Hl1.
  pose proof (lookup_lt_Some _ _ _ Hk72) as Hl72.
  rewrite channel_ids_length in Hl1, Hl72.
  split; intros ->; apply Hchar.
  - exists (mkId d e 1), (mkId d e 72), h1, h72.
    split_and!; try done; try (by apply getChannelTriple_inr).
    unfold stated_adjacent. cbn [depth ieta iphi].
    split_and!; [reflexivity|left; lia|right; left; done].
  - exists (mkId d e 72), (mkId d e 1), h72, h1.
    split_and!; try done; try (by apply getChannelTriple_inr).
    unfold stated_adjacent. cbn [depth ieta iphi].
    split_and!; [reflexivity|left; lia|right; right; done].
Qed.

(** C3 (as amended): for every HPD the query returns, in strictly
    increasing order and without duplicates, the channel numbers (not the
    HPD numbers) found by the channel-level query for the channels of that
    HPD; the first access fills the table for all HPDs, and later accesses
    return the stored lists and leave the object as it is. *)
Theorem hpd_neighbors_characterized m hpd :
  reachable m → (hpd < Z.to_nat NUM_HPDS)%nat →
  ∃ l m', getHPDNeigbors m hpd = inr (l, m')
    ∧ StronglySorted (<)%nat l
    ∧ (∀ j, j ∈ l ↔
         ∃ c lc mc, getHPD m c = inr hpd ∧
                    channelNeigborsFromOtherHPDs m c = inr (lc, mc) ∧ j ∈ lc)
    ∧ hpdNeighborsFilled_ m' = true
    ∧ (∀ h, (h < Z.to_nat NUM_HPDS)%nat →
         ∃ lh, hpd_neighbors_ m' !! h = Some lh ∧ getHPDNeigbors m' h = inr (lh, m')).
Proof.
  intros Hr Hh. pose proof (reachable_map_ok m Hr) as Hm.
  destruct (getHPDNeigbors_spec m hpd Hm Hh) as (m' & Heq & Hok & Hf & _).
  exists (hpd_neighbors_of hpd), m'.
  split_and!; [done|apply hpd_neighbors_of_sorted| |done|].
  - intros j. rewrite elem_of_hpd_neighbors_of. split.
    + intros (c & Hc & Hhc & Hj).
      exists c, (neighbors_of c), (warm_channels m).
      split_and!; [by apply getHPD_inr|by apply channelNeigbors_spec|done].
    + intros (c & lc & mc & Hhc & Hcall & Hj).
      apply getHPD_inr in Hhc as [Hc Hhc]; [|done].
      rewrite channelNeigbors_spec in Hcall by done.
      injection Hcall as <- _. by exists c.
  - intros h Hh'. exists (hpd_neighbors_of h).
    destruct (getHPDNeigbors_spec m' h Hok Hh') as (m'' & Heq' & _ & _ & Hsame).
    rewrite (Hsame Hf) in Heq'. split; [|done].
    destruct Hok as [_ (_ & _ & _ & Hc)]. by apply Hc.
Qed.

End ChannelMapFacts.

(** C5: the enumeration a constructed object holds does not depend on
    anything outside the constructor.  Whatever the hardware mapping, and
    whatever the slots held before, a construction that succeeds leaves in
    [lookup_] one and the same sequence: 5184 = ChannelCount identifiers,
    all different, in increasing order of (depth, ieta, iphi), from
    (1, -29, 1) in slot 0 to (3, 28, 71) in the last slot; so two
    constructions give the same ordering, slot by slot.  The write
    position reaches ChannelCount, so the count assertion of the
    constructor holds for every mapping and only the second loop decides
    whether the construction succeeds. *)
Theorem enumeration_fixed (hw1 hw2 : HcalHPDRBXMap) m1 m2 :
  @HBHEChannelMap_new hw1 = inr m1 → @HBHEChannelMap_new hw2 = inr m2 →
  lookup_ m1 = channel_ids ∧ lookup_ m2 = lookup_ m1 ∧
  (∀ i, getChannelTriple m1 i = getChannelTriple m2 i) ∧
  length (lookup_ m1) = 5184%nat ∧ ChannelCount = 5184%nat ∧
  NoDup (lookup_ m1) ∧ Sorted Z.lt (id_key <$> lookup_ m1) ∧
  lookup_ m1 !! 0%nat = Some (mkId 1 (-29) 1) ∧
  lookup_ m1 !! 5183%nat = Some (mkId 3 28 71) ∧
  (∀ a, length a = ChannelCount →
        fill_lookup (a, 0%nat) = (channel_ids, ChannelCount)) ∧
  (∀ hw : HcalHPDRBXMap,
     @HBHEChannelMap_new hw
     = foldM (@register_channel hw) (@initial_map hw channel_ids)
             (seq 0 ChannelCount)).
Proof.
  intros H1 H2.
  apply (@new_ctor_state hw1) in H1 as (Hl1 & _).
  apply (@new_ctor_state hw2) in H2 as (Hl2 & _).
  unfold getChannelTriple. rewrite Hl2, Hl1.
  split_and!.
  - reflexivity.
  - reflexivity.
  - reflexivity.
  - apply channel_ids_length.
  - reflexivity.
  - apply channel_ids_NoDup.
  - apply channel_ids_keys_sorted.
  - vm_compute. reflexivity.
  - vm_compute. reflexivity.
  - apply fill_lookup_any.
  - intros hw. apply (@HBHEChannelMap_new_unfold hw).
Qed.

(** ** The sample hardware mapping *)

Lemma sample_hw_ok : @hw_ok sample_hw.
Proof.
  unfold hw_ok. eapply Forall_impl; [apply channel_ids_ok|].
  intros c (_ & _ & _ & Hp). unfold hw_ok_at, rbx_index, hpd_index. cbn.
  destruct (subdetector_of c), (0 <? ieta c); split; try lia;
    (split; [apply Z.div_pos; lia|apply Z.div_lt_upper_bound; lia]).
Qed.

Lemma sample_new : @HBHEChannelMap_new sample_hw = inr sample_map.
Proof.
  destruct (@new_total sample_hw sample_hw_ok) as [m Hm].
  unfold sample_map. rewrite Hm. reflexivity.
Qed.

Lemma sample_reachable : @reachable sample_hw sample_map.
Proof. apply reach_new, sample_new. Qed.

Lemma sample_lookup : lookup_ sample_map = channel_ids.
Proof. apply (@reachable_lookup sample_hw), sample_reachable. Qed.

Lemma sample_hpd_of_lt j : (j < ChannelCount)%nat → (@hpd_of sample_hw j < 288)%nat.
Proof.
  intros Hj. destruct (channel_ids_lookup_lt j Hj) as (c & Hc & Hct).
  pose proof sample_hw_ok as Hok. unfold hw_ok in Hok. rewrite Forall_forall in Hok.
  destruct (Hok c) as [Hh _]; [by eapply list_elem_of_lookup_2|].
  unfold hpd_of. rewrite Hct.
  change (@NUM_HPDS sample_hw) with 288 in Hh. lia.
Qed.

Lemma linearIndex_roundtrip_witness :
  @reachable sample_hw sample_map ∧ mkId 1 (-29) 1 ∈ lookup_ sample_map ∧
  ∃ i, linearIndex sample_map 1 (-29) 1 = inr i
       ∧ getChannelTriple sample_map i = inr (mkId 1 (-29) 1).
Proof.
  assert (mkId 1 (-29) 1 ∈ lookup_ sample_map) as Hin.
  { rewrite sample_lookup. apply list_elem_of_lookup. exists 0%nat.
    vm_compute. reflexivity. }
  split_and!; [apply sample_reachable|exact Hin|].
  exact (@linearIndex_roundtrip sample_hw sample_map (mkId 1 (-29) 1)
           sample_reachable Hin).
Defined.

Lemma lookup_failures_witness :
  @reachable sample_hw sample_map ∧
  linearIndex sample_map 1 0 1 = inl invalid_argument ∧
  getChannelTriple sample_map 5184 = inl out_of_range.
Proof.
  destruct (@lookup_failures sample_hw sample_map sample_reachable)
    as (Hbad & _ & Hrange & _).
  split_and!; [apply sample_reachable| |].
  - apply Hbad. rewrite sample_lookup.
    apply (bool_decide_unpack _). vm_compute. reflexivity.
  - apply Hrange. unfold ChannelCount. lia.
Defined.

Lemma channel_neighbors_invariants_witness :
  @reachable sample_hw sample_map ∧ (612 < ChannelCount)%nat ∧
  ∃ l m', channelNeigborsFromOtherHPDs sample_map 612 = inr (l, m')
    ∧ (length l ≤ 8)%nat
    ∧ StronglySorted (<)%nat l
    ∧ ∀ j, j ∈ l →
        (j < ChannelCount)%nat ∧ j ≠ 612%nat
        ∧ getHPD sample_map j ≠ getHPD sample_map 612.
Proof.
  assert (612 < ChannelCount)%nat as Hlt
    by (apply (bool_decide_unpack _); vm_compute; reflexivity).
  split_and!; [apply sample_reachable|exact Hlt|].
  exact (@channel_neighbors_invariants sample_hw sample_map 612
           sample_reachable Hlt).
Defined.

Lemma lt_1692_ChannelCount : (1692 < ChannelCount)%nat.
Proof. apply (bool_decide_unpack _). vm_compute. reflexivity. Qed.

(** Channel 1692 is (depth 1, ieta -1, iphi 1).  With the sample mapping
    its neighbours are the channels (1,-2,2), (1,-2,72), (1,-1,2),
    (1,-1,72) and, across the missing ring 0, (1,1,1), (1,1,2), (1,1,72);
    (1,-2,1) is in the HPD of the channel itself. *)
Lemma sample_neighbors_across_ring_zero :
  getChannelTriple sample_map 1692 = inr (mkId 1 (-1) 1) ∧
  (∃ m', channelNeigborsFromOtherHPDs sample_map 1692
         = inr ([1621; 1691; 1693; 1763; 1764; 1765; 1835]%nat, m')) ∧
  getChannelTriple sample_map 1764 = inr (mkId 1 1 1) ∧
  getChannelTriple sample_map 1763 = inr (mkId 1 (-1) 72).
Proof.
  pose proof lt_1692_ChannelCount as Hlt.
  pose proof (@reachable_map_ok sample_hw _ sample_reachable) as Hok.
  assert (∀ i c, channel_ids !! i = Some c →
                 getChannelTriple sample_map i = inr c) as Ht.
  { intros i c Hc.
    assert (i < ChannelCount)%nat as Hi.
    { apply lookup_lt_Some in Hc. by rewrite channel_ids_length in Hc. }
    apply (@getChannelTriple_inr sample_hw); [exact sample_reachable|].
    split; [exact Hi|exact Hc]. }
  split_and!.
  - apply Ht. vm_compute. reflexivity.
  - exists (@warm_channels sample_hw sample_map).
    rewrite (@channelNeigbors_spec sample_hw sample_map 1692 Hok Hlt).
    assert (@neighbors_of sample_hw 1692
            = [1621; 1691; 1693; 1763; 1764; 1765; 1835]%nat) as ->
      by (vm_compute; reflexivity).
    reflexivity.
  - apply Ht. vm_compute. reflexivity.
  - apply Ht. vm_compute. reflexivity.
Qed.

Lemma channel_neighbors_characterized_witness :
  @reachable sample_hw sample_map ∧ (1692 < ChannelCount)%nat ∧
  ∃ l m', channelNeigborsFromOtherHPDs sample_map 1692 = inr (l, m')
    ∧ StronglySorted (<)%nat l
    ∧ (∀ j, j ∈ l ↔
         ∃ ci cj hi hj,
           getChannelTriple sample_map 1692 = inr ci ∧
           getChannelTriple sample_map j = inr cj ∧
           getHPD sample_map 1692 = inr hi ∧ getHPD sample_map j = inr hj ∧
           stated_adjacent ci cj ∧ hi ≠ hj)
    ∧ (∀ d e i1 i72 h1 h72,
         linearIndex sample_map d e 1 = inr i1 →
         linearIndex sample_map d e 72 = inr i72 →
         getHPD sample_map i1 = inr h1 → getHPD sample_map i72 = inr h72 →
         h1 ≠ h72 →
         (1692%nat = i1 → i72 ∈ l) ∧ (1692%nat = i72 → i1 ∈ l)).
Proof.
  split_and!; [apply sample_reachable|exact lt_1692_ChannelCount|].
  exact (@channel_neighbors_characterized sample_hw sample_map 1692
           sample_reachable lt_1692_ChannelCount).
Defined.

Lemma hpd_neighbors_characterized_witness :
  @reachable sample_hw sample_map ∧ (0 < Z.to_nat (@NUM_HPDS sample_hw))%nat ∧
  ∃ l m', @getHPDNeigbors sample_hw sample_map 0 = inr (l, m')
    ∧ StronglySorted (<)%nat l
    ∧ (∀ j, j ∈ l ↔
         ∃ c lc mc, getHPD sample_map c = inr 0%nat ∧
                    channelNeigborsFromOtherHPDs sample_map c = inr (lc, mc) ∧ j ∈ lc)
    ∧ hpdNeighborsFilled_ m' = true
    ∧ (∀ h, (h < Z.to_nat (@NUM_HPDS sample_hw))%nat →
         ∃ lh, hpd_neighbors_ m' !! h = Some lh
               ∧ @getHPDNeigbors sample_hw m' h = inr (lh, m')).
Proof.
  assert (0 < Z.to_nat (@NUM_HPDS sample_hw))%nat as Hlt by (cbn; lia).
  split_and!; [apply sample_reachable|exact Hlt|].
  exact (@hpd_neighbors_characterized sample_hw sample_map 0
           sample_reachable Hlt).
Defined.

(** C3 (as stated) fails: for the sample mapping, channel 612 = (1, -16, 1)
    lies in HPD 0 and its neighbour 540 = (1, -17, 1) in HPD 144.  The list
    returned for HPD 0 holds the channel number 540, while the list of
    neighbouring HPDs holds only numbers below 288. *)
Lemma hpd_neighbors_are_channel_numbers :
  ∃ l m', @getHPDNeigbors sample_hw sample_map 0 = inr (l, m')
          ∧ 540%nat ∈ l
          ∧ ¬ (540%nat ∈ @module_neighbors_claimed sample_hw 0)
          ∧ l ≠ @module_neighbors_claimed sample_hw 0.
Proof.
  pose proof (@reachable_map_ok sample_hw sample_map sample_reachable) as Hm.
  destruct (@getHPDNeigbors_spec sample_hw sample_map 0 Hm) as (m' & Heq & _);
    [cbn; lia|].
  assert (540%nat ∈ @hpd_neighbors_of sample_hw 0) as Hin.
  { apply elem_of_hpd_neighbors_of. exists 612%nat.
    split_and!; [apply (bool_decide_unpack _); vm_compute; reflexivity
                |vm_compute; reflexivity|].
    apply elem_of_neighbors_of. split; [vm_compute; lia|].
    exists (mkId 1 (-17) 1). split; [|vm_compute; reflexivity].
    apply (bool_decide_unpack _). vm_compute. reflexivity. }
  assert (540%nat ∉ @module_neighbors_claimed sample_hw 0) as Hout.
  { unfold module_neighbors_claimed.
    rewrite merge_sort_Permutation, elem_of_elements, elem_of_list_to_set,
      list_elem_of_fmap.
    intros (j & Hj & Hjin). apply list_elem_of_bind in Hjin as (c & Hjc & _).
    apply neighbors_of_lt in Hjc. apply sample_hpd_of_lt in Hjc. lia. }
  exists (@hpd_neighbors_of sample_hw 0), m'.
  split_and!; [exact Heq|exact Hin|exact Hout|]. intros Heq'. apply Hout.
  by rewrite <- Heq'.
Qed.

Lemma single_hw_ok : @hw_ok single_hw.
Proof.
  unfold hw_ok. eapply Forall_impl; [apply channel_ids_ok|].
  intros c _. unfold hw_ok_at, rbx_index, hpd_index. cbn. lia.
Qed.

Lemma single_new : @HBHEChannelMap_new single_hw = inr single_map.
Proof.
  destruct (@new_total single_hw single_hw_ok) as [m Hm].
  unfold single_map. rewrite Hm. reflexivity.
Qed.

Lemma enumeration_fixed_witness :
  @HBHEChannelMap_new sample_hw = inr sample_map ∧
  @HBHEChannelMap_new single_hw = inr single_map ∧
  lookup_ sample_map = channel_ids ∧
  lookup_ single_map = lookup_ sample_map ∧
  length (lookup_ sample_map) = 5184%nat ∧
  lookup_ sample_map !! 0%nat = Some (mkId 1 (-29) 1) ∧
  getChannelTriple sample_map 5183 = getChannelTriple single_map 5183.
Proof.
  destruct (enumeration_fixed sample_hw single_hw sample_map single_map
              sample_new single_new)
    as (Heq & Hsame & Htriple & Hlen & _ & _ & _ & H0 & _).
  exact (conj sample_new (conj single_new (conj Heq (conj Hsame
           (conj Hlen (conj H0 (Htriple 5183%nat))))))).
Defined.

(** ** Subdetector classification *)

(** Arguments accepted by the assertions of [getSubdetector]. *)
Lemma getSubdetector_total d e :
  1 ≤ d ≤ 3 → Z.abs e ≤ 29 → (Z.abs e = 29 → d ≤ 2) →
  ∃ sub, getSubdetector d e = inr sub.
Proof.
  intros Hd He H29. rewrite getSubdetector_spec, bool_decide_true by done.
  by eexists.
Qed.

(** C4 (as stated) fails: depth 3 in ring 29 is rejected by the assertion
    [if (abseta == 29U) assert(depth <= 2U)] instead of being mapped to
    the endcap. *)
Lemma getSubdetector_rejects_depth3_ring29 :
  getSubdetector 3 29 = inl assertion_failed.
Proof. reflexivity. Qed.

(** C4 (as amended): for depth 1 to 3 and |ieta| up to 29, with depth at
    most 2 in ring 29, the classification gives the barrel for |ieta| up
    to 15, the barrel for |ieta| = 16 at depth 1 or 2 and the endcap at
    depth 3, and the endcap for |ieta| from 17 on; in particular
    (depth 2, ieta 16) is barrel and (depth 3, ieta 16) is endcap. *)
Theorem getSubdetector_rule d e :
  1 ≤ d ≤ 3 → Z.abs e ≤ 29 → (Z.abs e = 29 → d ≤ 2) →
  (Z.abs e ≤ 15 → getSubdetector d e = inr HcalBarrel) ∧
  (Z.abs e = 16 → d ≤ 2 → getSubdetector d e = inr HcalBarrel) ∧
  (Z.abs e = 16 → d = 3 → getSubdetector d e = inr HcalEndcap) ∧
  (17 ≤ Z.abs e → getSubdetector d e = inr HcalEndcap) ∧
  getSubdetector 2 16 = inr HcalBarrel ∧
  getSubdetector 3 16 = inr HcalEndcap.
Proof.
  intros Hd He H29. rewrite getSubdetector_spec, bool_decide_true by done.
  split_and!; try reflexivity; intros; repeat case_bool_decide; done || lia.
Qed.

Lemma getSubdetector_rule_witness :
  1 ≤ 1 ≤ 3 ∧ Z.abs (-17) ≤ 29 ∧ (Z.abs (-17) = 29 → 1 ≤ 2) ∧
  getSubdetector 1 (-17) = inr HcalEndcap.
Proof.
  assert (1 ≤ 1 ≤ 3) as Hd by lia.
  assert (Z.abs (-17) ≤ 29) as He by (simpl; lia).
  assert (Z.abs (-17) = 29 → 1 ≤ 2) as H29 by lia.
  refine (conj Hd (conj He (conj H29 _))).
  destruct (getSubdetector_rule 1 (-17) Hd He H29) as (_ & _ & _ & H17 & _).
  apply H17. simpl. lia.
Defined.

(** ** Energy of a pulse *)

Section EnergyFacts.
Context `{Arith}.

Lemma foldl_window_sum (term : nat → double) ws n :
  foldl (λ e i, d_add e (term i)) d_zero (seq ws n) = window_sum term ws n.
Proof.
  induction n as [|n IH]; [done|].
  rewrite seq_S, foldl_app, IH. done.
Qed.

Lemma setEMinMaxTS_spec tsMin tsMax h :
  setEMinMaxTS tsMin tsMax h =
    if bool_decide (tsMin < tsMax ∧ tsMax ≤ N_TIME_SLICES)%nat
    then inr (mkHelper (PulseCount h) (Charge h) (Pedestal h) (Gain h) tsMin tsMax)
    else inl assertion_failed.
Proof.
  unfold setEMinMaxTS, assert. repeat case_bool_decide; try done; lia.
Qed.

Lemma energy_spec h idx :
  0 ≤ PulseCount h < 2 ^ 32 → Z.of_nat idx < PulseCount h →
  energy h idx = inr (stated_energy h idx (eMinTS_ h) (eMaxTS_ h)).
Proof.
  intros Hp Hidx. unfold energy, assert, to_unsigned.
  rewrite Z.mod_small by done.
  destruct (Z.ltb_spec (Z.of_nat idx) (PulseCount h)); [|lia].
  rewrite bind_mret. unfold stated_energy, mret, result_ret. f_equal.
  by rewrite (foldl_window_sum
    (λ t, d_mul (d_sub ((Charge h !!! idx) !!! t) ((Pedestal h !!! idx) !!! t))
                ((Gain h !!! idx) !!! t))).
Qed.

(** C8: once a window with [window_start < window_end ≤ N_TIME_SLICES]
    is configured, the energy of every pulse of the event is the sum of
    [(charge[t] - pedestal[t]) * gain[t]] over the window, accumulated from
    the first slice on; configuring any other window fails (by assertion). *)
Theorem energy_window h window_start window_end :
  0 ≤ PulseCount h < 2 ^ 32 →
  ((window_start < window_end ∧ window_end ≤ N_TIME_SLICES)%nat →
   ∃ h', setEMinMaxTS window_start window_end h = inr h' ∧
         PulseCount h' = PulseCount h ∧
         ∀ idx, Z.of_nat idx < PulseCount h →
                energy h' idx = inr (stated_energy h idx window_start window_end)) ∧
  (¬ (window_start < window_end ∧ window_end ≤ N_TIME_SLICES)%nat →
   setEMinMaxTS window_start window_end h = inl assertion_failed).
Proof.
  intros Hp. rewrite setEMinMaxTS_spec. split; intros Hw.
  - rewrite bool_decide_true by done. eexists. split_and!; [reflexivity..|].
    intros idx Hidx. by rewrite energy_spec.
  - by rewrite bool_decide_false.
Qed.

End EnergyFacts.

Lemma energy_window_witness :
  0 ≤ PulseCount sample_helper < 2 ^ 32 ∧
  (2 < 5 ∧ 5 ≤ N_TIME_SLICES)%nat ∧
  ¬ (5 < 11 ∧ 11 ≤ N_TIME_SLICES)%nat ∧
  ∃ h', @setEMinMaxTS Z_arith 2 5 sample_helper = inr h' ∧
        @energy Z_arith h' 0 = inr ((9 - 5) * 2 + (11 - 5) * 2 + (13 - 5) * 2) ∧
        @setEMinMaxTS Z_arith 5 11 sample_helper = inl assertion_failed.
Proof.
  assert (0 ≤ PulseCount sample_helper < 2 ^ 32) as Hp by (simpl; lia).
  assert (2 < 5 ∧ 5 ≤ N_TIME_SLICES)%nat as Hw by (unfold N_TIME_SLICES; lia).
  assert (¬ (5 < 11 ∧ 11 ≤ N_TIME_SLICES)%nat) as Hn by (unfold N_TIME_SLICES; lia).
  destruct (@energy_window Z_arith sample_helper 2 5 Hp) as [Hgood _].
  destruct (@energy_window Z_arith sample_helper 5 11 Hp) as [_ Hbad].
  destruct (Hgood Hw) as (h' & Hset & _ & Hen).
  refine (conj Hp (conj Hw (conj Hn _))).
  exists h'. split_and!; [exact Hset| |exact (Hbad Hn)].
  rewrite (Hen 0%nat) by (simpl; lia). reflexivity.
Defined.

(** ** Channel geometry *)

Section GeometryFacts.
Context {hw : HcalHPDRBXMap} `{V : Vector3}.

Lemma load_row_spec m directions t :
  reachable m → length directions = ChannelCount →
  load_row m directions t =
    match row_index t with
    | Some idx => inr (<[idx := row_vector t]> directions)
    | None => inl invalid_argument
    end.
Proof.
  intros Hr Hlen. unfold load_row, row_index.
  rewrite linearIndex_spec by done.
  destruct (index_of _) as [idx|] eqn:Hidx; [|done].
  rewrite bind_inr, bool_decide_true; [done|].
  rewrite Hlen. by eapply index_of_lt.
Qed.

Lemma load_rows_length directions nt :
  length (load_rows directions nt) = length directions.
Proof.
  revert directions. induction nt as [|t nt IH]; intros d; [done|].
  unfold load_rows in *. simpl. rewrite IH.
  destruct (row_index t); [apply length_insert|done].
Qed.

Lemma load_rows_snoc directions nt t :
  load_rows directions (nt ++ [t])
  = match row_index t with
    | Some idx => <[idx := row_vector t]> (load_rows directions nt)
    | None => load_rows directions nt
    end.
Proof. unfold load_rows. by rewrite foldl_app. Qed.

Lemma load_rows_app directions nt1 nt2 :
  load_rows directions (nt1 ++ nt2) = load_rows (load_rows directions nt1) nt2.
Proof. unfold load_rows. by rewrite foldl_app. Qed.

(** A slot no row refers to keeps its content. *)
Lemma load_rows_untouched directions nt i :
  (∀ t, t ∈ nt → row_index t ≠ Some i) →
  load_rows directions nt !! i = directions !! i.
Proof.
  induction nt as [|t nt IH] using rev_ind; intros Hno; [done|].
  rewrite load_rows_snoc.
  assert (load_rows directions nt !! i = directions !! i) as Hrec.
  { apply IH. intros t' Ht'. apply Hno. apply elem_of_app. by left. }
  destruct (row_index t) as [idx|] eqn:Hidx; [|done].
  rewrite list_lookup_insert_ne; [done|].
  intros ->. eapply Hno; [|done]. apply elem_of_app. right. by left.
Qed.

(** A slot some row refers to holds the vector of one of its rows. *)
Lemma load_rows_touched directions nt i :
  (i < length directions)%nat →
  (∃ t, t ∈ nt ∧ row_index t = Some i) →
  ∃ t, t ∈ nt ∧ row_index t = Some i
       ∧ load_rows directions nt !! i = Some (row_vector t).
Proof.
  intros Hi. induction nt as [|t nt IH] using rev_ind.
  - intros (t & Ht & _). by apply elem_of_nil in Ht.
  - intros (t' & Ht' & Hidx'). rewrite load_rows_snoc.
    destruct (decide (row_index t = Some i)) as [Heq|Hne].
    + exists t. rewrite Heq. split_and!; [apply elem_of_app; right; by left|done|].
      apply list_lookup_insert_eq. by rewrite load_rows_length.
    + apply elem_of_app in Ht' as [Ht'|Ht'].
      * destruct IH as (t0 & Ht0 & Hidx0 & Hl0); [by exists t'|].
        exists t0. split_and!; [apply elem_of_app; by left|done|].
        destruct (row_index t) as [idx|]; [|done].
        rewrite list_lookup_insert_ne; [done|]. intros ->. by apply Hne.
      * apply list_elem_of_singleton in Ht' as ->. done.
Qed.

Lemma foldM_load_rows m nt : ∀ directions,
  reachable m → length directions = ChannelCount →
  foldM (load_row m) directions nt =
    if bool_decide (Forall (λ t, is_Some (row_index t)) nt)
    then inr (load_rows directions nt)
    else inl invalid_argument.
Proof.
  induction nt as [|t nt IH]; intros d Hr Hlen; [done|].
  cbn [foldM]. rewrite load_row_spec by done.
  destruct (row_index t) as [idx|] eqn:Hidx.
  - rewrite bind_inr, IH; [|exact Hr|by rewrite length_insert].
    unfold load_rows at 2. cbn [foldl]. rewrite Hidx.
    case_bool_decide as Hall; case_bool_decide as Hall'; try done.
    + exfalso. apply Hall'. constructor; [by rewrite Hidx|done].
    + exfalso. apply Hall. by apply Forall_cons in Hall' as [_ ?].
  - rewrite bind_inl, bool_decide_false; [done|].
    intros Hall. apply Forall_cons in Hall as [Hs _].
    rewrite Hidx in Hs. by destruct Hs.
Qed.

Lemma check_direction_spec m d i :
  reachable m → (i < ChannelCount)%nat →
  check_direction m d tt i
  = if vector_eqb (d !!! i) zero_vector then inl runtime_error else inr tt.
Proof.
  intros Hr Hi. unfold check_direction.
  destruct (vector_eqb (d !!! i) zero_vector); [|done].
  by rewrite getChannelTriple_spec, bool_decide_false by (done || lia).
Qed.

Lemma foldM_check m d l :
  reachable m → Forall (λ i, (i < ChannelCount)%nat) l →
  foldM (check_direction m d) tt l =
    if bool_decide (Forall (λ i, vector_eqb (d !!! i) zero_vector = false) l)
    then inr tt else inl runtime_error.
Proof.
  intros Hr. induction l as [|i l IH]; intros Hl; [done|].
  apply Forall_cons in Hl as [Hi Hl]. cbn [foldM].
  rewrite check_direction_spec by done.
  destruct (vector_eqb (d !!! i) zero_vector) eqn:Hz.
  - rewrite bind_inl, bool_decide_false; [done|].
    intros Hall. apply Forall_cons in Hall as [Hs _]. congruence.
  - rewrite bind_inr, IH by done.
    case_bool_decide as Hall; case_bool_decide as Hall'; try done.
    + exfalso. apply Hall'. by constructor.
    + exfalso. apply Hall. by apply Forall_cons in Hall' as [_ ?].
Qed.

Lemma seq_lt_ChannelCount : Forall (λ i, (i < ChannelCount)%nat) (seq 0 ChannelCount).
Proof. apply Forall_forall. intros i Hi. apply elem_of_seq in Hi. lia. Qed.

Lemma geometry_new_unfold hbFile heFile :
  HBHEChannelGeometry_new hbFile heFile
  = (chmap ← HBHEChannelMap_new;
     d ← loadData hbFile chmap (replicate ChannelCount zero_vector);
     d ← loadData heFile chmap d;
     _ ← foldM (check_direction chmap d) tt (seq 0 ChannelCount);
     mret (mkGeometry d)).
Proof. unfold HBHEChannelGeometry_new. reflexivity. Qed.

Lemma geometry_new_no_map hbFile heFile e :
  HBHEChannelMap_new = inl e → HBHEChannelGeometry_new hbFile heFile = inl e.
Proof. intros Hnew. rewrite geometry_new_unfold, Hnew. reflexivity. Qed.

(** What the constructor does once the channel map exists and both files
    could be read and parsed. *)
Lemma geometry_new_spec m hb he :
  HBHEChannelMap_new = inr m →
  HBHEChannelGeometry_new (Rows hb) (Rows he) =
    if bool_decide (Forall (λ t, is_Some (row_index t)) (hb ++ he)) then
      if bool_decide
           (Forall (λ i, vector_eqb
                      (load_rows (replicate ChannelCount zero_vector) (hb ++ he) !!! i)
                      zero_vector = false)
                   (seq 0 ChannelCount))
      then inr (mkGeometry (load_rows (replicate ChannelCount zero_vector) (hb ++ he)))
      else inl runtime_error
    else inl invalid_argument.
Proof.
  intros Hnew. pose proof (reach_new m Hnew) as Hr.
  rewrite geometry_new_unfold, Hnew, bind_inr. clear Hnew.
  cbn [loadData]. rewrite foldM_load_rows; [|exact Hr|apply length_replicate].
  case_bool_decide as Hhb.
  - rewrite bind_inr.
    rewrite foldM_load_rows;
      [|exact Hr|rewrite load_rows_length; apply length_replicate].
    case_bool_decide as Hhe.
    + rewrite bind_inr.
      rewrite (bool_decide_true (Forall _ (hb ++ he)))
        by (apply Forall_app; by split).
      rewrite foldM_check; [|exact Hr|apply seq_lt_ChannelCount].
      rewrite load_rows_app.
      case_bool_decide; [by rewrite bind_inr|by rewrite bind_inl].
    + rewrite bind_inl, (bool_decide_false (Forall _ (hb ++ he))); [done|].
      intros Hall. apply Forall_app in Hall as [_ Hall]. exact (Hhe Hall).
  - rewrite bind_inl, (bool_decide_false (Forall _ (hb ++ he))); [done|].
    intros Hall. apply Forall_app in Hall as [Hall _]. exact (Hhb Hall).
Qed.

Lemma geometry_new_fails_early hbFile heFile :
  (hbFile = Unreadable ∨ hbFile = Malformed ∨ heFile = Unreadable ∨ heFile = Malformed) →
  ∃ e, HBHEChannelGeometry_new hbFile heFile = inl e.
Proof.
  intros Hbad. rewrite geometry_new_unfold.
  destruct HBHEChannelMap_new as [e|m]; [by exists e|].
  rewrite bind_inr.
  destruct hbFile as [| |hb]; try (by eexists).
  destruct (loadData (Rows hb) m _) as [e|d]; [by exists e|].
  rewrite bind_inr.
  destruct heFile as [| |he]; try (by eexists).
  exfalso. destruct Hbad as [Hb|[Hb|[Hb|Hb]]]; discriminate Hb.
Qed.

Lemma geometry_new_inr_rows hbFile heFile g :
  HBHEChannelGeometry_new hbFile heFile = inr g →
  ∃ hb he, hbFile = Rows hb ∧ heFile = Rows he.
Proof.
  intros Hg.
  assert (¬ (hbFile = Unreadable ∨ hbFile = Malformed ∨
             heFile = Unreadable ∨ heFile = Malformed)) as Hgood.
  { intros Hbad. destruct (geometry_new_fails_early _ _ Hbad) as [e He].
    rewrite He in Hg. discriminate Hg. }
  destruct hbFile as [| |hb]; [exfalso; apply Hgood; tauto..|].
  destruct heFile as [| |he]; [exfalso; apply Hgood; tauto..|].
  exists hb, he. split; reflexivity.
Qed.

Lemma load_rows_missing hb he i :
  (i < ChannelCount)%nat →
  (∀ t, t ∈ hb ++ he → row_index t ≠ Some i) →
  ¬ Forall (λ i, vector_eqb
              (load_rows (replicate ChannelCount zero_vector) (hb ++ he) !!! i)
              zero_vector = false) (seq 0 ChannelCount).
Proof.
  intros Hi Hno Hall. rewrite Forall_forall in Hall.
  specialize (Hall i). rewrite elem_of_seq in Hall.
  rewrite (list_lookup_total_correct _ _ zero_vector) in Hall.
  - rewrite zero_eqb_zero in Hall.
    assert (true = false) as Habs by (apply Hall; lia). discriminate Habs.
  - rewrite load_rows_untouched by exact Hno. apply lookup_replicate_2. exact Hi.
Qed.

Lemma geometry_success_inv hb he g :
  HBHEChannelGeometry_new (Rows hb) (Rows he) = inr g →
  length (directions_ g) = ChannelCount ∧
  ∀ i, (i < ChannelCount)%nat →
    ∃ t, t ∈ hb ++ he ∧ row_index t = Some i
         ∧ directions_ g !! i = Some (row_vector t)
         ∧ vector_eqb (row_vector t) zero_vector = false.
Proof.
  intros Hg.
  destruct (@HBHEChannelMap_new hw) as [e|m] eqn:Hnew.
  { rewrite (geometry_new_no_map _ _ e Hnew) in Hg. discriminate Hg. }
  rewrite (geometry_new_spec m) in Hg by exact Hnew. clear Hnew.
  destruct (decide (Forall (λ t, is_Some (row_index t)) (hb ++ he))) as [Hvalid|Hvalid];
    [rewrite (bool_decide_true _ Hvalid) in Hg
    |rewrite (bool_decide_false _ Hvalid) in Hg; discriminate Hg].
  destruct (decide (Forall (λ i, vector_eqb
              (load_rows (replicate ChannelCount zero_vector) (hb ++ he) !!! i)
              zero_vector = false) (seq 0 ChannelCount))) as [Hnz|Hnz];
    [rewrite (bool_decide_true _ Hnz) in Hg
    |rewrite (bool_decide_false _ Hnz) in Hg; discriminate Hg].
  apply inr_eq in Hg. subst g.
  change (directions_ (mkGeometry ?d)) with d.
  split; [rewrite load_rows_length; apply length_replicate|].
  intros i Hi.
  destruct (decide (Exists (λ t, row_index t = Some i) (hb ++ he))) as [Hex|Hno].
  - apply Exists_exists in Hex.
    destruct (load_rows_touched (replicate ChannelCount zero_vector) (hb ++ he) i)
      as (t & Ht & Hidx & Hl); [rewrite length_replicate; exact Hi|exact Hex|].
    exists t. split_and!; [exact Ht|exact Hidx|exact Hl|].
    rewrite Forall_forall in Hnz. specialize (Hnz i).
    rewrite (list_lookup_total_correct _ _ _ Hl) in Hnz.
    apply Hnz, elem_of_seq. lia.
  - exfalso. apply (load_rows_missing hb he i Hi); [|exact Hnz].
    intros t Ht Hidx. apply Hno. apply Exists_exists.
    exists t. split; [exact Ht|exact Hidx].
Qed.

Lemma geometry_missing_fails m hb he i :
  HBHEChannelMap_new = inr m →
  (i < ChannelCount)%nat →
  (∀ t, t ∈ hb ++ he → row_index t ≠ Some i) →
  HBHEChannelGeometry_new (Rows hb) (Rows he)
  = if bool_decide (Forall (λ t, is_Some (row_index t)) (hb ++ he))
    then inl runtime_error else inl invalid_argument.
Proof.
  intros Hnew Hi Hno.
  rewrite (geometry_new_spec m) by exact Hnew. clear Hnew.
  pose proof (load_rows_missing hb he i Hi Hno) as Hmiss.
  rewrite (bool_decide_false _ Hmiss). reflexivity.
Qed.

(** C9 (as amended): after a successful construction every enumerated
    channel holds a direction, namely the unit vector of one of its rows in
    the two files, and this vector differs from the null vector; nothing
    limits a channel to one row.  When an enumerated channel has no row,
    construction fails: with the "no data" [std::runtime_error] if the
    channel map could be built, both files were parsed and all rows name
    enumerated channels. *)
Theorem geometry_complete hbFile heFile :
  (∀ g, HBHEChannelGeometry_new hbFile heFile = inr g →
     length (directions_ g) = ChannelCount ∧
     ∀ i, (i < ChannelCount)%nat →
       ∃ t, t ∈ file_rows hbFile ++ file_rows heFile ∧ row_index t = Some i
            ∧ directions_ g !! i = Some (row_vector t)
            ∧ vector_eqb (row_vector t) zero_vector = false) ∧
  (∀ i, (i < ChannelCount)%nat →
     (∀ t, t ∈ file_rows hbFile ++ file_rows heFile → row_index t ≠ Some i) →
     (∃ e, HBHEChannelGeometry_new hbFile heFile = inl e) ∧
     ∀ m hb he,
       HBHEChannelMap_new = inr m → hbFile = Rows hb → heFile = Rows he →
       Forall (λ t, is_Some (row_index t)) (hb ++ he) →
       HBHEChannelGeometry_new hbFile heFile = inl runtime_error).
Proof.
  split.
  - intros g Hg.
    destruct (geometry_new_inr_rows _ _ _ Hg) as (hb & he & -> & ->).
    exact (geometry_success_inv hb he g Hg).
  - intros i Hi Hno. split.
    + destruct hbFile as [| |hb]; [apply geometry_new_fails_early; tauto..|].
      destruct heFile as [| |he]; [apply geometry_new_fails_early; tauto..|].
      destruct (@HBHEChannelMap_new hw) as [e|m] eqn:Hnew.
      { exists e. by apply geometry_new_no_map. }
      rewrite (geometry_missing_fails m hb he i Hnew Hi Hno).
      case_bool_decide; eexists; reflexivity.
    + intros m hb he Hnew -> -> Hvalid.
      rewrite (geometry_missing_fails m hb he i Hnew Hi Hno).
      rewrite bool_decide_true by exact Hvalid. reflexivity.
Qed.

(** Construction succeeds as soon as every row names an enumerated
    channel, every channel has a row, and no row has a null unit vector. *)
Lemma geometry_new_success m hb he :
  HBHEChannelMap_new = inr m →
  Forall (λ t, is_Some (row_index t)) (hb ++ he) →
  (∀ i, (i < ChannelCount)%nat → ∃ t, t ∈ hb ++ he ∧ row_index t = Some i) →
  (∀ t, t ∈ hb ++ he → vector_eqb (row_vector t) zero_vector = false) →
  HBHEChannelGeometry_new (Rows hb) (Rows he)
  = inr (mkGeometry (load_rows (replicate ChannelCount zero_vector) (hb ++ he))).
Proof.
  intros Hnew Hvalid Hcover Hnz.
  rewrite (geometry_new_spec m) by exact Hnew. clear Hnew.
  rewrite (bool_decide_true (Forall _ (hb ++ he))) by exact Hvalid.
  rewrite (bool_decide_true (Forall _ (seq 0 ChannelCount))); [reflexivity|].
  apply Forall_forall. intros i Hi. apply elem_of_seq in Hi.
  destruct (load_rows_touched (replicate ChannelCount zero_vector) (hb ++ he) i)
    as (t & Ht & Hidx & Hl); [rewrite length_replicate; lia|apply Hcover; lia|].
  rewrite (list_lookup_total_correct _ _ _ Hl). by apply Hnz.
Qed.

End GeometryFacts.

(** *** A geometry file with two rows for one channel *)

Lemma to_unsigned_small v : 0 ≤ v < 2 ^ 32 → to_unsigned v = v.
Proof. intros Hv. unfold to_unsigned. by apply Z.mod_small. Qed.

Lemma sample_row_index c :
  c ∈ channel_ids →
  @row_index Z_arith (@mkTuple Z_arith (ieta c) (iphi c) (depth c) 1 0 0) = index_of c.
Proof.
  intros Hc. pose proof channel_ids_ok as Hok. rewrite Forall_forall in Hok.
  destruct (Hok c Hc) as (Hd & _ & _ & Hp).
  unfold row_index. cbn [t_depth t_ieta t_iphi].
  rewrite !to_unsigned_small by lia. by destruct c.
Qed.

Lemma sample_rows_valid :
  Forall (λ t, is_Some (@row_index Z_arith t)) ((sample_rows ++ [sample_extra_row]) ++ []).
Proof.
  rewrite app_nil_r. apply Forall_app. split.
  - apply Forall_forall. intros t Ht. unfold sample_rows in Ht.
    apply list_elem_of_fmap in Ht as (c & -> & Hc).
    rewrite sample_row_index by exact Hc.
    apply list_elem_of_lookup in Hc as [i Hi]. exists i. by apply index_of_Some.
  - apply Forall_singleton. exists 0%nat. vm_compute. reflexivity.
Qed.

Lemma sample_rows_cover i :
  (i < ChannelCount)%nat →
  ∃ t, t ∈ (sample_rows ++ [sample_extra_row]) ++ [] ∧ @row_index Z_arith t = Some i.
Proof.
  intros Hi. destruct (channel_ids_lookup_lt i Hi) as (c & Hc & _).
  exists (@mkTuple Z_arith (ieta c) (iphi c) (depth c) 1 0 0). split.
  - rewrite app_nil_r. apply elem_of_app. left. unfold sample_rows.
    apply list_elem_of_fmap. exists c. split; [reflexivity|].
    by eapply list_elem_of_lookup_2.
  - rewrite sample_row_index by (by eapply list_elem_of_lookup_2).
    by apply index_of_Some.
Qed.

Lemma sample_rows_nonzero t :
  t ∈ (sample_rows ++ [sample_extra_row]) ++ [] →
  @vector_eqb Z_arith Z_vector3 (@row_vector Z_arith Z_vector3 t)
              (@zero_vector Z_arith Z_vector3) = false.
Proof.
  rewrite app_nil_r. intros Ht. apply elem_of_app in Ht as [Ht|Ht].
  - unfold sample_rows in Ht. apply list_elem_of_fmap in Ht as (c & -> & _).
    reflexivity.
  - apply list_elem_of_singleton in Ht as ->. reflexivity.
Qed.

(** C9 (as stated) fails on "exactly one": a file that lists channel 0
    twice, at rows 0 and 5184, is loaded without complaint; the later row
    replaces the earlier one. *)
Lemma geometry_accepts_second_row :
  ∃ g t0,
    @HBHEChannelGeometry_new sample_hw Z_arith Z_vector3
      (Rows (sample_rows ++ [sample_extra_row])) (Rows []) = inr g
    ∧ (sample_rows ++ [sample_extra_row]) !! 0%nat = Some t0
    ∧ (sample_rows ++ [sample_extra_row]) !! 5184%nat = Some sample_extra_row
    ∧ @row_index Z_arith t0 = Some 0%nat
    ∧ @row_index Z_arith sample_extra_row = Some 0%nat
    ∧ @row_vector Z_arith Z_vector3 t0 = (1, 0, 0)
    ∧ directions_ g !! 0%nat = Some (0, 1, 0).
Proof.
  eexists. exists (@mkTuple Z_arith (-29) 1 1 1 0 0).
  split.
  { apply (@geometry_new_success sample_hw Z_arith Z_vector3 sample_map).
    - exact sample_new.
    - exact sample_rows_valid.
    - exact sample_rows_cover.
    - exact sample_rows_nonzero. }
  assert (@row_index Z_arith sample_extra_row = Some 0%nat) as Hextra
    by (vm_compute; reflexivity).
  split_and!.
  - vm_compute. reflexivity.
  - apply list_lookup_middle. unfold sample_rows.
    by rewrite length_fmap, channel_ids_length.
  - vm_compute. reflexivity.
  - exact Hextra.
  - reflexivity.
  - cbn [directions_]. rewrite app_nil_r, load_rows_snoc, Hextra.
    assert (0 < length (@load_rows Z_arith Z_vector3
                          (replicate ChannelCount zero_vector) sample_rows))%nat
      as Hlt.
    { rewrite load_rows_length, length_replicate.
      apply (bool_decide_unpack _). vm_compute. reflexivity. }
    exact (list_lookup_insert_eq _ _ _ Hlt).
Qed.

Lemma geometry_complete_witness :
  (∃ g, @HBHEChannelGeometry_new sample_hw Z_arith Z_vector3
          (Rows (sample_rows ++ [sample_extra_row])) (Rows []) = inr g
        ∧ length (directions_ g) = ChannelCount)
  ∧ @HBHEChannelGeometry_new sample_hw Z_arith Z_vector3 (Rows []) (Rows [])
    = inl runtime_error.
Proof.
  split.
  - eexists. split.
    + apply (@geometry_new_success sample_hw Z_arith Z_vector3 sample_map).
      * exact sample_new.
      * exact sample_rows_valid.
      * exact sample_rows_cover.
      * exact sample_rows_nonzero.
    + eapply (proj1 (@geometry_complete sample_hw Z_arith Z_vector3 _ _)).
      apply (@geometry_new_success sample_hw Z_arith Z_vector3 sample_map).
      * exact sample_new.
      * exact sample_rows_valid.
      * exact sample_rows_cover.
      * exact sample_rows_nonzero.
  - assert (0 < ChannelCount)%nat as H0
      by (apply (bool_decide_unpack _); vm_compute; reflexivity).
    assert (∀ t : @Tuple Z_arith,
              t ∈ @file_rows Z_arith (Rows []) ++ @file_rows Z_arith (Rows []) →
              @row_index Z_arith t ≠ Some 0%nat) as Hno.
    { intros t Ht. by apply elem_of_nil in Ht. }
    destruct (proj2 (@geometry_complete sample_hw Z_arith Z_vector3 (Rows []) (Rows []))
                0%nat H0 Hno) as [_ Hrt].
    apply (Hrt sample_map [] [] sample_new eq_refl eq_refl). constructor.
Defined.

(** ** Pruning by energy budget *)

Section PrunerFacts.
Context `{C : Compare}.

Lemma discard_within_split budget sorted : ∀ running discarded kept,
  discard_within budget running sorted = (discarded, kept) →
  discarded ++ kept = sorted.
Proof.
  induction sorted as [|c rest IH]; intros running discarded kept; simpl.
  - by intros [= <- <-].
  - destruct (d_leb (d_add running c.1) budget).
    + destruct (discard_within budget (d_add running c.1) rest)
        as [d' k'] eqn:Hrec.
      intros [= <- <-]. simpl. f_equal. by eapply IH.
    + by intros [= <- <-].
Qed.

(** Each discarded channel left the running sum within the budget. *)
Lemma discard_within_running budget sorted : ∀ running discarded kept,
  discard_within budget running sorted = (discarded, kept) →
  ∀ k, (k < length discarded)%nat →
    d_leb (foldl (λ acc c, d_add acc c.1) running (take (S k) discarded)) budget
    = true.
Proof.
  induction sorted as [|c rest IH]; intros running discarded kept; simpl.
  - intros [= <- <-] k Hk. simpl in Hk. lia.
  - destruct (d_leb (d_add running c.1) budget) eqn:Hc.
    + destruct (discard_within budget (d_add running c.1) rest)
        as [d' k'] eqn:Hrec.
      intros [= <- <-] [|k] Hk.
      * destruct d'; exact Hc.
      * simpl in Hk. change (take (S (S k)) (c :: d')) with (c :: take (S k) d').
        simpl. apply (IH _ _ _ Hrec). lia.
    + intros [= <- <-] k Hk. simpl in Hk. lia.
Qed.

(** The first kept channel would take the running sum over the budget. *)
Lemma discard_within_first_kept budget sorted : ∀ running discarded kept c kept',
  discard_within budget running sorted = (discarded, kept) →
  kept = c :: kept' →
  d_leb (d_add (foldl (λ acc c, d_add acc c.1) running discarded) c.1) budget
  = false.
Proof.
  induction sorted as [|c0 rest IH]; intros running discarded kept c kept'; simpl.
  - by intros [= <- <-].
  - destruct (d_leb (d_add running c0.1) budget) eqn:Hc.
    + destruct (discard_within budget (d_add running c0.1) rest)
        as [d' k'] eqn:Hrec.
      intros [= <- <-] ->. simpl. by eapply IH.
    + intros [= <- <-] [= -> ->]. exact Hc.
Qed.

Lemma prune_jet_nonzero f total chans :
  d_eqb total d_zero = false →
  prune_jet f total chans
  = discard_within (d_mul f total) d_zero (merge_sort energy_le chans).
Proof. unfold prune_jet. by intros ->. Qed.

Lemma prune_jet_zero f total chans :
  d_eqb total d_zero = true →
  prune_jet f total chans = (merge_sort energy_le chans, []).
Proof. unfold prune_jet. by intros ->. Qed.

Lemma prune_jet_split f total chans discarded kept :
  prune_jet f total chans = (discarded, kept) →
  discarded ++ kept = merge_sort energy_le chans.
Proof.
  destruct (d_eqb total d_zero) eqn:Hz.
  - rewrite prune_jet_zero by done. intros [= <- <-]. apply app_nil_r.
  - rewrite prune_jet_nonzero by done. apply discard_within_split.
Qed.

End PrunerFacts.


Lemma Qle_bool_total (x y : Q) : Qle_bool x y = true ∨ Qle_bool y x = true.
Proof.
  rewrite !Qle_bool_iff.
  destruct (Qlt_le_dec y x) as [Hlt|Hle]; [right; by apply Qlt_le_weak|by left].
Qed.


(** ** The tables of the constructor are never changed by a query *)

Lemma foldM_preserves {A S B} (f : S → A → result S) (g : S → B) l :
  (∀ s x s', f s x = inr s' → g s' = g s) →
  ∀ s s', foldM f s l = inr s' → g s' = g s.
Proof.
  intros Hf. induction l as [|x l IH]; intros s s'; simpl.
  - by intros [= <-].
  - destruct (f s x) as [e|s1] eqn:Hs1; simpl; [done|].
    intros Hl. rewrite (IH _ _ Hl). by eapply Hf.
Qed.

Lemma fill_channel_neighbors_tables m m' :
  fill_channel_neighbors m = inr m' → tables m' = tables m.
Proof.
  unfold fill_channel_neighbors.
  generalize (seq 0 ChannelCount). intros l.
  destruct (foldM _ m l) as [e|m1] eqn:Hm1; simpl; [done|].
  intros Hm'. apply inr_eq in Hm'. subst m'.
  change (tables (set_neighborInfoFilled true m1)) with (tables m1).
  revert Hm1. apply (foldM_preserves _ tables).
  intros s x s'. destruct (calculateNeighborList s x) as [e|vec]; simpl; [done|].
  intros Hs. apply inr_eq in Hs. by subst s'.
Qed.

Lemma channelNeigbors_tables m i l m' :
  channelNeigborsFromOtherHPDs m i = inr (l, m') → tables m' = tables m.
Proof.
  unfold channelNeigborsFromOtherHPDs.
  case_bool_decide; [done|].
  destruct (neighborInfoFilled_ m).
  - simpl. intros H1. apply inr_eq in H1. by injection H1 as _ <-.
  - destruct (fill_channel_neighbors m) as [e|m1] eqn:Hm1; simpl; [done|].
    intros H1. apply inr_eq in H1. injection H1 as _ <-.
    by apply fill_channel_neighbors_tables.
Qed.

Lemma calculateHPDNeighbors_tables m h l m' :
  calculateHPDNeighbors m h = inr (l, m') → tables m' = tables m.
Proof.
  unfold calculateHPDNeighbors.
  generalize (hpd_channel_lookup_ m !!! h). intros chans.
  destruct (foldM _ (∅, m) chans) as [e|[acc m1]] eqn:Hm1; simpl; [done|].
  intros H1. apply inr_eq in H1. injection H1 as _ <-.
  change (tables m1 = tables m) with
    ((λ s : gset nat * HBHEChannelMap, tables s.2) (acc, m1)
     = (λ s : gset nat * HBHEChannelMap, tables s.2) (∅, m)).
  revert Hm1. apply foldM_preserves.
  intros [a s] x [a' s'].
  destruct (channelNeigborsFromOtherHPDs s x) as [e|[ln s1]] eqn:Hs1; simpl; [done|].
  intros Hs. apply inr_eq in Hs. injection Hs as _ <-.
  by eapply channelNeigbors_tables.
Qed.

Section LayoutFacts.
Context {hw : HcalHPDRBXMap}.

Lemma fill_hpd_neighbors_tables m m' :
  fill_hpd_neighbors m = inr m' → tables m' = tables m.
Proof.
  unfold fill_hpd_neighbors.
  generalize (seq 0 (Z.to_nat NUM_HPDS)). intros l.
  destruct (foldM _ m l) as [e|m1] eqn:Hm1; simpl; [done|].
  intros Hm'. apply inr_eq in Hm'. subst m'.
  change (tables (set_hpdNeighborsFilled true m1)) with (tables m1).
  revert Hm1. apply (foldM_preserves _ tables).
  intros s x s'.
  destruct (calculateHPDNeighbors s x) as [e|[vec s1]] eqn:Hs1; simpl; [done|].
  intros Hs. apply inr_eq in Hs. subst s'.
  change (tables (set_hpd_neighbors (λ t, <[x:=vec]> t) s1)) with (tables s1).
  by eapply calculateHPDNeighbors_tables.
Qed.

Lemma getHPDNeigbors_tables m h l m' :
  getHPDNeigbors m h = inr (l, m') → tables m' = tables m.
Proof.
  unfold getHPDNeigbors.
  case_bool_decide; [done|].
  destruct (hpdNeighborsFilled_ m).
  - simpl. intros H1. apply inr_eq in H1. by injection H1 as _ <-.
  - destruct (fill_hpd_neighbors m) as [e|m1] eqn:Hm1; simpl; [done|].
    intros H1. apply inr_eq in H1. injection H1 as _ <-.
    by apply fill_hpd_neighbors_tables.
Qed.

End LayoutFacts.

Lemma channelSetNeighbors_tables m input l m' :
  channelSetNeighbors m input = inr (l, m') → tables m' = tables m.
Proof.
  unfold channelSetNeighbors.
  destruct (assert _) as [e|[]]; simpl; [done|].
  destruct (foldM _ ([], m) input) as [e|[acc m1]] eqn:Hm1; simpl; [done|].
  intros H1. apply inr_eq in H1. injection H1 as _ <-.
  change (tables m1 = tables m) with
    ((λ s : list nat * HBHEChannelMap, tables s.2) (acc, m1)
     = (λ s : list nat * HBHEChannelMap, tables s.2) ([], m)).
  revert Hm1. apply foldM_preserves.
  intros [a s] x [a' s'].
  destruct (channelNeigborsFromOtherHPDs s x) as [e|[ln s1]] eqn:Hs1; simpl; [done|].
  destruct (assert _) as [e|[]]; simpl; [done|].
  intros Hs. apply inr_eq in Hs. injection Hs as _ <-.
  by eapply channelNeigbors_tables.
Qed.

(** ** The RBX tables and the positions within HPD and RBX *)

Section LayoutInvariant.
Context {hw : HcalHPDRBXMap}.

Lemma layout_state_initial : layout_state 0 (initial_map channel_ids).
Proof.
  unfold layout_state, initial_map.
  cbn [chan_in_hpd_lookup_ rbx_lookup_ chan_in_rbx_lookup_ rbx_channel_lookup_].
  split_and!; try (by rewrite length_replicate); try (intros; lia).
  intros r Hr. by apply lookup_replicate_2.
Qed.

Lemma layout_state_step n m m' :
  (n < ChannelCount)%nat → ctor_state n m → layout_state n m →
  register_channel m n = inr m' → layout_state (S n) m'.
Proof.
  intros Hn (Hlk & _ & _ & _ & Hclen & Hchan & _)
         (Hl1 & Hp1 & Hl2 & Hrbx & Hl3 & Hp2 & Hl4 & Hrch).
  destruct (channel_ids_lookup_lt n Hn) as (c & Hc & Hct).
  pose proof (channel_ids_lookup_ok _ _ Hc) as Hok.
  rewrite (register_channel_spec m n c) by (by rewrite ?Hlk).
  case_bool_decide as Hhw; [|done]. intros Hm'. apply inr_eq in Hm'. subst m'.
  assert (hpd_of n = Z.to_nat (hpd_index c)) as Hn_hpd
    by (unfold hpd_of; by rewrite Hct).
  assert (rbx_of n = Z.to_nat (rbx_index c)) as Hn_rbx
    by (unfold rbx_of; by rewrite Hct).
  destruct Hhw as [Hh Hr].
  unfold layout_state.
  cbn [chan_in_hpd_lookup_ rbx_lookup_ chan_in_rbx_lookup_ rbx_channel_lookup_].
  split_and!.
  - by rewrite length_insert.
  - intros i Hi. destruct (decide (i = n)) as [->|Hne].
    + rewrite list_lookup_insert_eq by lia. f_equal.
      assert (Z.to_nat (hpd_index c) < Z.to_nat NUM_HPDS)%nat as Hlt by lia.
      rewrite (list_lookup_total_correct _ _ _ (Hchan _ Hlt)).
      by rewrite Hn_hpd.
    + rewrite list_lookup_insert_ne by done. apply Hp1. lia.
  - by rewrite length_insert.
  - intros i Hi. destruct (decide (i = n)) as [->|Hne].
    + rewrite list_lookup_insert_eq by lia. by rewrite Hn_rbx.
    + rewrite list_lookup_insert_ne by done. apply Hrbx. lia.
  - by rewrite length_insert.
  - intros i Hi. destruct (decide (i = n)) as [->|Hne].
    + rewrite list_lookup_insert_eq by lia. f_equal.
      assert (Z.to_nat (rbx_index c) < Z.to_nat NUM_RBXS)%nat as Hlt by lia.
      rewrite (list_lookup_total_correct _ _ _ (Hrch _ Hlt)).
      by rewrite Hn_rbx.
    + rewrite list_lookup_insert_ne by done. apply Hp2. lia.
  - unfold push_at. by rewrite length_insert.
  - intros r Hr'. unfold push_at. rewrite seq_S, filter_app. simpl.
    destruct (decide (r = Z.to_nat (rbx_index c))) as [->|Hne].
    + rewrite list_lookup_insert_eq by lia.
      rewrite (list_lookup_total_correct _ _ _ (Hrch _ Hr')).
      rewrite (filter_cons_True _ n) by done. by rewrite filter_nil.
    + rewrite list_lookup_insert_ne by done.
      rewrite (filter_cons_False _ n) by congruence.
      rewrite filter_nil, app_nil_r. by apply Hrch.
Qed.

Lemma layout_loop_inv n :
  (n ≤ ChannelCount)%nat → ∀ m,
  foldM register_channel (initial_map channel_ids) (seq 0 n) = inr m →
  layout_state n m.
Proof.
  induction n as [|n IH]; intros Hn m.
  - simpl. intros Hm. apply inr_eq in Hm. subst m. apply layout_state_initial.
  - rewrite seq_S, foldM_app. simpl.
    destruct (foldM register_channel (initial_map channel_ids) (seq 0 n))
      as [e|m1] eqn:Hm1; simpl; [done|].
    destruct (register_channel m1 n) as [e|m2] eqn:Hm2; simpl; [done|].
    intros Hm. apply inr_eq in Hm. subst m.
    eapply layout_state_step; [lia| | |exact Hm2].
    + apply ctor_loop_inv; [lia|done].
    + apply IH; [lia|done].
Qed.

Lemma new_layout_state m : HBHEChannelMap_new = inr m → layout_state ChannelCount m.
Proof. rewrite HBHEChannelMap_new_unfold. by apply layout_loop_inv. Qed.

Lemma layout_state_tables n m m' :
  tables m' = tables m → layout_state n m → layout_state n m'.
Proof.
  unfold tables, layout_state. intros Ht. 
  injection Ht as _ _ _ -> _ -> -> ->. done.
Qed.

Lemma reachable_layout m : reachable m → layout_state ChannelCount m.
Proof.
  induction 1 as [m Hm|m i l m' _ IH Hq|m h l m' _ IH Hq].
  - by apply new_layout_state.
  - eapply layout_state_tables; [|exact IH]. by eapply channelNeigbors_tables.
  - eapply layout_state_tables; [|exact IH]. by eapply getHPDNeigbors_tables.
Qed.

End LayoutInvariant.

(** ** Positions within HPD and RBX, and the largest groups *)

Lemma max_count_acc v : ∀ acc,
  let r := foldl (λ maxcount chans : _,
                    if bool_decide (maxcount < length chans)%nat then length chans
                    else maxcount) acc v in
  (acc ≤ r)%nat ∧ (∀ l : list nat, l ∈ v → (length l ≤ r)%nat) ∧
  (r = acc ∨ ∃ l, l ∈ v ∧ length l = r).
Proof.
  induction v as [|x v IH]; intros acc; simpl.
  - split_and!; [lia| |by left]. intros l Hl. by apply elem_of_nil in Hl.
  - destruct (IH (if bool_decide (acc < length x)%nat then length x else acc))
      as (H1 & H2 & H3).
    split_and!.
    + case_bool_decide; lia.
    + intros l Hl. apply elem_of_cons in Hl as [->|Hl]; [|by apply H2].
      case_bool_decide; lia.
    + destruct H3 as [H3|(l & Hl & H3)].
      * case_bool_decide; [|by left]. right. exists x. split; [by left|done].
      * right. exists l. split; [by right|done].
Qed.

Lemma max_count_spec v :
  (∀ l, l ∈ v → (length l ≤ max_count v)%nat) ∧
  (v = [] → max_count v = 0%nat) ∧
  (v ≠ [] → ∃ l, l ∈ v ∧ length l = max_count v).
Proof.
  destruct (max_count_acc v 0) as (_ & H2 & H3). fold (max_count v) in H2, H3.
  split_and!; [done|by intros ->|].
  intros Hv. destruct H3 as [H3|H3]; [|done].
  destruct v as [|x v]; [done|]. exists x. split; [by left|].
  specialize (H2 x ltac:(by left)). lia.
Qed.

Lemma filter_ext_in {A} (P Q : A → Prop) `{∀ x, Decision (P x)}
    `{∀ x, Decision (Q x)} (l : list A) :
  (∀ x, x ∈ l → P x ↔ Q x) → filter P l = filter Q l.
Proof.
  induction l as [|x l IH]; intros HPQ; [done|].
  rewrite !filter_cons.
  rewrite IH by (intros y Hy; apply HPQ; by right).
  destruct (decide (P x)) as [HP|HP], (decide (Q x)) as [HQ|HQ]; try done.
  - exfalso. apply HQ, HPQ; [by left|done].
  - exfalso. apply HP, HPQ; [by left|done].
Qed.

Lemma filter_seq_sorted (P : nat → Prop) `{∀ x, Decision (P x)} n : ∀ a,
  StronglySorted (<)%nat (filter P (seq a n)).
Proof.
  induction n as [|n IH]; intros a; [constructor|].
  cbn [seq]. rewrite filter_cons. destruct (decide (P a)); [|apply IH].
  constructor; [apply IH|].
  apply Forall_forall. intros x Hx. apply list_elem_of_filter in Hx as [_ Hx].
  apply elem_of_seq in Hx. lia.
Qed.

Lemma foldl_ext_in {A B} (f g : A → B → A) (l : list B) : ∀ a,
  (∀ a x, x ∈ l → f a x = g a x) → foldl f a l = foldl g a l.
Proof.
  induction l as [|x l IH]; intros a Hfg; [done|]. simpl.
  rewrite Hfg by (by left). apply IH. intros a' y Hy. apply Hfg. by right.
Qed.

Lemma filter_seq_position (P : nat → Prop) `{∀ x, Decision (P x)} i n :
  (i < n)%nat → P i →
  filter P (seq 0 n) !! length (filter P (seq 0 i)) = Some i.
Proof.
  intros Hi HP.
  replace n with (i + S (n - S i))%nat by lia.
  rewrite seq_app, filter_app. simpl.
  rewrite (filter_cons_True _ i) by done.
  by rewrite lookup_app_r, Nat.sub_diag by lia.
Qed.

Lemma filter_seq_NoDup (P : nat → Prop) `{∀ x, Decision (P x)} n :
  NoDup (filter P (seq 0 n)).
Proof. apply NoDup_filter, NoDup_seq. Qed.

Lemma filter_seq_lookup (P : nat → Prop) `{∀ x, Decision (P x)} i k n :
  filter P (seq 0 n) !! k = Some i ↔
  (i < n)%nat ∧ P i ∧ k = length (filter P (seq 0 i)).
Proof.
  split.
  - intros Hk. pose proof (list_elem_of_lookup_2 _ _ _ Hk) as Hin.
    apply list_elem_of_filter in Hin as [HP Hin]. apply elem_of_seq in Hin.
    split_and!; [lia|done|].
    eapply NoDup_lookup; [apply (filter_seq_NoDup P n)|exact Hk|].
    apply filter_seq_position; [lia|done].
  - intros (Hi & HP & ->). by apply filter_seq_position.
Qed.

Lemma length_filter_impl {A} (P Q : A → Prop) `{∀ x, Decision (P x)}
    `{∀ x, Decision (Q x)} (l : list A) :
  (∀ x, x ∈ l → P x → Q x) → (length (filter P l) ≤ length (filter Q l))%nat.
Proof.
  induction l as [|x l IH]; intros HPQ; [done|].
  assert (length (filter P l) ≤ length (filter Q l))%nat as IH'
    by (apply IH; intros y Hy; apply HPQ; by right).
  destruct (decide (P x)) as [HP|HP].
  - rewrite (filter_cons_True P) by done.
    rewrite (filter_cons_True Q) by (apply HPQ; [by left|done]). simpl. lia.
  - rewrite (filter_cons_False P) by done.
    destruct (decide (Q x)).
    + rewrite (filter_cons_True Q) by done. simpl. lia.
    + by rewrite (filter_cons_False Q) by done.
Qed.

Section LayoutQueries.
Context {hw : HcalHPDRBXMap}.

(** Every object met during a run has the tables of the object the
    constructor built. *)
Lemma reachable_tables m :
  reachable m → ∃ m0, HBHEChannelMap_new = inr m0 ∧ tables m = tables m0.
Proof.
  induction 1 as [m Hm|m i l m' _ (m0 & Hm0 & IH) Hq|m h l m' _ (m0 & Hm0 & IH) Hq].
  - exists m. split; [exact Hm|reflexivity].
  - exists m0. split; [exact Hm0|]. rewrite <- IH. exact (channelNeigbors_tables _ _ _ _ Hq).
  - exists m0. split; [exact Hm0|]. rewrite <- IH. exact (getHPDNeigbors_tables _ _ _ _ Hq).
Qed.

Lemma reachable_hpd_table_length m :
  reachable m → length (hpd_channel_lookup_ m) = Z.to_nat NUM_HPDS.
Proof.
  intros (m0 & Hm0 & Ht)%reachable_tables.
  apply new_ctor_state in Hm0 as (_ & _ & _ & _ & Hlen & _).
  unfold tables in Ht. injection Ht as _ _ _ _ -> _ _ _. exact Hlen.
Qed.

Lemma reachable_hpd_table m h chans :
  reachable m →
  hpd_channel_lookup_ m !! h = Some chans ↔
  (h < Z.to_nat NUM_HPDS)%nat ∧ chans = hpd_channels h.
Proof.
  intros Hr. pose proof (reachable_hpd_table_length m Hr) as Hlen.
  destruct (reachable_map_ok m Hr) as [(_ & _ & _ & _ & Hch & _) _].
  split.
  - intros Hh. pose proof (lookup_lt_Some _ _ _ Hh) as Hlt.
    rewrite Hlen in Hlt. split; [exact Hlt|].
    rewrite (Hch _ Hlt) in Hh. symmetry. exact (Some_inj _ _ Hh).
  - intros [Hlt ->]. exact (Hch _ Hlt).
Qed.

Lemma reachable_rbx_table m r chans :
  reachable m →
  rbx_channel_lookup_ m !! r = Some chans ↔
  (r < Z.to_nat NUM_RBXS)%nat ∧ chans = filter (λ i, rbx_of i = r) (seq 0 ChannelCount).
Proof.
  intros Hr. destruct (reachable_layout m Hr) as (_ & _ & _ & _ & _ & _ & Hlen & Hch).
  split.
  - intros Hh. pose proof (lookup_lt_Some _ _ _ Hh) as Hlt.
    rewrite Hlen in Hlt. split; [exact Hlt|].
    rewrite (Hch _ Hlt) in Hh. symmetry. exact (Some_inj _ _ Hh).
  - intros [Hlt ->]. exact (Hch _ Hlt).
Qed.

Lemma hw_ok_lookup i :
  hw_ok → (i < ChannelCount)%nat →
  0 ≤ hpd_index (channel_ids !!! i) < NUM_HPDS ∧
  0 ≤ rbx_index (channel_ids !!! i) < NUM_RBXS.
Proof.
  intros Hhw Hi. destruct (channel_ids_lookup_lt i Hi) as (c & Hc & ->).
  unfold hw_ok in Hhw. rewrite Forall_forall in Hhw. apply Hhw.
  by eapply list_elem_of_lookup_2.
Qed.

Lemma reachable_hw_ok m : reachable m → hw_ok.
Proof. intros Hr. by destruct (reachable_map_ok m Hr) as [(_ & _ & _ & _ & _ & Hhw) _]. Qed.

Lemma getChannelInHPD_spec m i :
  reachable m → (i < ChannelCount)%nat →
  getChannelInHPD m i
  = inr (length (filter (λ j, hpd_of j = hpd_of i) (seq 0 i))).
Proof.
  intros Hr Hi. destruct (reachable_layout m Hr) as (_ & Hp & _).
  unfold getChannelInHPD. rewrite bool_decide_false by lia.
  by rewrite (list_lookup_total_correct _ _ _ (Hp _ Hi)).
Qed.

Lemma getRBX_spec m i :
  reachable m → (i < ChannelCount)%nat → getRBX m i = inr (rbx_of i).
Proof.
  intros Hr Hi. destruct (reachable_layout m Hr) as (_ & _ & _ & Hp & _).
  unfold getRBX. rewrite bool_decide_false by lia.
  by rewrite (list_lookup_total_correct _ _ _ (Hp _ Hi)).
Qed.

Lemma getChannelInRBX_spec m i :
  reachable m → (i < ChannelCount)%nat →
  getChannelInRBX m i
  = inr (length (filter (λ j, rbx_of j = rbx_of i) (seq 0 i))).
Proof.
  intros Hr Hi. destruct (reachable_layout m Hr) as (_ & _ & _ & _ & _ & Hp & _).
  unfold getChannelInRBX. rewrite bool_decide_false by lia.
  by rewrite (list_lookup_total_correct _ _ _ (Hp _ Hi)).
Qed.

Lemma rbx_of_hpd_of i :
  hw_ok → (i < ChannelCount)%nat →
  rbx_of i = Z.to_nat (indexRBXfromHPD (Z.of_nat (hpd_of i))).
Proof.
  intros Hhw Hi. destruct (hw_ok_lookup i Hhw Hi) as [Hh _].
  unfold rbx_of, hpd_of, rbx_index. by rewrite Z2Nat.id by lia.
Qed.

(** X1: the HPD of a channel and its position there locate the channel in
    the list of channels of that HPD, and nothing else does. *)
Theorem hpd_position_roundtrip m i h k :
  reachable m →
  (getHPD m i = inr h ∧ getChannelInHPD m i = inr k) ↔
  (∃ chans, hpd_channel_lookup_ m !! h = Some chans ∧ chans !! k = Some i).
Proof.
  intros Hr. pose proof (reachable_hw_ok m Hr) as Hhw. split.
  - intros [Hh Hk]. apply getHPD_inr in Hh as [Hi <-]; [|done].
    rewrite getChannelInHPD_spec in Hk by done. apply inr_eq in Hk. subst k.
    exists (hpd_channels (hpd_of i)). split.
    + apply reachable_hpd_table; [done|]. split; [|done].
      destruct (hw_ok_lookup i Hhw Hi) as [Hh _]. unfold hpd_of. lia.
    + unfold hpd_channels. by apply filter_seq_position.
  - intros (chans & Hc & Hk). apply reachable_hpd_table in Hc as [Hh ->]; [|done].
    unfold hpd_channels in Hk.
    apply (filter_seq_lookup (λ i, hpd_of i = h)) in Hk as (Hi & <- & ->).
    split; [by apply getHPD_inr|by apply getChannelInHPD_spec].
Qed.

(** X2: the same for the RBX of a channel. *)
Theorem rbx_position_roundtrip m i r k :
  reachable m →
  (getRBX m i = inr r ∧ getChannelInRBX m i = inr k) ↔
  (∃ chans, rbx_channel_lookup_ m !! r = Some chans ∧ chans !! k = Some i).
Proof.
  intros Hr. pose proof (reachable_hw_ok m Hr) as Hhw. split.
  - intros [Hh Hk].
    assert (i < ChannelCount)%nat as Hi.
    { unfold getRBX in Hh. case_bool_decide; [done|lia]. }
    rewrite getRBX_spec in Hh by done. apply inr_eq in Hh. subst r.
    rewrite getChannelInRBX_spec in Hk by done. apply inr_eq in Hk. subst k.
    exists (filter (λ j, rbx_of j = rbx_of i) (seq 0 ChannelCount)). split.
    + apply reachable_rbx_table; [done|]. split; [|done].
      destruct (hw_ok_lookup i Hhw Hi) as [_ Hh]. unfold rbx_of. lia.
    + by apply filter_seq_position.
  - intros (chans & Hc & Hk). apply reachable_rbx_table in Hc as [Hh ->]; [|done].
    apply (filter_seq_lookup (λ i, rbx_of i = r)) in Hk as (Hi & <- & ->).
    split; [by apply getRBX_spec|by apply getChannelInRBX_spec].
Qed.

(** X3: below the channel count the four accessors succeed, with results
    inside the ranges of the hardware and of the largest groups, and the RBX
    is the one the hardware mapping assigns to the HPD; from the channel
    count on, all four throw [std::out_of_range]. *)
Theorem hardware_accessors m i :
  reachable m →
  ((i < ChannelCount)%nat →
   ∃ h k r q,
     getHPD m i = inr h ∧ getChannelInHPD m i = inr k ∧
     getRBX m i = inr r ∧ getChannelInRBX m i = inr q ∧
     (h < Z.to_nat NUM_HPDS)%nat ∧ (k < maxChannelsPerHPD m)%nat ∧
     (r < Z.to_nat NUM_RBXS)%nat ∧ (q < maxChannelsPerRBX m)%nat ∧
     Z.of_nat r = indexRBXfromHPD (Z.of_nat h)) ∧
  ((ChannelCount ≤ i)%nat →
   getHPD m i = inl out_of_range ∧ getChannelInHPD m i = inl out_of_range ∧
   getRBX m i = inl out_of_range ∧ getChannelInRBX m i = inl out_of_range).
Proof.
  intros Hr. pose proof (reachable_hw_ok m Hr) as Hhw. split.
  - intros Hi. destruct (hw_ok_lookup i Hhw Hi) as [Hh Hx].
    eexists _, _, _, _.
    split; [apply getHPD_inr; [done|split; [done|reflexivity]]|].
    split; [by apply getChannelInHPD_spec|].
    split; [by apply getRBX_spec|].
    split; [by apply getChannelInRBX_spec|].
    split_and!.
    + unfold hpd_of. lia.
    + assert (hpd_channel_lookup_ m !! hpd_of i = Some (hpd_channels (hpd_of i))) as Hc.
      { apply reachable_hpd_table; [done|]. split; [unfold hpd_of; lia|done]. }
      destruct (max_count_spec (hpd_channel_lookup_ m)) as (Hmax & _).
      specialize (Hmax _ (list_elem_of_lookup_2 _ _ _ Hc)).
      fold (maxChannelsPerHPD m) in Hmax.
      pose proof (filter_seq_position (λ j, hpd_of j = hpd_of i) i ChannelCount Hi eq_refl) as Hp.
      apply lookup_lt_Some in Hp. fold (hpd_channels (hpd_of i)) in Hp. lia.
    + unfold rbx_of. lia.
    + assert (rbx_channel_lookup_ m !! rbx_of i
              = Some (filter (λ j, rbx_of j = rbx_of i) (seq 0 ChannelCount))) as Hc.
      { apply reachable_rbx_table; [done|]. split; [unfold rbx_of; lia|done]. }
      destruct (max_count_spec (rbx_channel_lookup_ m)) as (Hmax & _).
      specialize (Hmax _ (list_elem_of_lookup_2 _ _ _ Hc)).
      fold (maxChannelsPerRBX m) in Hmax.
      pose proof (filter_seq_position (λ j, rbx_of j = rbx_of i) i ChannelCount Hi eq_refl) as Hp.
      apply lookup_lt_Some in Hp. lia.
    + unfold rbx_of, hpd_of. unfold rbx_index in Hx |- *.
      rewrite (Z2Nat.id (hpd_index _)) by lia. rewrite Z2Nat.id by lia. done.
  - intros Hi. unfold getHPD, getChannelInHPD, getRBX, getChannelInRBX.
    by rewrite !bool_decide_true by lia.
Qed.

(** X4: [maxChannelsPerHPD] and [maxChannelsPerRBX] return the size of the
    largest group: no group is larger and, when there is a group at all,
    one of them has this size. *)
Theorem max_channels_spec m :
  (∀ chans, chans ∈ hpd_channel_lookup_ m → (length chans ≤ maxChannelsPerHPD m)%nat) ∧
  (hpd_channel_lookup_ m ≠ [] →
   ∃ chans, chans ∈ hpd_channel_lookup_ m ∧ length chans = maxChannelsPerHPD m) ∧
  (hpd_channel_lookup_ m = [] → maxChannelsPerHPD m = 0%nat) ∧
  (∀ chans, chans ∈ rbx_channel_lookup_ m → (length chans ≤ maxChannelsPerRBX m)%nat) ∧
  (rbx_channel_lookup_ m ≠ [] →
   ∃ chans, chans ∈ rbx_channel_lookup_ m ∧ length chans = maxChannelsPerRBX m) ∧
  (rbx_channel_lookup_ m = [] → maxChannelsPerRBX m = 0%nat).
Proof.
  destruct (max_count_spec (hpd_channel_lookup_ m)) as (H1 & H2 & H3).
  destruct (max_count_spec (rbx_channel_lookup_ m)) as (H4 & H5 & H6).
  unfold maxChannelsPerHPD, maxChannelsPerRBX. by split_and!.
Qed.

(** X5: an RBX holds whole HPDs, so the largest RBX is at least as large as
    the largest HPD; and some HPD is not empty. *)
Theorem max_channels_ordered m :
  reachable m →
  (1 ≤ maxChannelsPerHPD m)%nat ∧ (maxChannelsPerHPD m ≤ maxChannelsPerRBX m)%nat.
Proof.
  intros Hr. pose proof (reachable_hw_ok m Hr) as Hhw.
  assert (0 < ChannelCount)%nat as H0 by apply Nat.lt_0_succ.
  destruct (hw_ok_lookup 0 Hhw H0) as [Hh0 _].
  destruct (max_count_spec (hpd_channel_lookup_ m)) as (Hmax & _ & Hex).
  destruct (max_count_spec (rbx_channel_lookup_ m)) as (Hmaxr & _).
  fold (maxChannelsPerHPD m) in Hmax, Hex. fold (maxChannelsPerRBX m) in Hmaxr.
  split.
  - assert (hpd_channel_lookup_ m !! hpd_of 0 = Some (hpd_channels (hpd_of 0))) as Hc.
    { apply reachable_hpd_table; [done|]. split; [unfold hpd_of; lia|done]. }
    specialize (Hmax _ (list_elem_of_lookup_2 _ _ _ Hc)).
    pose proof (filter_seq_position (λ j, hpd_of j = hpd_of 0) 0 ChannelCount H0 eq_refl) as Hp.
    apply lookup_lt_Some in Hp. fold (hpd_channels (hpd_of 0)) in Hp. lia.
  - destruct Hex as (chans & Hin & <-).
    { intros Hnil. pose proof (reachable_hpd_table_length m Hr) as Hlen.
      rewrite Hnil in Hlen. simpl in Hlen. lia. }
    apply list_elem_of_lookup in Hin as [h Hh].
    apply reachable_hpd_table in Hh as [Hlt ->]; [|done].
    destruct (hpd_channels h) as [|i0 rest] eqn:Hch; [simpl; lia|].
    assert (i0 ∈ hpd_channels h) as Hi0 by (rewrite Hch; by left).
    apply elem_of_hpd_channels in Hi0 as [Hi0 Hh0'].
    destruct (hw_ok_lookup i0 Hhw Hi0) as [Hhi Hri].
    assert (rbx_channel_lookup_ m !! rbx_of i0
            = Some (filter (λ j, rbx_of j = rbx_of i0) (seq 0 ChannelCount))) as Hc.
    { apply reachable_rbx_table; [done|]. split; [unfold rbx_of; lia|done]. }
    specialize (Hmaxr _ (list_elem_of_lookup_2 _ _ _ Hc)).
    rewrite <- Hch. etrans; [|exact Hmaxr].
    unfold hpd_channels. apply length_filter_impl.
    intros j Hj Hjh. apply elem_of_seq in Hj.
    rewrite !rbx_of_hpd_of by (done || lia). by rewrite Hjh, Hh0'.
Qed.

End LayoutQueries.

(** ** Neighbours of a set of channels *)

Lemma StronglySorted_lt_nat_NoDup (l : list nat) : StronglySorted (<)%nat l → NoDup l.
Proof.
  induction 1 as [|x l _ IH Hx]; constructor; [|done].
  intros Hin. rewrite Forall_forall in Hx. specialize (Hx _ Hin). lia.
Qed.

Lemma StronglySorted_lt_le (l : list nat) :
  StronglySorted (<)%nat l → StronglySorted (≤)%nat l.
Proof.
  induction 1 as [|x l _ IH Hx]; constructor; [done|].
  eapply Forall_impl; [exact Hx|]. intros y Hy. simpl in Hy. lia.
Qed.

(** Two strictly increasing lists with the same elements are equal. *)
Lemma StronglySorted_lt_ext (l1 l2 : list nat) :
  StronglySorted (<)%nat l1 → StronglySorted (<)%nat l2 →
  (∀ x, x ∈ l1 ↔ x ∈ l2) → l1 = l2.
Proof.
  intros H1 H2 Hx. apply (StronglySorted_unique (≤)%nat).
  - by apply StronglySorted_lt_le.
  - by apply StronglySorted_lt_le.
  - apply NoDup_Permutation; [by apply StronglySorted_lt_nat_NoDup..|done].
Qed.

Lemma merge_sort_sorted (l : list nat) :
  StronglySorted (<)%nat l → merge_sort (≤)%nat l = l.
Proof.
  intros Hl. apply (StronglySorted_unique (≤)%nat).
  - apply (StronglySorted_merge_sort _).
  - by apply StronglySorted_lt_le.
  - apply merge_sort_Permutation.
Qed.

Lemma unique_from_spec l : ∀ prev,
  Sorted (≤)%nat (prev :: l) →
  StronglySorted (<)%nat (prev :: unique_from prev l) ∧
  (∀ x, x ∈ prev :: unique_from prev l ↔ x ∈ prev :: l) ∧
  (length (unique_from prev l) ≤ length l)%nat.
Proof.
  induction l as [|x l IH]; intros prev Hs.
  - simpl. split_and!; [|done|done]. repeat constructor.
  - apply Sorted_inv in Hs as [Hs Hhd]. apply HdRel_inv in Hhd.
    simpl. case_bool_decide as Hx.
    + subst x. destruct (IH prev Hs) as (H1 & H2 & H3).
      split_and!; [done| |lia].
      intros y. rewrite H2, !elem_of_cons. tauto.
    + destruct (IH x Hs) as (H1 & H2 & H3).
      split_and!; [| |simpl; lia].
      * constructor; [done|].
        apply StronglySorted_inv in H1 as [_ Hall].
        constructor; [lia|]. eapply Forall_impl; [exact Hall|].
        intros y Hy. simpl in Hy. lia.
      * intros y. rewrite (elem_of_cons _ y prev), H2, (elem_of_cons _ y prev). tauto.
Qed.

Lemma unique_copy_spec (l : list nat) :
  Sorted (≤)%nat l →
  StronglySorted (<)%nat (unique_copy l) ∧
  (∀ x, x ∈ unique_copy l ↔ x ∈ l) ∧
  (length (unique_copy l) ≤ length l)%nat.
Proof.
  destruct l as [|x l]; intros Hs.
  - simpl. split_and!; [constructor|done|done].
  - destruct (unique_from_spec l x Hs) as (H1 & H2 & H3). simpl.
    split_and!; [done|done|lia].
Qed.

Lemma unique_copy_sorted (l : list nat) :
  StronglySorted (<)%nat l → unique_copy l = l.
Proof.
  intros Hl.
  assert (Sorted (≤)%nat l) as Hs
    by (apply StronglySorted_Sorted; by apply StronglySorted_lt_le).
  destruct (unique_copy_spec l Hs) as (H1 & H2 & _).
  by apply StronglySorted_lt_ext.
Qed.

Lemma length_bind_le {A B} (g : A → list B) (n : nat) (l : list A) :
  (∀ x, x ∈ l → (length (g x) ≤ n)%nat) → (length (l ≫= g) ≤ n * length l)%nat.
Proof.
  induction l as [|x l IH]; intros Hg; [simpl; lia|].
  rewrite bind_cons, length_app. simpl.
  specialize (Hg x ltac:(by left)) as Hx.
  assert (length (l ≫= g) ≤ n * length l)%nat
    by (apply IH; intros y Hy; apply Hg; by right).
  lia.
Qed.

Section ChannelSetFacts.
Context {hw : HcalHPDRBXMap}.

Lemma assert_true : assert true = inr ().
Proof. reflexivity. Qed.

Lemma assert_neighbors i :
  assert (bool_decide (length (neighbors_of i) ≤ 8)%nat) = inr ().
Proof. unfold assert. by rewrite bool_decide_true by apply neighbors_of_length. Qed.

Lemma channelSet_loop m input : ∀ (acc : list nat) mi,
  map_ok mi → (mi = m ∨ mi = warm_channels m) →
  Forall (λ c, (c < ChannelCount)%nat) input →
  ∃ m',
    foldM (λ '(cands, mi) inp,
             '(chNeighbors, mi') ← channelNeigborsFromOtherHPDs mi inp;
             _ ← assert (bool_decide (length chNeighbors ≤ 8)%nat);
             mret (cands ++ chNeighbors, mi'))
          (acc, mi) input
    = inr (acc ++ (input ≫= neighbors_of), m')
    ∧ (input = [] → m' = mi) ∧ (input ≠ [] → m' = warm_channels m).
Proof.
  induction input as [|c input IH]; intros acc mi Hmi Hor Hall.
  - exists mi. simpl. rewrite app_nil_r. by split_and!.
  - apply Forall_cons in Hall as [Hc Hall].
    assert (warm_channels mi = warm_channels m) as Hwarm
      by (destruct Hor as [->| ->]; [done|apply warm_channels_idem]).
    destruct (IH (acc ++ neighbors_of c) (warm_channels mi))
      as (m' & Heq & Hnil & Hcons); [by apply warm_channels_ok|by right|done|].
    exists m'. split_and!; [|done|].
    + cbn [foldM]. cbn beta iota. rewrite channelNeigbors_spec, bind_inr by done.
      rewrite assert_neighbors, bind_inr, bind_mret, Heq.
      by rewrite bind_cons, app_assoc.
    + intros _. destruct input as [|c' input]; [|by apply Hcons].
      by rewrite Hnil.
Qed.

Lemma channelSetNeighbors_ok m input :
  map_ok m → (length input ≤ 18)%nat →
  Forall (λ c, (c < ChannelCount)%nat) input →
  channelSetNeighbors m input
  = inr (unique_copy (merge_sort (≤)%nat (input ≫= neighbors_of)),
         if input is [] then m else warm_channels m).
Proof.
  intros Hm Hlen Hall. unfold channelSetNeighbors.
  rewrite bool_decide_true by done. rewrite assert_true, bind_inr.
  destruct (channelSet_loop m input [] m Hm ltac:(by left) Hall)
    as (m' & Heq & Hnil & Hcons).
  rewrite Heq, bind_inr. cbn beta iota. cbn [app]. do 3 f_equal.
  destruct input; [by apply Hnil|by apply Hcons].
Qed.

Lemma elem_of_channelSet input j :
  j ∈ unique_copy (merge_sort (≤)%nat (input ≫= neighbors_of)) ↔
  ∃ i, i ∈ input ∧ j ∈ neighbors_of i.
Proof.
  destruct (unique_copy_spec (merge_sort (≤)%nat (input ≫= neighbors_of)))
    as (_ & H2 & _); [apply (Sorted_merge_sort _)|].
  rewrite H2, merge_sort_Permutation, list_elem_of_bind. naive_solver.
Qed.

(** X6: for at most 18 valid channel numbers, [channelSetNeighbors]
    returns in strictly increasing order exactly the numbers that occur in
    the neighbour list of one of them; neither the assertion on the number of
    neighbours nor the buffer of 18*8 candidates is ever exceeded. *)
Theorem channelSetNeighbors_union m input :
  reachable m → (length input ≤ 18)%nat →
  Forall (λ c, (c < ChannelCount)%nat) input →
  ∃ out m', channelSetNeighbors m input = inr (out, m')
    ∧ reachable m'
    ∧ StronglySorted (<)%nat out
    ∧ (length out ≤ 18 * 8)%nat
    ∧ ∀ j, j ∈ out ↔
        ∃ i l mi, i ∈ input ∧ channelNeigborsFromOtherHPDs m i = inr (l, mi) ∧ j ∈ l.
Proof.
  intros Hr Hlen Hall. pose proof (reachable_map_ok m Hr) as Hm.
  rewrite channelSetNeighbors_ok by done.
  eexists _, _. split; [reflexivity|].
  destruct (unique_copy_spec (merge_sort (≤)%nat (input ≫= neighbors_of)))
    as (H1 & _ & H3); [apply (Sorted_merge_sort _)|].
  split_and!.
  - destruct input as [|i0 input]; [done|].
    apply Forall_cons in Hall as [Hi0 _].
    eapply reach_channel; [exact Hr|]. by apply channelNeigbors_spec.
  - done.
  - etrans; [exact H3|]. rewrite merge_sort_Permutation.
    etrans; [apply (length_bind_le _ 8)|lia].
    intros; apply neighbors_of_length.
  - intros j. rewrite elem_of_channelSet. rewrite Forall_forall in Hall. split.
    + intros (i & Hi & Hj). exists i, (neighbors_of i), (warm_channels m).
      split_and!; [done| |done]. apply channelNeigbors_spec; [done|by apply Hall].
    + intros (i & l & mi & Hi & Hq & Hj). exists i. split; [done|].
      rewrite channelNeigbors_spec in Hq by (done || by apply Hall).
      apply inr_eq in Hq. by injection Hq as <- _.
Qed.

(** X7: [channelSetNeighbors] stops at a failed assertion when given more
    than 18 channels and throws [std::out_of_range] when one of at most 18
    channel numbers is not below the channel count; for no channels at all it
    returns the empty list and leaves the caches alone. *)
Theorem channelSetNeighbors_failures m input :
  reachable m →
  ((18 < length input)%nat → channelSetNeighbors m input = inl assertion_failed) ∧
  ((length input ≤ 18)%nat → Exists (λ c, (ChannelCount ≤ c)%nat) input →
   channelSetNeighbors m input = inl out_of_range) ∧
  channelSetNeighbors m [] = inr ([], m).
Proof.
  intros Hr. pose proof (reachable_map_ok m Hr) as Hm. split_and!.
  - intros Hlen. unfold channelSetNeighbors, assert.
    by rewrite bool_decide_false by lia.
  - intros Hlen Hex. unfold channelSetNeighbors.
    rewrite bool_decide_true by done. rewrite assert_true, bind_inr.
    assert (∀ (acc : list nat) mi, map_ok mi →
      foldM (λ '(cands, mi) inp,
               '(chNeighbors, mi') ← channelNeigborsFromOtherHPDs mi inp;
               _ ← assert (bool_decide (length chNeighbors ≤ 8)%nat);
               mret (cands ++ chNeighbors, mi'))
            (acc, mi) input = inl out_of_range) as Hloop.
    { clear Hlen Hm Hr. induction Hex as [c input Hc|c input Hex IH]; intros acc mi Hmi.
      - cbn [foldM]. cbn beta iota.
        by rewrite channelNeigbors_out_of_range by done.
      - cbn [foldM]. cbn beta iota.
        destruct (decide (c < ChannelCount)%nat) as [Hc|Hc].
        + rewrite channelNeigbors_spec, bind_inr by done.
          rewrite assert_neighbors, bind_inr, bind_mret.
          apply IH. by apply warm_channels_ok.
        + by rewrite channelNeigbors_out_of_range by lia. }
    by rewrite Hloop.
  - rewrite channelSetNeighbors_ok; [reflexivity|done|simpl; lia|constructor].
Qed.

(** X8: for a single channel, [channelSetNeighbors] agrees with
    [channelNeigborsFromOtherHPDs], also where that one fails. *)
Theorem channelSetNeighbors_single m i :
  reachable m →
  channelSetNeighbors m [i] = channelNeigborsFromOtherHPDs m i.
Proof.
  intros Hr. pose proof (reachable_map_ok m Hr) as Hm.
  destruct (decide (i < ChannelCount)%nat) as [Hi|Hi].
  - rewrite channelSetNeighbors_ok; [|done|simpl; lia|by apply Forall_singleton].
    rewrite channelNeigbors_spec by done.
    replace ([i] ≫= neighbors_of) with (neighbors_of i)
      by (rewrite bind_cons; symmetry; apply app_nil_r).
    rewrite merge_sort_sorted by (by apply neighbors_of_sorted).
    by rewrite unique_copy_sorted by (by apply neighbors_of_sorted).
  - unfold channelSetNeighbors.
    rewrite bool_decide_true by (simpl; lia). rewrite assert_true, bind_inr.
    cbn [foldM]. cbn beta iota.
    by rewrite channelNeigbors_out_of_range by lia.
Qed.

(** X9: applied to the channels of one HPD, [channelSetNeighbors] returns
    the list [getHPDNeigbors] returns for that HPD, provided the HPD has at
    most 18 channels. *)
Theorem channelSetNeighbors_hpd m hpd chans :
  reachable m → hpd_channel_lookup_ m !! hpd = Some chans →
  (length chans ≤ 18)%nat →
  ∃ l m1 m2, channelSetNeighbors m chans = inr (l, m1)
             ∧ getHPDNeigbors m hpd = inr (l, m2).
Proof.
  intros Hr Hl Hlen. pose proof (reachable_map_ok m Hr) as Hm.
  apply reachable_hpd_table in Hl as [Hh ->]; [|done].
  destruct (getHPDNeigbors_spec m hpd Hm Hh) as (m2 & Hq & _).
  rewrite channelSetNeighbors_ok; [|done|done|].
  2:{ apply Forall_forall. intros c Hc. by apply elem_of_hpd_channels in Hc as [? _]. }
  eexists _, _, m2. split; [reflexivity|]. rewrite Hq. do 2 f_equal.
  apply StronglySorted_lt_ext.
  - apply hpd_neighbors_of_sorted.
  - apply unique_copy_spec, (Sorted_merge_sort _).
  - intros j. rewrite elem_of_channelSet, elem_of_hpd_neighbors_of.
    setoid_rewrite elem_of_hpd_channels. naive_solver.
Qed.

End ChannelSetFacts.

(** ** The enumerated triples in closed form *)

Lemma elem_of_loop_values_1 a b e : e ∈ loop_values a b 1 ↔ a ≤ e ≤ b.
Proof.
  unfold loop_values. rewrite list_elem_of_fmap. setoid_rewrite elem_of_seqZ.
  rewrite Z.div_1_r. split.
  - intros (k & -> & Hk). lia.
  - intros He. exists (e - a). lia.
Qed.

Lemma elem_of_iphi_all p : p ∈ iphi_all ↔ 1 ≤ p ≤ 72.
Proof. apply elem_of_loop_values_1. Qed.

Lemma elem_of_iphi_odd p : p ∈ iphi_odd ↔ 1 ≤ p ≤ 72 ∧ Z.odd p = true.
Proof.
  unfold iphi_odd, loop_values. rewrite list_elem_of_fmap. setoid_rewrite elem_of_seqZ.
  change ((71 - 1) `div` 2 + 1) with 36. split.
  - intros (k & -> & Hk). split; [lia|].
    rewrite Z.odd_add_mul_2. reflexivity.
  - intros [Hp Hodd]. apply Z.odd_spec in Hodd as [k ->]. exists k. lia.
Qed.

Lemma elem_of_ring_ids skip0 d a b phis c :
  c ∈ ring_ids skip0 d a b phis ↔
  depth c = d ∧ a ≤ ieta c ≤ b ∧ (skip0 = true → ieta c ≠ 0) ∧ iphi c ∈ phis.
Proof.
  unfold ring_ids. rewrite list_elem_of_bind.
  setoid_rewrite elem_of_loop_values_1. split.
  - intros (e & Hc & He).
    destruct skip0, (Z.eqb_spec e 0); simpl in Hc;
      try (by apply elem_of_nil in Hc);
      apply list_elem_of_fmap in Hc as (p & -> & Hp); simpl;
      split_and!; try done; try lia.
  - intros (Hd & He & Hskip & Hp). exists (ieta c). split; [|done].
    assert (skip0 && (ieta c =? 0) = false) as ->.
    { destruct skip0; [|done]. simpl. apply Z.eqb_neq. by apply Hskip. }
    apply list_elem_of_fmap. exists (iphi c). split; [|done].
    destruct c; simpl in *. by subst.
Qed.

Lemma elem_of_channel_ids d e p : mkId d e p ∈ channel_ids ↔ enumerated d e p.
Proof.
  unfold channel_ids. rewrite !elem_of_app, !elem_of_ring_ids.
  rewrite !elem_of_iphi_all, !elem_of_iphi_odd. cbn [depth ieta iphi].
  unfold enumerated. split.
  - intros Hblock.
    repeat (destruct Hblock as [Hblock|Hblock]);
      destruct Hblock as (Hd & He & Hskip & Hp);
      try (specialize (Hskip eq_refl));
      (split; [lia|split; [intros ?; first [apply Hp|lia]|lia]]).
  - intros (Hp & Hodd & Hd).
    destruct (decide (21 ≤ Z.abs e)) as [H21|H21];
      [specialize (Hodd H21)|clear Hodd];
      destruct (decide (e < 0)) as [Hneg|Hneg];
      destruct Hd as [[-> Hd]|[[-> [Hd|Hd]]|[-> [Hd|Hd]]]]; try lia;
      repeat (first [ left; solve [split_and!; first [reflexivity|assumption|lia|intros; lia|intros; congruence]]
                    | right ]);
      solve [split_and!; first [reflexivity|assumption|lia|intros; lia|intros; congruence]].
Qed.

(** ** More statements about the channel map *)

Section MoreChannelMapFacts.
Context {hw : HcalHPDRBXMap}.

(** X10: a triple is valid exactly when it is one of the triples the
    constructor enumerates, which in closed form are: azimuth 1 to 72, odd
    from ring 21 on; depth 1 in rings 1 to 29, depth 2 in rings 15, 16 and
    18 to 29, depth 3 in rings 16, 27 and 28, on both sides.  [linearIndex]
    succeeds for the same triples. *)
Theorem isValidTriple_closed_form m d e p :
  reachable m →
  (isValidTriple m d e p = true ↔ enumerated d e p) ∧
  ((∃ i, linearIndex m d e p = inr i) ↔ enumerated d e p).
Proof.
  intros Hr. rewrite <- elem_of_channel_ids.
  destruct (reachable_map_ok m Hr) as [(_ & Hinv & _) _].
  unfold isValidTriple, linearIndex. rewrite Hinv.
  destruct (index_of (mkId d e p)) as [i|] eqn:Hi.
  - apply index_of_Some in Hi. apply list_elem_of_lookup_2 in Hi.
    rewrite bool_decide_true by (by eexists). split; [done|].
    split; [done|]. intros _. by eexists.
  - apply index_of_None in Hi.
    rewrite bool_decide_false by (by intros [? ?]). split; [done|].
    split; [|done]. by intros [i [=]].
Qed.

Lemma shift_eta_back e es : e ≠ 0 → shift_eta (shift_eta e es) (- es) = e.
Proof.
  intros He. unfold shift_eta.
  destruct (Z.eqb_spec (e + es) 0) as [H0|H0].
  - destruct (Z.eqb_spec (e + es + es + - es) 0); lia.
  - destruct (Z.eqb_spec (e + es + - es) 0); lia.
Qed.

Lemma wrap_phi_back p ps :
  1 ≤ p ≤ 72 → ps ∈ shifts → wrap_phi (wrap_phi (p + ps) + - ps) = p.
Proof.
  intros Hp Hps. apply elem_of_shifts in Hps. unfold wrap_phi.
  destruct (Z.eqb_spec (p + ps) 0), (Z.eqb_spec (p + ps) 73);
    repeat (match goal with
            | |- context [?a =? ?b] => destruct (Z.eqb_spec a b)
            end); lia.
Qed.

Lemma candidates_sym ci cj : id_ok ci → cj ∈ candidates ci → ci ∈ candidates cj.
Proof.
  intros (_ & He & _ & Hp). rewrite !elem_of_candidates.
  intros (es & ps & Hes & Hps & Hne & ->). exists (- es), (- ps).
  cbn [depth ieta iphi].
  rewrite shift_eta_back by lia. rewrite wrap_phi_back by done.
  rewrite elem_of_shifts in Hes, Hps. rewrite !elem_of_shifts.
  split_and!; [lia|lia|lia|by destruct ci].
Qed.

Lemma neighbors_of_sym i j :
  (i < ChannelCount)%nat → j ∈ neighbors_of i → i ∈ neighbors_of j.
Proof.
  intros Hi Hj. pose proof (neighbors_of_lt _ _ Hj) as Hjlt.
  destruct (channel_ids_lookup_lt i Hi) as (ci & Hci & Hcit).
  destruct (channel_ids_lookup_lt j Hjlt) as (cj & Hcj & Hcjt).
  apply elem_of_neighbors_of in Hj as (Hne & c' & Hc' & Hjc).
  rewrite Hcj in Hjc. injection Hjc as <-. rewrite Hcit in Hc'.
  apply elem_of_neighbors_of. split; [done|].
  exists ci. split; [|done]. rewrite Hcjt.
  apply candidates_sym; [|done]. by eapply channel_ids_lookup_ok.
Qed.

Lemma channelNeigbors_inr m i l m' :
  map_ok m → channelNeigborsFromOtherHPDs m i = inr (l, m') →
  (i < ChannelCount)%nat ∧ l = neighbors_of i ∧ m' = warm_channels m.
Proof.
  intros Hm Hq. destruct (decide (i < ChannelCount)%nat) as [Hi|Hi].
  - rewrite channelNeigbors_spec in Hq by done. apply inr_eq in Hq.
    injection Hq as <- <-. done.
  - by rewrite channelNeigbors_out_of_range in Hq by lia.
Qed.

Lemma getHPDNeigbors_inr m h l m' :
  map_ok m → getHPDNeigbors m h = inr (l, m') →
  (h < Z.to_nat NUM_HPDS)%nat ∧ l = hpd_neighbors_of h ∧ map_ok m'.
Proof.
  intros Hm Hq. destruct (decide (h < Z.to_nat NUM_HPDS)%nat) as [Hh|Hh].
  - destruct (getHPDNeigbors_spec m h Hm Hh) as (m'' & Heq & Hok & _).
    rewrite Heq in Hq. apply inr_eq in Hq. injection Hq as <- <-. done.
  - by rewrite getHPDNeigbors_out_of_range in Hq by lia.
Qed.

(** X11: being a neighbour from another HPD is symmetric: channel [j] is in
    the list of channel [i] exactly when [i] is in the list of [j]. *)
Theorem channel_neighbors_symmetric m i j li lj mi mj :
  reachable m →
  channelNeigborsFromOtherHPDs m i = inr (li, mi) →
  channelNeigborsFromOtherHPDs m j = inr (lj, mj) →
  (j ∈ li ↔ i ∈ lj).
Proof.
  intros Hr Hi Hj. pose proof (reachable_map_ok m Hr) as Hm.
  apply channelNeigbors_inr in Hi as (Hilt & -> & _); [|done].
  apply channelNeigbors_inr in Hj as (Hjlt & -> & _); [|done].
  split; by apply neighbors_of_sym.
Qed.

(** X12: the list returned for an HPD holds valid channel numbers of other
    HPDs only, and each of these HPDs has in turn a channel of the first
    HPD in its list. *)
Theorem hpd_neighbors_foreign m hpd l m' :
  reachable m → getHPDNeigbors m hpd = inr (l, m') →
  ∀ j, j ∈ l →
    ∃ hj, getHPD m j = inr hj ∧ hj ≠ hpd ∧
          ∃ c lj mj, getHPD m c = inr hpd ∧
                     getHPDNeigbors m hj = inr (lj, mj) ∧ c ∈ lj.
Proof.
  intros Hr Hq j Hj. pose proof (reachable_map_ok m Hr) as Hm.
  pose proof (reachable_hw_ok m Hr) as Hhw.
  apply getHPDNeigbors_inr in Hq as (Hh & -> & _); [|done].
  apply elem_of_hpd_neighbors_of in Hj as (c & Hc & Hch & Hj).
  pose proof (neighbors_of_lt _ _ Hj) as Hjlt.
  pose proof (neighbors_of_sym _ _ Hc Hj) as Hcj.
  apply elem_of_neighbors_of in Hj as (Hne & _).
  exists (hpd_of j). split; [by apply getHPD_inr|]. split; [congruence|].
  assert (hpd_of j < Z.to_nat NUM_HPDS)%nat as Hhj.
  { destruct (hw_ok_lookup j Hhw Hjlt) as [Hx _]. unfold hpd_of. lia. }
  destruct (getHPDNeigbors_spec m (hpd_of j) Hm Hhj) as (mj & Heq & _).
  exists c, (hpd_neighbors_of (hpd_of j)), mj.
  split; [by apply getHPD_inr|]. split; [done|].
  apply elem_of_hpd_neighbors_of. by exists j.
Qed.

(** X13: what a query returns does not depend on the queries made before:
    any two objects met during a run give the same neighbour lists and the
    same results of every accessor. *)
Theorem answers_independent_of_history m1 m2 :
  reachable m1 → reachable m2 →
  (∀ i l1 l2 s1 s2,
     channelNeigborsFromOtherHPDs m1 i = inr (l1, s1) →
     channelNeigborsFromOtherHPDs m2 i = inr (l2, s2) → l1 = l2) ∧
  (∀ h l1 l2 s1 s2,
     getHPDNeigbors m1 h = inr (l1, s1) →
     getHPDNeigbors m2 h = inr (l2, s2) → l1 = l2) ∧
  (∀ i, getChannelTriple m1 i = getChannelTriple m2 i) ∧
  (∀ d e p, linearIndex m1 d e p = linearIndex m2 d e p) ∧
  (∀ d e p, isValidTriple m1 d e p = isValidTriple m2 d e p) ∧
  (∀ i, getHPD m1 i = getHPD m2 i) ∧
  (∀ i, getChannelInHPD m1 i = getChannelInHPD m2 i) ∧
  (∀ i, getRBX m1 i = getRBX m2 i) ∧
  (∀ i, getChannelInRBX m1 i = getChannelInRBX m2 i) ∧
  maxChannelsPerHPD m1 = maxChannelsPerHPD m2 ∧
  maxChannelsPerRBX m1 = maxChannelsPerRBX m2.
Proof.
  intros Hr1 Hr2.
  pose proof (reachable_map_ok m1 Hr1) as Hm1.
  pose proof (reachable_map_ok m2 Hr2) as Hm2.
  destruct (reachable_tables m1 Hr1) as (m0 & Hnew & Ht1).
  destruct (reachable_tables m2 Hr2) as (m0' & Hnew' & Ht2).
  rewrite Hnew in Hnew'. apply inr_eq in Hnew'. subst m0'. clear Hnew.
  rewrite <- Ht2 in Ht1. clear Ht2 m0. unfold tables in Ht1.
  injection Ht1 as E1 E2 E3 E4 E5 E6 E7 E8.
  split_and!.
  - intros i l1 l2 s1 s2 H1 H2.
    apply channelNeigbors_inr in H1 as (_ & -> & _); [|exact Hm1].
    apply channelNeigbors_inr in H2 as (_ & -> & _); [|exact Hm2]. reflexivity.
  - intros h l1 l2 s1 s2 H1 H2.
    apply getHPDNeigbors_inr in H1 as (_ & -> & _); [|exact Hm1].
    apply getHPDNeigbors_inr in H2 as (_ & -> & _); [|exact Hm2]. reflexivity.
  - intros i. unfold getChannelTriple. by rewrite E1.
  - intros d e p. unfold linearIndex. by rewrite E2.
  - intros d e p. unfold isValidTriple. by rewrite E2.
  - intros i. unfold getHPD. by rewrite E3.
  - intros i. unfold getChannelInHPD. by rewrite E4.
  - intros i. unfold getRBX. by rewrite E6.
  - intros i. unfold getChannelInRBX. by rewrite E7.
  - unfold maxChannelsPerHPD. by rewrite E5.
  - unfold maxChannelsPerRBX. by rewrite E8.
Qed.

Lemma ctor_loop_outcome n :
  (n ≤ ChannelCount)%nat →
  (∃ m, foldM register_channel (initial_map channel_ids) (seq 0 n) = inr m) ∨
  foldM register_channel (initial_map channel_ids) (seq 0 n) = inl assertion_failed.
Proof.
  induction n as [|n IH]; intros Hn.
  - left. by eexists.
  - rewrite seq_S, foldM_app. destruct IH as [[m1 Hm1]|Hfail]; [lia| |].
    + rewrite Hm1, bind_inr. cbn [foldM].
      pose proof (ctor_loop_inv n ltac:(lia) m1 Hm1) as (Hlk & _).
      destruct (channel_ids_lookup_lt n ltac:(lia)) as (c & Hc & _).
      rewrite (register_channel_spec m1 n c)
        by (rewrite ?Hlk; eauto using channel_ids_lookup_ok).
      case_bool_decide; [left; by eexists|by right].
    + right. by rewrite Hfail.
Qed.

(** X14: the constructor succeeds exactly when the hardware mapping gives
    every enumerated channel an HPD number below [NUM_HPDS] and its HPD an
    RBX number below [NUM_RBXS] (neither negative); otherwise it stops at one
    of its two range assertions. *)
Theorem constructor_outcome :
  ((∃ m, HBHEChannelMap_new = inr m) ↔ hw_ok) ∧
  (HBHEChannelMap_new = inl assertion_failed ↔ ¬ hw_ok).
Proof.
  assert ((∃ m, HBHEChannelMap_new = inr m) → hw_ok) as Hinr.
  { intros [m Hm]. apply new_ctor_state, ctor_state_geom in Hm.
    by destruct Hm as (_ & _ & _ & _ & _ & Hhw). }
  split; [split; [exact Hinr|apply new_total]|].
  split.
  - intros Hfail Hhw. destruct (new_total Hhw) as [m Hm].
    rewrite Hm in Hfail. discriminate Hfail.
  - intros Hhw. rewrite HBHEChannelMap_new_unfold.
    destruct (ctor_loop_outcome ChannelCount (le_n _)) as [Hok|Hfail]; [|exact Hfail].
    exfalso. apply Hhw, Hinr. by rewrite HBHEChannelMap_new_unfold.
Qed.

End MoreChannelMapFacts.

(** ** fillTuplesFromText *)

Lemma take_line_complete line rest :
  newline ∉ line → take_line (line ++ newline :: rest) = (line, Some rest).
Proof.
  induction line as [|c line IH]; intros Hnl; cbn [app take_line].
  - by rewrite Ascii.eqb_refl.
  - apply not_elem_of_cons in Hnl as [Hc Hnl].
    destruct (Ascii.eqb_spec c newline) as [->|_]; [done|].
    by rewrite IH.
Qed.

Lemma take_line_unterminated line :
  newline ∉ line → take_line line = (line, None).
Proof.
  induction line as [|c line IH]; intros Hnl; cbn [take_line]; [done|].
  apply not_elem_of_cons in Hnl as [Hc Hnl].
  destruct (Ascii.eqb_spec c newline) as [->|_]; [done|].
  by rewrite IH.
Qed.

Lemma getline_complete line rest str :
  newline ∉ line →
  getline (fresh_stream (line ++ newline :: rest)) str = (fresh_stream rest, line).
Proof. intros Hnl. unfold getline. simpl. by rewrite take_line_complete. Qed.

Lemma getline_unterminated line str :
  newline ∉ line → line ≠ [] →
  getline (fresh_stream line) str = (mkStream [] true false false, line).
Proof.
  intros Hnl Hne. unfold getline. simpl. rewrite take_line_unterminated by done.
  by destruct line.
Qed.

Lemma stream_ok_fresh text : stream_ok (fresh_stream text) = true.
Proof. reflexivity. Qed.

Lemma stream_ok_failbit p e b : stream_ok (mkStream p e true b) = false.
Proof. reflexivity. Qed.

Lemma getline_exhausted str :
  getline (fresh_stream []) str = (mkStream [] true true false, []).
Proof. reflexivity. Qed.

Lemma getline_at_eof str :
  getline (mkStream [] true false false) str = (mkStream [] true true false, str).
Proof. reflexivity. Qed.

(** *** The scan of one line *)

Lemma isspace_space : isspace space = true.
Proof. reflexivity. Qed.

Lemma isspace_comma : isspace comma = false.
Proof. reflexivity. Qed.

Lemma scan_char_blank hasCommas c :
  isspace (if hasCommas && Ascii.eqb c comma then space else c) = true
  ↔ blank hasCommas c.
Proof.
  unfold blank. destruct hasCommas; simpl.
  - destruct (Ascii.eqb_spec c comma) as [->|Hc].
    + rewrite isspace_space. split; [intros _; by right|done].
    + split; [by left|]. intros [?|[_ ?]]; done.
  - split; [by left|]. by intros [?|[? _]].
Qed.

Lemma scan_char_hash hasCommas c :
  isspace (if hasCommas && Ascii.eqb c comma then space else c) = false →
  Ascii.eqb (if hasCommas && Ascii.eqb c comma then space else c) hash
  = Ascii.eqb c hash.
Proof.
  destruct hasCommas; simpl; [|done].
  destruct (Ascii.eqb_spec c comma) as [->|Hc]; [|done].
  by rewrite isspace_space.
Qed.

Lemma scan_line_seen hasCommas line :
  (scan_line hasCommas false line).1.2 = false ∧
  (scan_line hasCommas false line).2 = false.
Proof.
  induction line as [|c line IH]; simpl; [done|].
  destruct (isspace _).
  - by destruct (scan_line hasCommas false line) as [[? ?] ?].
  - by destruct (scan_line hasCommas false line) as [[? ?] ?].
Qed.

Lemma scan_line_verdict hasCommas line :
  (scan_line hasCommas true line).1.2 || (scan_line hasCommas true line).2 = true ↔
  ∃ pre rest, line = pre ++ rest ∧ Forall (blank hasCommas) pre ∧
              (rest = [] ∨ ∃ r, rest = hash :: r).
Proof.
  induction line as [|c line IH]; simpl.
  - split; [|done]. intros _. exists [], []. split_and!; [done|constructor|by left].
  - destruct (isspace (if hasCommas && Ascii.eqb c comma then space else c)) eqn:Hsp.
    + apply scan_char_blank in Hsp.
      destruct (scan_line hasCommas true line) as [[l' ic] asp]. simpl in *.
      rewrite IH. split.
      * intros (pre & rest & -> & Hpre & Hrest). exists (c :: pre), rest.
        split_and!; [done|by constructor|done].
      * intros (pre & rest & Heq & Hpre & Hrest).
        destruct pre as [|c' pre].
        -- simpl in Heq. subst rest. destruct Hrest as [?|[r [= -> ->]]]; [done|].
           exfalso. destruct Hsp as [Hsp|[_ Hsp]]; done.
        -- injection Heq as -> ->. apply Forall_cons in Hpre as [_ Hpre].
           by exists pre, rest.
    + pose proof (scan_char_hash _ _ Hsp) as Hh. simpl. rewrite Hh.
      assert (¬ blank hasCommas c) as Hnb
        by (rewrite <- scan_char_blank, Hsp; done).
      destruct (Ascii.eqb_spec c hash) as [->|Hc]; simpl.
      * split; [|done]. intros _. exists [], (hash :: line).
        split_and!; [done|constructor|right; by eexists].
      * destruct (scan_line_seen hasCommas line) as [H1 H2].
        destruct (scan_line hasCommas false line) as [[l' ic] asp]. simpl in *.
        subst ic asp. split; [done|].
        intros (pre & rest & Heq & Hpre & Hrest). exfalso.
        destruct pre as [|c' pre].
        -- simpl in Heq. subst rest. destruct Hrest as [?|[r [= -> ->]]]; done.
        -- injection Heq as -> ->. by apply Forall_cons in Hpre as [? _].
Qed.

(** X15: the scan of a line ends with [isComment] or [allSpace] set, so
    that the line is passed over, exactly when the first character of the
    line that is not white space is [#], or when there is no such character;
    with [hasCommasBetweenValues], commas count as white space. *)
Theorem scan_line_skips hasCommas line :
  (scan_line hasCommas true line).1.2 || (scan_line hasCommas true line).2 = true ↔
  ∃ pre rest, line = pre ++ rest ∧ Forall (blank hasCommas) pre ∧
              (rest = [] ∨ ∃ r, rest = hash :: r).
Proof. apply scan_line_verdict. Qed.

Lemma scan_line_length hasCommas allSpace line :
  length (scan_line hasCommas allSpace line).1.1 = length line.
Proof.
  revert allSpace. induction line as [|c line IH]; intros allSpace; simpl; [done|].
  destruct (isspace _).
  - specialize (IH allSpace).
    destruct (scan_line hasCommas allSpace line) as [[? ?] ?]. simpl in *. by rewrite IH.
  - destruct (allSpace && _); simpl; [done|].
    specialize (IH false).
    destruct (scan_line hasCommas false line) as [[? ?] ?]. simpl in *. by rewrite IH.
Qed.

Lemma scan_char_idem hasCommas c :
  let c' := if hasCommas && Ascii.eqb c comma then space else c in
  (if hasCommas && Ascii.eqb c' comma then space else c') = c'.
Proof.
  destruct hasCommas; simpl; [|done].
  destruct (Ascii.eqb_spec c comma) as [->|Hc]; [done|].
  by destruct (Ascii.eqb_spec c comma).
Qed.

(** Scanning a line a second time changes nothing. *)
Lemma scan_line_idem hasCommas allSpace line :
  scan_line hasCommas allSpace (scan_line hasCommas allSpace line).1.1
  = scan_line hasCommas allSpace line.
Proof.
  revert allSpace. induction line as [|c line IH]; intros allSpace; [done|].
  cbn [scan_line]. cbv zeta.
  pose proof (scan_char_idem hasCommas c) as Hc. cbv zeta in Hc.
  destruct (isspace (if hasCommas && Ascii.eqb c comma then space else c)) eqn:Hsp.
  - specialize (IH allSpace).
    destruct (scan_line hasCommas allSpace line) as [[l' ic] asp] eqn:Hs.
    cbn [fst snd] in *. cbn [scan_line]. cbv zeta. rewrite Hc, Hsp, IH. done.
  - destruct (allSpace && Ascii.eqb _ hash) eqn:Hh.
    + cbn [fst snd]. cbn [scan_line]. cbv zeta. by rewrite Hc, Hsp, Hh.
    + specialize (IH false).
      destruct (scan_line hasCommas false line) as [[l' ic] asp] eqn:Hs.
      cbn [fst snd] in *. cbn [scan_line]. cbv zeta. rewrite Hc, Hsp, Hh, IH. done.
Qed.

Section FillTuplesFacts.
Context {T : Type} (read_tuple : list ascii → option T).

Lemma skipped_scanned hasCommas line :
  skipped hasCommas (scanned hasCommas line) = skipped hasCommas line.
Proof.
  unfold skipped, scanned.
  pose proof (scan_line_length hasCommas true line) as Hlen.
  pose proof (scan_line_idem hasCommas true line) as Hidem.
  destruct line as [|c line].
  - done.
  - destruct ((scan_line hasCommas true (c :: line)).1.1) as [|c' l'] eqn:Hs;
      [by simpl in Hlen|].
    by rewrite Hidem.
Qed.

Lemma scanned_scanned hasCommas line :
  scanned hasCommas (scanned hasCommas line) = scanned hasCommas line.
Proof. unfold scanned. by rewrite scan_line_idem. Qed.

Lemma fill_loop_stop fuel hasCommas maxN (st : tuple_fill (T:=T)) :
  fill_continues maxN st = false → fill_loop read_tuple fuel hasCommas maxN st = st.
Proof. intros Hc. destruct fuel; simpl; [done|]. by rewrite Hc. Qed.

Lemma fill_loop_S fuel hasCommas maxN (st : tuple_fill (T:=T)) :
  fill_loop read_tuple (S fuel) hasCommas maxN st
  = if fill_continues maxN st
    then fill_loop read_tuple fuel hasCommas maxN (fill_step read_tuple hasCommas st)
    else st.
Proof. reflexivity. Qed.

Lemma fill_continues_fresh maxN text lb status n (tf : list T) :
  fill_continues maxN (mkFill (fresh_stream text) lb status n tf)
  = status && (n <? maxN)%N.
Proof. reflexivity. Qed.

Lemma fill_continues_eof maxN lb status n (tf : list T) :
  fill_continues maxN (mkFill (mkStream [] true false false) lb status n tf)
  = status && (n <? maxN)%N.
Proof. reflexivity. Qed.

Lemma fill_continues_failed maxN lb status n (tf : list T) :
  fill_continues maxN (mkFill (mkStream [] true true false) lb status n tf) = false.
Proof. reflexivity. Qed.

(** One round on a stream that holds a complete line. *)
Lemma fill_step_line hasCommas line rest lb status n (tf : list T) :
  newline ∉ line →
  fill_step read_tuple hasCommas
    (mkFill (fresh_stream (line ++ newline :: rest)) lb status n tf)
  = if skipped hasCommas line then
      mkFill (fresh_stream rest) (scanned hasCommas line) status n tf
    else match read_tuple (scanned hasCommas line) with
         | Some buf =>
             mkFill (fresh_stream rest) (scanned hasCommas line) true (n + 1)%N
                    (tf ++ [buf])
         | None => mkFill (fresh_stream rest) (scanned hasCommas line) false n tf
         end.
Proof.
  intros Hnl. unfold fill_step. cbn [f_stream f_linebuf].
  rewrite getline_complete by done.
  unfold skipped, scanned. destruct line as [|c line]; [done|].
  destruct (scan_line hasCommas true (c :: line)) as [[l' ic] asp]. done.
Qed.

Lemma fill_loop_lines hasCommas maxN lines : ∀ fuel lb n (tf : list T) tail,
  Forall (λ line, newline ∉ line) lines →
  ∃ lb' sfx,
    fill_loop read_tuple (length lines + fuel) hasCommas maxN
      (mkFill (fresh_stream (text_of_lines lines ++ tail)) lb true n tf)
    = fill_loop read_tuple fuel hasCommas maxN
        (mkFill (fresh_stream sfx) lb'
           (fill_lines read_tuple hasCommas maxN n lines).1
           (n + N.of_nat (length (fill_lines read_tuple hasCommas maxN n lines).2))%N
           (tf ++ (fill_lines read_tuple hasCommas maxN n lines).2))
    ∧ ((fill_lines read_tuple hasCommas maxN n lines).1 = true →
       (n + N.of_nat (length (fill_lines read_tuple hasCommas maxN n lines).2)
        < maxN)%N →
       sfx = tail).
Proof.
  induction lines as [|line lines IH]; intros fuel lb n tf tail Hall.
  - exists lb, tail. simpl. rewrite N.add_0_r, app_nil_r. done.
  - apply Forall_cons in Hall as [Hnl Hall].
    cbn [fill_lines]. destruct (N.ltb_spec n maxN) as [Hlt|Hge].
    + cbn [length Nat.add]. rewrite fill_loop_S, fill_continues_fresh.
      rewrite (proj2 (N.ltb_lt _ _) Hlt). cbn [andb].
      unfold text_of_lines. rewrite bind_cons, <- !app_assoc. cbn [app].
      fold (text_of_lines lines).
      rewrite fill_step_line by done.
      destruct (skipped hasCommas line).
      * apply IH, Hall.
      * destruct (read_tuple (scanned hasCommas line)) as [buf|].
        -- destruct (IH fuel (scanned hasCommas line) (n + 1)%N (tf ++ [buf]) tail Hall)
             as (lb' & sfx & Heq & Htail).
           destruct (fill_lines read_tuple hasCommas maxN (n + 1) lines)
             as [status rows].
           cbn [fst snd length] in *. exists lb', sfx.
           rewrite Heq, <- app_assoc. cbn [app].
           replace (n + 1 + N.of_nat (length rows))%N
             with (n + N.of_nat (S (length rows)))%N in * by lia.
           done.
        -- exists (scanned hasCommas line), (text_of_lines lines ++ tail).
           cbn [fst snd length]. rewrite N.add_0_r, app_nil_r.
           rewrite !fill_loop_stop by done. done.
    + exists lb, (text_of_lines (line :: lines) ++ tail).
      cbn [fst snd length]. rewrite N.add_0_r, app_nil_r.
      assert (fill_continues maxN
                (mkFill (fresh_stream (text_of_lines (line :: lines) ++ tail))
                        lb true n tf) = false) as Hstop.
      { unfold fill_continues. cbn [f_stream f_status f_nfilled].
        rewrite (proj2 (N.ltb_ge _ _) Hge). by rewrite andb_false_r. }
      rewrite !fill_loop_stop by done. split; [done|]. intros _ ?. lia.
Qed.

Lemma text_of_lines_length lines :
  (length lines ≤ length (text_of_lines lines))%nat.
Proof.
  unfold text_of_lines. induction lines as [|l lines IH]; [done|].
  rewrite bind_cons, !length_app. simpl. lia.
Qed.

Lemma fillTuplesFromText_unfold s tofill hasCommas maxN :
  maxN ≠ 0%N →
  (fillTuplesFromText read_tuple s tofill hasCommas maxN).1
  = fill_result (fill_loop read_tuple (S (S (length (pending s)))) hasCommas maxN
                   (mkFill s [] true 0 tofill)).
Proof.
  intros Hmax. unfold fillTuplesFromText, fill_result.
  by rewrite (proj2 (N.eqb_neq _ _) Hmax).
Qed.

(** The end of the input, reached with a good stream. *)
Lemma fill_loop_exhausted fuel hasCommas maxN lb status n (tf : list T) :
  fill_result (fill_loop read_tuple (S (S fuel)) hasCommas maxN
                 (mkFill (fresh_stream []) lb status n tf))
  = (status, tf).
Proof.
  rewrite fill_loop_S. destruct (fill_continues maxN _) eqn:Hc; [|done].
  unfold fill_step. cbn [f_stream f_linebuf]. rewrite getline_exhausted.
  cbn [f_status f_nfilled f_tofill].
  by rewrite fill_loop_stop by apply fill_continues_failed.
Qed.

Lemma fill_text_lines lines tofill hasCommas maxN :
  Forall (λ line, newline ∉ line) lines →
  (fillTuplesFromText read_tuple (fresh_stream (text_of_lines lines)) tofill
     hasCommas maxN).1
  = ((fill_lines read_tuple hasCommas maxN 0 lines).1,
     tofill ++ (fill_lines read_tuple hasCommas maxN 0 lines).2).
Proof.
  intros Hall. destruct (decide (maxN = 0%N)) as [->|Hmax].
  - unfold fillTuplesFromText. cbn [N.eqb fst].
    destruct lines; cbn [fill_lines N.ltb N.compare fst snd]; by rewrite app_nil_r.
  - rewrite fillTuplesFromText_unfold by done. cbn [pending fresh_stream].
    pose proof (text_of_lines_length lines) as Hlen.
    replace (S (S (length (text_of_lines lines))))
      with (length lines + S (S (length (text_of_lines lines) - length lines)))%nat
      by lia.
    destruct (fill_loop_lines hasCommas maxN lines
                (S (S (length (text_of_lines lines) - length lines))) [] 0%N tofill []
                Hall) as (lb' & sfx & Heq & Htail).
    rewrite app_nil_r in Heq. rewrite Heq. clear Heq.
    destruct (fill_lines read_tuple hasCommas maxN 0 lines) as [status rows].
    cbn [fst snd] in *.
    destruct (fill_continues maxN
                (mkFill (fresh_stream sfx) lb' status (0 + N.of_nat (length rows)) 
                   (tofill ++ rows))) eqn:Hc.
    + unfold fill_continues in Hc. cbn [f_stream f_status f_nfilled] in Hc.
      apply andb_prop in Hc as [Hc Hn]. apply andb_prop in Hc as [_ Hs].
      apply N.ltb_lt in Hn. rewrite (Htail Hs Hn).
      apply fill_loop_exhausted.
    + rewrite fill_loop_stop by done. done.
Qed.

Lemma fill_lines_stop hasCommas maxN n lines :
  (maxN ≤ n)%N → fill_lines read_tuple hasCommas maxN n lines = (true, []).
Proof.
  intros Hge. destruct lines; [done|]. cbn [fill_lines].
  by rewrite (proj2 (N.ltb_ge _ _) Hge).
Qed.

Lemma fill_lines_app hasCommas maxN lines k : ∀ n,
  fill_lines read_tuple hasCommas maxN n (lines ++ k)
  = if (fill_lines read_tuple hasCommas maxN n lines).1
       && (n + N.of_nat (length (fill_lines read_tuple hasCommas maxN n lines).2)
           <? maxN)%N
    then ((fill_lines read_tuple hasCommas maxN
             (n + N.of_nat (length (fill_lines read_tuple hasCommas maxN n lines).2))
             k).1,
          (fill_lines read_tuple hasCommas maxN n lines).2
          ++ (fill_lines read_tuple hasCommas maxN
                (n + N.of_nat (length (fill_lines read_tuple hasCommas maxN n lines).2))
                k).2)
    else fill_lines read_tuple hasCommas maxN n lines.
Proof.
  induction lines as [|line lines IH]; intros n.
  - cbn [app fill_lines fst snd length N.of_nat andb]. rewrite N.add_0_r.
    destruct (N.ltb_spec n maxN) as [Hlt|Hge].
    + by destruct (fill_lines read_tuple hasCommas maxN n k).
    + by apply fill_lines_stop.
  - cbn [app fill_lines]. destruct (N.ltb_spec n maxN) as [Hlt|Hge].
    + destruct (skipped hasCommas line); [apply IH|].
      destruct (read_tuple (scanned hasCommas line)) as [buf|]; [|done].
      rewrite IH.
      destruct (fill_lines read_tuple hasCommas maxN (n + 1) lines) as [status rows].
      cbn [fst snd length].
      replace (n + N.of_nat (S (length rows)))%N
        with (n + 1 + N.of_nat (length rows))%N by lia.
      destruct (status && _); [|done].
      by destruct (fill_lines read_tuple hasCommas maxN
                     (n + 1 + N.of_nat (length rows)) k).
    + cbn [fst snd length N.of_nat andb]. rewrite N.add_0_r.
      by rewrite (proj2 (N.ltb_ge _ _) Hge).
Qed.

Lemma fill_text_unterminated lines last tofill hasCommas maxN :
  Forall (λ line, newline ∉ line) lines → newline ∉ last → last ≠ [] →
  (fillTuplesFromText read_tuple (fresh_stream (text_of_lines lines ++ last)) tofill
     hasCommas maxN).1
  = (fillTuplesFromText read_tuple
       (fresh_stream (text_of_lines (lines ++ [last; last]))) tofill
       hasCommas maxN).1.
Proof.
  intros Hall Hnl Hne.
  rewrite (fill_text_lines (lines ++ [last; last]))
    by (apply Forall_app; split; [done|by repeat constructor]).
  destruct (decide (maxN = 0%N)) as [->|Hmax].
  - unfold fillTuplesFromText. cbn [N.eqb fst].
    destruct lines; cbn [app fill_lines N.ltb N.compare fst snd]; by rewrite app_nil_r.
  - rewrite fillTuplesFromText_unfold by done. cbn [pending fresh_stream].
    pose proof (text_of_lines_length lines) as Hlen.
    assert (1 ≤ length last)%nat as Hlast by (destruct last; [done|simpl; lia]).
    rewrite length_app.
    replace (S (S (length (text_of_lines lines) + length last)))
      with (length lines
            + S (S (S (length (text_of_lines lines) - length lines + (length last - 1)))))%nat
      by lia.
    generalize (length (text_of_lines lines) - length lines + (length last - 1))%nat.
    intros fuel.
    destruct (fill_loop_lines hasCommas maxN lines (S (S (S fuel))) [] 0%N tofill last
                Hall) as (lb' & sfx & Heq & Htail).
    rewrite Heq. clear Heq.
    assert (∀ n (tf : list T) lb,
      fill_result (fill_loop read_tuple (S (S (S fuel))) hasCommas maxN
                     (mkFill (fresh_stream last) lb true n tf))
      = ((fill_lines read_tuple hasCommas maxN n [last; last]).1,
         tf ++ (fill_lines read_tuple hasCommas maxN n [last; last]).2)) as Hlast2.
    { intros n tf lb. cbn [fill_lines].
      rewrite fill_loop_S, fill_continues_fresh. cbn [andb].
      destruct (N.ltb_spec n maxN) as [Hlt|Hge];
        [|cbn [fst snd]; by rewrite app_nil_r].
      assert (fill_step read_tuple hasCommas (mkFill (fresh_stream last) lb true n tf)
              = if skipped hasCommas last then
                  mkFill (mkStream [] true false false) (scanned hasCommas last) true n tf
                else match read_tuple (scanned hasCommas last) with
                     | Some buf =>
                         mkFill (mkStream [] true false false) (scanned hasCommas last)
                                true (n + 1)%N (tf ++ [buf])
                     | None => mkFill (mkStream [] true false false)
                                      (scanned hasCommas last) false n tf
                     end) as ->.
      { unfold fill_step. cbn [f_stream f_linebuf].
        rewrite getline_unterminated by done.
        unfold skipped, scanned. destruct last as [|c l]; [done|].
        destruct (scan_line hasCommas true (c :: l)) as [[l' ic] asp]. done. }
      assert (∀ status n' (tf' : list T),
        fill_step read_tuple hasCommas
          (mkFill (mkStream [] true false false) (scanned hasCommas last) status n' tf')
        = if skipped hasCommas last then
            mkFill (mkStream [] true true false) (scanned hasCommas last) status n' tf'
          else match read_tuple (scanned hasCommas last) with
               | Some buf =>
                   mkFill (mkStream [] true true false) (scanned hasCommas last)
                          true (n' + 1)%N (tf' ++ [buf])
               | None => mkFill (mkStream [] true true false)
                                (scanned hasCommas last) false n' tf'
               end) as Hsecond.
      { intros status n' tf'. unfold fill_step. cbn [f_stream f_linebuf].
        rewrite getline_at_eof.
        pose proof (skipped_scanned hasCommas last) as Hsk.
        pose proof (scanned_scanned hasCommas last) as Hsc.
        pose proof (scan_line_length hasCommas true last) as Hl.
        fold (scanned hasCommas last) in Hl.
        unfold skipped in Hsk at 1. unfold scanned in Hsc at 1.
        destruct (scanned hasCommas last) as [|c l] eqn:Hs;
          [destruct last; [done|by simpl in Hl]|].
        destruct (scan_line hasCommas true (c :: l)) as [[l' ic] asp].
        cbn [fst snd] in Hsc. subst l'. rewrite Hsk. done. }
      destruct (skipped hasCommas last) eqn:Hsk.
      - rewrite fill_loop_S, fill_continues_eof.
        rewrite (proj2 (N.ltb_lt _ _) Hlt). cbn [andb].
        rewrite Hsecond. rewrite fill_loop_stop by apply fill_continues_failed.
        cbn [fst snd]. by rewrite app_nil_r.
      - destruct (read_tuple (scanned hasCommas last)) as [buf|] eqn:Hrd.
        + rewrite fill_loop_S, fill_continues_eof. cbn [andb].
          destruct (N.ltb_spec (n + 1) maxN) as [Hlt'|Hge'].
          * rewrite Hsecond. rewrite fill_loop_stop by apply fill_continues_failed.
            cbn [fst snd]. by rewrite <- app_assoc.
          * cbn [fst snd]. done.
        + rewrite fill_loop_stop by (by rewrite fill_continues_eof).
          cbn [fst snd]. by rewrite app_nil_r. }
    rewrite fill_lines_app.
    destruct (fill_lines read_tuple hasCommas maxN 0 lines) as [status rows].
    cbn [fst snd] in *.
    destruct status; cbn [andb].
    + destruct (N.ltb_spec (0 + N.of_nat (length rows)) maxN) as [Hlt|Hge].
      * rewrite (Htail eq_refl Hlt), Hlast2. cbn [fst snd]. by rewrite app_assoc.
      * rewrite fill_loop_stop; [done|].
        unfold fill_continues. cbn [f_stream f_status f_nfilled].
        rewrite (proj2 (N.ltb_ge _ _) Hge). by rewrite andb_false_r.
    + rewrite fill_loop_stop; [done|].
      unfold fill_continues. cbn [f_stream f_status f_nfilled].
      by rewrite andb_false_r.
Qed.

(** X16: on a text made of complete lines, the call returns the status and
    appends the tuples that reading the lines one after the other gives:
    lines passed over add nothing, reading stops at the first line that
    cannot be read, with status [false] and the tuples read so far kept, and
    at [maxElementsToFill] tuples. *)
Theorem fillTuplesFromText_lines lines tofill hasCommas maxN :
  Forall (λ line, newline ∉ line) lines →
  (fillTuplesFromText read_tuple (fresh_stream (text_of_lines lines)) tofill
     hasCommas maxN).1
  = ((fill_lines read_tuple hasCommas maxN 0 lines).1,
     tofill ++ (fill_lines read_tuple hasCommas maxN 0 lines).2).
Proof. apply fill_text_lines. Qed.

(** X17: when the last line of the input is not ended by a newline, that
    line is processed twice: the outcome is the one for the same text with
    the last line completed and repeated. *)
Theorem fillTuplesFromText_unterminated lines last tofill hasCommas maxN :
  Forall (λ line, newline ∉ line) lines → newline ∉ last → last ≠ [] →
  (fillTuplesFromText read_tuple (fresh_stream (text_of_lines lines ++ last)) tofill
     hasCommas maxN).1
  = (fillTuplesFromText read_tuple
       (fresh_stream (text_of_lines (lines ++ [last; last]))) tofill
       hasCommas maxN).1.
Proof. apply fill_text_unterminated. Qed.

(** X18: the loop ends for every stream, whatever its state bits: each
    round extracts a character or leaves the stream failed, so that two
    rounds more than there are characters suffice and further rounds change
    nothing. *)
Theorem fill_loop_enough hasCommas maxN (st : tuple_fill (T:=T)) fuel :
  (length (pending (f_stream st)) + 2 ≤ fuel)%nat →
  fill_continues maxN (fill_loop read_tuple fuel hasCommas maxN st) = false ∧
  fill_loop read_tuple fuel hasCommas maxN st
  = fill_loop read_tuple (length (pending (f_stream st)) + 2) hasCommas maxN st.
Proof.
  set (mu := λ st : tuple_fill (T:=T),
         if stream_ok (f_stream st) then
           if stream_good (f_stream st) then (length (pending (f_stream st)) + 2)%nat
           else 1%nat
         else 0%nat).
  assert (∀ st, fill_continues maxN st = true →
                (mu (fill_step read_tuple hasCommas st) < mu st)%nat) as Hstep.
  { clear. intros st Hc. unfold fill_continues in Hc.
    apply andb_prop in Hc as [Hc _]. apply andb_prop in Hc as [Hok _].
    unfold mu. rewrite Hok. unfold fill_step, getline.
    destruct (stream_good (f_stream st)) eqn:Hgood.
    - destruct (take_line (pending (f_stream st))) as [line [rest|]] eqn:Htl.
      + assert (length rest < length (pending (f_stream st)))%nat as Hlt.
        { clear -Htl. revert line rest Htl.
          induction (pending (f_stream st)) as [|c cs IH]; intros line rest Htl;
            simpl in Htl; [done|].
          destruct (Ascii.eqb c newline).
          - injection Htl as _ <-. simpl. lia.
          - destruct (take_line cs) as [l r]. injection Htl as _ ->.
            specialize (IH _ _ eq_refl). simpl. lia. }
        destruct line as [|c line].
        * cbn [f_stream]. replace (stream_ok (mkStream rest false false false))
            with true by reflexivity.
          replace (stream_good (mkStream rest false false false))
            with true by reflexivity. cbn [pending]. lia.
        * destruct (scan_line hasCommas true (c :: line)) as [[l' ic] asp].
          destruct (ic || asp); [|destruct (read_tuple l')]; cbn [f_stream];
            replace (stream_ok (mkStream rest false false false))
              with true by reflexivity;
            replace (stream_good (mkStream rest false false false))
              with true by reflexivity; cbn [pending]; lia.
      + destruct line as [|c line].
        * cbn [f_stream]. replace (stream_ok (mkStream [] true true false))
            with false by reflexivity. lia.
        * destruct (scan_line hasCommas true (c :: line)) as [[l' ic] asp].
          destruct (ic || asp); [|destruct (read_tuple l')]; cbn [f_stream];
            replace (stream_ok (mkStream [] true false false))
              with true by reflexivity;
            replace (stream_good (mkStream [] true false false))
              with false by reflexivity; lia.
    - destruct (f_linebuf st) as [|c line].
      + cbn [f_stream]. rewrite stream_ok_failbit. lia.
      + destruct (scan_line hasCommas true (c :: line)) as [[l' ic] asp].
        destruct (ic || asp); [|destruct (read_tuple l')]; cbn [f_stream];
          rewrite stream_ok_failbit; lia. }
  assert (∀ fuel st, (mu st ≤ fuel)%nat →
            fill_continues maxN (fill_loop read_tuple fuel hasCommas maxN st) = false ∧
            ∀ fuel', (fuel ≤ fuel')%nat →
              fill_loop read_tuple fuel' hasCommas maxN st
              = fill_loop read_tuple fuel hasCommas maxN st) as Hmain.
  { clear fuel st. induction fuel as [|fuel IH]; intros st Hmu.
    - assert (fill_continues maxN st = false) as Hc.
      { unfold fill_continues. unfold mu in Hmu.
        destruct (stream_ok (f_stream st)); [|done].
        destruct (stream_good (f_stream st)); lia. }
      split; [done|]. intros fuel' _. by rewrite !fill_loop_stop.
    - cbn [fill_loop]. destruct (fill_continues maxN st) eqn:Hc.
      + specialize (Hstep st Hc).
        destruct (IH (fill_step read_tuple hasCommas st) ltac:(lia)) as [H1 H2].
        split; [done|]. intros fuel' Hf. destruct fuel' as [|fuel']; [lia|].
        cbn [fill_loop]. rewrite Hc. apply H2. lia.
      + split; [done|]. intros fuel' _. by rewrite fill_loop_stop. }
  intros Hfuel.
  assert (mu st ≤ length (pending (f_stream st)) + 2)%nat as Hmu.
  { unfold mu. destruct (stream_ok (f_stream st)), (stream_good (f_stream st)); lia. }
  destruct (Hmain (length (pending (f_stream st)) + 2)%nat st Hmu) as [H1 H2].
  rewrite (H2 fuel Hfuel). done.
Qed.

End FillTuplesFacts.

(** ** tupleString *)

Lemma TuplePrintCycler_print_S n shown sep :
  TuplePrintCycler_print (S n) shown sep
  = TuplePrintCycler_print n shown sep
    ++ (if (1 <? S n)%nat && (if sep is [] then false else true) then sep else [])
    ++ shown !!! n.
Proof. reflexivity. Qed.

Lemma TuplePrintCycler_print_take n (shown : list (list ascii)) sep :
  (n ≤ length shown)%nat →
  TuplePrintCycler_print n shown sep
  = match take n shown with
    | [] => []
    | first :: others => first ++ (others ≫= λ field, sep ++ field)
    end.
Proof.
  induction n as [|n IH]; intros Hn; [done|].
  rewrite TuplePrintCycler_print_S, IH by lia.
  destruct (lookup_lt_is_Some_2 shown n ltac:(lia)) as [x Hx].
  rewrite (take_S_r _ _ _ Hx), (list_lookup_total_correct _ _ _ Hx).
  destruct n as [|n].
  - rewrite take_0. cbn [app Nat.ltb Nat.leb andb]. by rewrite app_nil_r.
  - destruct (take (S n) shown) as [|first others] eqn:Ht.
    { apply (f_equal length) in Ht. rewrite length_take_le in Ht by lia.
      discriminate Ht. }
    cbn [app]. rewrite bind_app, <- !app_assoc. do 2 f_equal.
    replace ([x] ≫= λ field, sep ++ field) with (sep ++ x)
      by (rewrite bind_cons; symmetry; apply app_nil_r).
    replace ((1 <? S (S n))%nat) with true by reflexivity.
    by destruct sep.
Qed.

(** X19: [tupleString] writes the fields in order, with the separator
    between any two of them and nowhere else; without a separator a single
    space is used. *)
Theorem tupleString_joined first others separator :
  tupleString (first :: others) separator
  = first ++ (others ≫= λ field,
                match separator with Some s => s | None => [space] end ++ field)
  ∧ tupleString [] separator = [].
Proof.
  split; [|done]. unfold tupleString.
  rewrite TuplePrintCycler_print_take by done. by rewrite firstn_all.
Qed.

(** ** The event loop of ExampleAnalysis and the window of the helper *)

Section EnergyLoopFacts.
Context `{Arith}.

(** X20: the window of a helper always satisfies
    [eMinTS < eMaxTS <= N_TIME_SLICES], and [energy] reads no time slice
    from [N_TIME_SLICES] on: tree data that agree below it give the same
    result. *)
Theorem helper_window_invariant h :
  helper_reachable h →
  (eMinTS_ h < eMaxTS_ h ≤ N_TIME_SLICES)%nat ∧
  ∀ q ped g idx,
    (∀ t, (t < N_TIME_SLICES)%nat →
          (q !!! idx) !!! t = (Charge h !!! idx) !!! t ∧
          (ped !!! idx) !!! t = (Pedestal h !!! idx) !!! t ∧
          (g !!! idx) !!! t = (Gain h !!! idx) !!! t) →
    energy (mkHelper (PulseCount h) q ped g (eMinTS_ h) (eMaxTS_ h)) idx
    = energy h idx.
Proof.
  intros Hr.
  assert (eMinTS_ h < eMaxTS_ h ≤ N_TIME_SLICES)%nat as Hw.
  { induction Hr as [pulses q ped g|h tsMin tsMax h' _ IH Hset|h pulses q ped g _ IH].
    - unfold N_TIME_SLICES. simpl. lia.
    - rewrite setEMinMaxTS_spec in Hset. case_bool_decide as Hw; [|done].
      apply inr_eq in Hset. subst h'. simpl. lia.
    - done. }
  split; [exact Hw|]. intros q ped g idx Hsame.
  unfold energy. cbn [PulseCount Charge Pedestal Gain eMinTS_ eMaxTS_].
  destruct (assert _) as [e|[]]; [done|]. rewrite !bind_inr. f_equal.
  apply foldl_ext_in. intros e i Hi. apply elem_of_seq in Hi.
  destruct (Hsame i) as (-> & -> & ->); [lia|done].
Qed.

(** X21: the event loop of [ExampleAnalysis] never runs into the assertion
    of [energy]: for every pulse count an [Int_t] can hold it ends with the
    sum of the energies of the pulses, added up from pulse 0 on, which is 0.0
    when the count is zero or negative. *)
Theorem ExampleAnalysis_event_total h :
  - 2 ^ 31 ≤ PulseCount h < 2 ^ 31 →
  ExampleAnalysis_event h
  = inr (foldl (λ totalEnergy_ i,
                  d_add totalEnergy_ (stated_energy h i (eMinTS_ h) (eMaxTS_ h)))
               d_zero (seq 0 (Z.to_nat (PulseCount h)))).
Proof.
  intros Hp. unfold ExampleAnalysis_event.
  apply (foldM_pure _ _ (λ _, True)); [|done].
  intros tot i Hi _. apply elem_of_seq in Hi. split; [|done].
  rewrite energy_spec by lia. done.
Qed.

End EnergyLoopFacts.

(** ** Geometry files as text *)

Section GeometryTextFacts.
Context {hw : HcalHPDRBXMap} `{V : Vector3} (read_tuple : list ascii → option Tuple).

Lemma load_row_twice chmap d t :
  (d' ← load_row chmap d t; load_row chmap d' t) = load_row chmap d t.
Proof.
  unfold load_row.
  destruct (linearIndex chmap _ _ _) as [e|idx]; [done|]. rewrite !bind_inr.
  case_bool_decide as Hidx; [|done].
  rewrite bind_mret, bind_inr.
  rewrite bool_decide_true by (by rewrite length_insert).
  by rewrite list_insert_insert_eq.
Qed.

Lemma loadData_duplicate_last chmap d rows t :
  loadData (Rows (rows ++ [t; t])) chmap d = loadData (Rows (rows ++ [t])) chmap d.
Proof.
  cbn [loadData]. rewrite !foldM_app.
  destruct (foldM (load_row chmap) d rows) as [e|d1]; [done|]. rewrite !bind_inr.
  cbn [foldM]. rewrite <- (load_row_twice chmap d1 t) at 2.
  destruct (load_row chmap d1 t) as [e|d2]; [done|]. rewrite !bind_inr.
  by destruct (load_row chmap d2 t).
Qed.

Lemma fill_lines_last_twice hasCommas maxN n last :
  fill_lines read_tuple hasCommas maxN n [last; last]
  = fill_lines read_tuple hasCommas maxN n [last]
  ∨ ∃ buf, fill_lines read_tuple hasCommas maxN n [last] = (true, [buf])
           ∧ fill_lines read_tuple hasCommas maxN n [last; last] = (true, [buf; buf]).
Proof.
  cbn [fill_lines]. destruct (n <? maxN)%N; [|by left].
  destruct (skipped hasCommas last); [by left|].
  destruct (read_tuple (scanned hasCommas last)) as [buf|]; [|by left].
  destruct (n + 1 <? maxN)%N; [|by left]. right. by exists buf.
Qed.

Lemma read_geometry_text text :
  read_geometry read_tuple (Some text)
  = if (fillTuplesFromText read_tuple (fresh_stream text) [] false ULONG_MAX).1.1
    then Rows (fillTuplesFromText read_tuple (fresh_stream text) [] false ULONG_MAX).1.2
    else Malformed.
Proof.
  unfold read_geometry.
  by destruct (fillTuplesFromText read_tuple (fresh_stream text) [] false ULONG_MAX)
    as [[status nt] s].
Qed.

Lemma read_geometry_final_newline lines last :
  Forall (λ line, newline ∉ line) lines → newline ∉ last → last ≠ [] →
  read_geometry read_tuple (Some (text_of_lines lines ++ last))
  = read_geometry read_tuple (Some (text_of_lines (lines ++ [last])))
  ∨ ∃ rows t,
      read_geometry read_tuple (Some (text_of_lines (lines ++ [last])))
      = Rows (rows ++ [t]) ∧
      read_geometry read_tuple (Some (text_of_lines lines ++ last))
      = Rows (rows ++ [t; t]).
Proof.
  intros Hall Hnl Hne. rewrite !read_geometry_text.
  rewrite (fill_text_unterminated read_tuple lines last) by done.
  rewrite !fill_text_lines
    by (apply Forall_app; split; [done|by repeat constructor]).
  cbn [fst snd app]. rewrite !fill_lines_app.
  destruct (fill_lines read_tuple false ULONG_MAX 0 lines) as [status rows].
  cbn [fst snd]. destruct (status && _); [|by left].
  destruct (fill_lines_last_twice false ULONG_MAX (0 + N.of_nat (length rows)) last)
    as [->|(buf & -> & ->)]; [by left|].
  cbn [fst snd]. right. by exists rows, buf.
Qed.

(** X22: a geometry file whose last line is not ended by a newline is
    loaded like the same file with the newline added, although its last row
    is read twice: [loadData] leaves the same directions or fails in the same
    way, and so does the constructor, for either of its two files. *)
Theorem geometry_final_newline lines last :
  Forall (λ line, newline ∉ line) lines → newline ∉ last → last ≠ [] →
  (∀ chmap d,
     loadData (read_geometry read_tuple (Some (text_of_lines lines ++ last))) chmap d
     = loadData (read_geometry read_tuple (Some (text_of_lines (lines ++ [last]))))
         chmap d) ∧
  (∀ other,
     HBHEChannelGeometry_new
       (read_geometry read_tuple (Some (text_of_lines lines ++ last))) other
     = HBHEChannelGeometry_new
         (read_geometry read_tuple (Some (text_of_lines (lines ++ [last])))) other) ∧
  (∀ other,
     HBHEChannelGeometry_new other
       (read_geometry read_tuple (Some (text_of_lines lines ++ last)))
     = HBHEChannelGeometry_new other
         (read_geometry read_tuple (Some (text_of_lines (lines ++ [last]))))).
Proof.
  intros Hall Hnl Hne.
  assert (∀ chmap d,
     loadData (read_geometry read_tuple (Some (text_of_lines lines ++ last))) chmap d
     = loadData (read_geometry read_tuple (Some (text_of_lines (lines ++ [last]))))
         chmap d) as Hload.
  { intros chmap d.
    destruct (read_geometry_final_newline lines last Hall Hnl Hne)
      as [->|(rows & t & -> & ->)]; [done|].
    apply loadData_duplicate_last. }
  split; [exact Hload|]. split.
  - intros other. rewrite !geometry_new_unfold.
    destruct HBHEChannelMap_new as [e|m]; [reflexivity|].
    rewrite !bind_inr. by rewrite Hload.
  - intros other. rewrite !geometry_new_unfold.
    destruct HBHEChannelMap_new as [e|m]; [reflexivity|].
    rewrite !bind_inr.
    destruct (loadData other m (replicate ChannelCount zero_vector)) as [e|d];
      [reflexivity|].
    rewrite !bind_inr. by rewrite Hload.
Qed.

End GeometryTextFacts.

Section MoreGeometryFacts.
Context {hw : HcalHPDRBXMap} `{V : Vector3}.

Lemma Forall_is_Some_row_index (nt : list Tuple) :
  Forall (λ t, is_Some (row_index t)) nt ↔ ¬ Exists (λ t, row_index t = None) nt.
Proof.
  rewrite <- Forall_Exists_neg. apply Forall_iff. intros t.
  destruct (row_index t); split; done.
Qed.

(** X23: once the channel map is built, the constructor throws
    [std::invalid_argument] exactly when one of the two files cannot be
    opened or parsed or holds a row whose triple is not enumerated, whatever
    else is missing; in all other cases it either succeeds or throws the
    "no data" [std::runtime_error]. *)
Theorem geometry_invalid_argument m hbFile heFile :
  HBHEChannelMap_new = inr m →
  let bad :=
    hbFile = Unreadable ∨ hbFile = Malformed ∨
    heFile = Unreadable ∨ heFile = Malformed ∨
    Exists (λ t, row_index t = None) (file_rows hbFile ++ file_rows heFile) in
  (HBHEChannelGeometry_new hbFile heFile = inl invalid_argument ↔ bad) ∧
  (¬ bad →
   HBHEChannelGeometry_new hbFile heFile = inl runtime_error ∨
   ∃ g, HBHEChannelGeometry_new hbFile heFile = inr g).
Proof.
  intros Hnew bad. pose proof (reach_new m Hnew) as Hr.
  assert (hbFile = Unreadable ∨ hbFile = Malformed ∨ (∃ hb, hbFile = Rows hb))
    as [->|[->|[hb ->]]] by (destruct hbFile; eauto).
  - assert (HBHEChannelGeometry_new Unreadable heFile = inl invalid_argument) as ->
      by (rewrite geometry_new_unfold, Hnew; reflexivity).
    clear Hnew. subst bad. split; [split; [tauto|done]|tauto].
  - assert (HBHEChannelGeometry_new Malformed heFile = inl invalid_argument) as ->
      by (rewrite geometry_new_unfold, Hnew; reflexivity).
    clear Hnew. subst bad. split; [split; [tauto|done]|tauto].
  - assert (heFile = Unreadable ∨ heFile = Malformed ∨ (∃ he, heFile = Rows he))
      as [->|[->|[he ->]]] by (destruct heFile; eauto).
    + assert (HBHEChannelGeometry_new (Rows hb) Unreadable = inl invalid_argument) as ->.
      { rewrite geometry_new_unfold, Hnew, bind_inr. clear Hnew. cbn [loadData].
        rewrite foldM_load_rows; [|exact Hr|apply length_replicate].
        by case_bool_decide. }
      clear Hnew. subst bad. split; [split; [tauto|done]|tauto].
    + assert (HBHEChannelGeometry_new (Rows hb) Malformed = inl invalid_argument) as ->.
      { rewrite geometry_new_unfold, Hnew, bind_inr. clear Hnew. cbn [loadData].
        rewrite foldM_load_rows; [|exact Hr|apply length_replicate].
        by case_bool_decide. }
      clear Hnew. subst bad. split; [split; [tauto|done]|tauto].
    + rewrite (geometry_new_spec m hb he Hnew). clear Hnew. subst bad.
      cbn [file_rows].
      pose proof (Forall_is_Some_row_index (hb ++ he)) as Hfe.
      destruct (decide (Forall (λ t, is_Some (row_index t)) (hb ++ he))) as [Hv|Hv].
      * rewrite (bool_decide_true _ Hv).
        assert (¬ Exists (λ t, row_index t = None) (hb ++ he)) as Hne
          by (by apply Hfe).
        split.
        -- split; [by case_bool_decide|].
           intros [Hb|[Hb|[Hb|[Hb|Hb]]]]; try discriminate Hb. done.
        -- intros _. case_bool_decide; [right; by eexists|by left].
      * rewrite (bool_decide_false _ Hv).
        assert (Exists (λ t, row_index t = None) (hb ++ he)) as Hex.
        { destruct (decide (Exists (λ t, row_index t = None) (hb ++ he))) as [Hex|Hex];
            [exact Hex|]. exfalso. by apply Hv, Hfe. }
        split; [split; [intros _; tauto|done]|].
        intros Hn. exfalso. apply Hn. tauto.
Qed.

(** X24: when several rows of the two files name the same channel, the
    direction kept is that of the last of them, the HE file coming after
    the HB file. *)
Theorem geometry_last_row_wins hb he g before t after i :
  HBHEChannelGeometry_new (Rows hb) (Rows he) = inr g →
  hb ++ he = before ++ t :: after →
  row_index t = Some i →
  (∀ t', t' ∈ after → row_index t' ≠ Some i) →
  directions_ g !! i = Some (row_vector t).
Proof.
  intros Hg Hsplit Hidx Hafter.
  destruct (@HBHEChannelMap_new hw) as [e|m] eqn:Hnew.
  { rewrite (geometry_new_no_map _ _ e Hnew) in Hg. discriminate Hg. }
  rewrite (geometry_new_spec m) in Hg by exact Hnew. clear Hnew.
  destruct (decide (Forall (λ t, is_Some (row_index t)) (hb ++ he))) as [Hvalid|Hvalid];
    [rewrite (bool_decide_true _ Hvalid) in Hg
    |rewrite (bool_decide_false _ Hvalid) in Hg; discriminate Hg].
  destruct (decide (Forall (λ i, vector_eqb
              (load_rows (replicate ChannelCount zero_vector) (hb ++ he) !!! i)
              zero_vector = false) (seq 0 ChannelCount))) as [Hnz|Hnz];
    [rewrite (bool_decide_true _ Hnz) in Hg
    |rewrite (bool_decide_false _ Hnz) in Hg; discriminate Hg].
  apply inr_eq in Hg. subst g.
  change (directions_ (mkGeometry ?d)) with d.
  rewrite Hsplit. change (t :: after) with ([t] ++ after).
  rewrite app_assoc, load_rows_app, load_rows_untouched by exact Hafter.
  rewrite load_rows_snoc, Hidx.
  apply list_lookup_insert_eq. rewrite load_rows_length, length_replicate.
  by eapply index_of_lt.
Qed.

End MoreGeometryFacts.

Section IndexFacts.
Context {hw : HcalHPDRBXMap}.

(** X25: the index returned by [linearIndex] is always below the channel
    count (the assertion made on it by the event loop of the channel
    selection cannot fail) and [getChannelTriple] gives back the triple
    there; conversely [linearIndex] gives back every valid index from its
    triple. *)
Theorem index_roundtrip m :
  reachable m →
  (∀ d e p i, linearIndex m d e p = inr i →
     (i < ChannelCount)%nat ∧ getChannelTriple m i = inr (mkId d e p)) ∧
  (∀ i, (i < ChannelCount)%nat →
     ∃ c, getChannelTriple m i = inr c ∧
          linearIndex m (depth c) (ieta c) (iphi c) = inr i).
Proof.
  intros Hr. split.
  - intros d e p i Hi. rewrite linearIndex_spec in Hi by done.
    destruct (index_of (mkId d e p)) as [j|] eqn:Hj; [|done].
    apply inr_eq in Hi. subst j. split; [by eapply index_of_lt|].
    apply getChannelTriple_inr; [done|]. split; [by eapply index_of_lt|].
    by apply index_of_Some.
  - intros i Hi. destruct (channel_ids_lookup_lt i Hi) as (c & Hc & Hct).
    exists c. split; [by apply getChannelTriple_inr|].
    rewrite linearIndex_spec by done.
    destruct c as [d e p]. cbn [depth ieta iphi].
    by rewrite (proj2 (index_of_Some _ _) Hc).
Qed.

End IndexFacts.

(** ** Groups of channels, signed rows, and the slices read by energy *)

Section GroupFacts.
Context {hw : HcalHPDRBXMap}.

(** X26: the channels of an HPD are listed in increasing order, and they
    all lie, in the same order, in the list of the RBX that the hardware
    mapping assigns to the HPD. *)
Theorem hpd_within_rbx m hpd chans :
  reachable m → hpd_channel_lookup_ m !! hpd = Some chans →
  StronglySorted (<)%nat chans ∧
  (chans ≠ [] →
   ∃ rchans,
     rbx_channel_lookup_ m !! Z.to_nat (indexRBXfromHPD (Z.of_nat hpd)) = Some rchans ∧
     chans `sublist_of` rchans).
Proof.
  intros Hr Hl. pose proof (reachable_hw_ok m Hr) as Hhw.
  apply reachable_hpd_table in Hl as [Hh ->]; [|done].
  split; [apply filter_seq_sorted|]. intros Hne.
  destruct (hpd_channels hpd) as [|i0 rest] eqn:Hch; [done|]. clear Hne.
  assert (i0 ∈ hpd_channels hpd) as Hi0 by (rewrite Hch; by left).
  apply elem_of_hpd_channels in Hi0 as [Hi0 Hh0].
  destruct (hw_ok_lookup i0 Hhw Hi0) as [_ Hri].
  assert (rbx_of i0 = Z.to_nat (indexRBXfromHPD (Z.of_nat hpd))) as Hrbx
    by (rewrite rbx_of_hpd_of by done; by rewrite Hh0).
  exists (filter (λ j, rbx_of j = rbx_of i0) (seq 0 ChannelCount)). split.
  - rewrite <- Hrbx. apply reachable_rbx_table; [done|].
    split; [unfold rbx_of; lia|done].
  - rewrite <- Hch. unfold hpd_channels.
    rewrite (filter_ext_in (λ i, hpd_of i = hpd)
               (λ i, hpd_of i = hpd ∧ rbx_of i = rbx_of i0)).
    + rewrite <- list_filter_filter. apply sublist_filter.
    + intros j Hj. apply elem_of_seq in Hj. split; [|by intros [? _]].
      intros Hjh. split; [done|].
      rewrite !rbx_of_hpd_of by (done || lia). by rewrite Hjh, Hh0.
Qed.

End GroupFacts.

Section SignedRows.
Context `{Arith}.

(** X27: the conversion of the depth and iphi fields of a row from [int]
    to [unsigned] never turns the triple of a row into an enumerated one: a
    row is accepted exactly when its triple, read as signed numbers, is
    enumerated. *)
Theorem row_index_signed (t : Tuple) :
  - 2 ^ 31 ≤ t_depth t < 2 ^ 31 → - 2 ^ 31 ≤ t_iphi t < 2 ^ 31 →
  is_Some (row_index t) ↔ enumerated (t_depth t) (t_ieta t) (t_iphi t).
Proof.
  intros Hd Hp. unfold row_index.
  rewrite <- elem_of_channel_ids.
  assert (∀ c, is_Some (index_of c) ↔ c ∈ channel_ids) as Hin.
  { intros c. destruct (index_of c) as [i|] eqn:Hi.
    - apply index_of_Some, list_elem_of_lookup_2 in Hi. split; [done|by eexists].
    - apply index_of_None in Hi. split; [by intros [? ?]|done]. }
  rewrite Hin, !elem_of_channel_ids. unfold enumerated, to_unsigned.
  destruct (decide (0 ≤ t_depth t)) as [Hd0|Hd0];
    destruct (decide (0 ≤ t_iphi t)) as [Hp0|Hp0].
  - by rewrite !Z.mod_small by lia.
  - rewrite (Z.mod_small (t_depth t)) by lia.
    replace (t_iphi t `mod` 2 ^ 32) with (t_iphi t + 2 ^ 32)
      by (apply (Z.mod_unique _ _ (-1)); lia).
    split; intros (? & _); lia.
  - replace (t_depth t `mod` 2 ^ 32) with (t_depth t + 2 ^ 32)
      by (apply (Z.mod_unique _ _ (-1)); lia).
    split; intros (_ & _ & ?); lia.
  - replace (t_depth t `mod` 2 ^ 32) with (t_depth t + 2 ^ 32)
      by (apply (Z.mod_unique _ _ (-1)); lia).
    split; intros (_ & _ & ?); lia.
Qed.

End SignedRows.

(** ** Closed examples for the sample hardware mapping *)

Lemma lt_612_ChannelCount : (612 < ChannelCount)%nat.
Proof. apply (bool_decide_unpack _). vm_compute. reflexivity. Qed.

Lemma sample_warm_reachable :
  @reachable sample_hw (@warm_channels sample_hw sample_map).
Proof.
  eapply (@reach_channel sample_hw); [apply sample_reachable|].
  apply (@channelNeigbors_spec sample_hw _ 612).
  - apply (@reachable_map_ok sample_hw), sample_reachable.
  - apply lt_612_ChannelCount.
Qed.

(** The channels of a group can be counted along the enumeration. *)
Lemma length_filter_seq_lookup {A} `{Inhabited A} (P : A → Prop)
    `{∀ x, Decision (P x)} (l : list A) :
  length (filter (λ i, P (l !!! i)) (seq 0 (length l))) = length (filter P l).
Proof.
  induction l as [|x l IH] using rev_ind; [done|].
  rewrite length_app. simpl. rewrite Nat.add_1_r, seq_S, !filter_app, !length_app.
  f_equal.
  - rewrite <- IH. f_equal. apply filter_ext_in.
    intros i Hi. apply elem_of_seq in Hi.
    by rewrite lookup_total_app_l by lia.
  - rewrite !filter_cons, !filter_nil.
    rewrite lookup_total_app_r by lia. rewrite Nat.sub_diag. simpl.
    by destruct (decide (P x)).
Qed.

Lemma sample_hpd0_size : (length (@hpd_channels sample_hw 0) ≤ 18)%nat.
Proof.
  pose proof (length_filter_seq_lookup
                (λ c, Z.to_nat (@hpd_index sample_hw c) = 0%nat) channel_ids) as Hc.
  rewrite channel_ids_length in Hc.
  eapply Nat.le_trans; [apply Nat.eq_le_incl; exact Hc|].
  apply (bool_decide_unpack _). vm_compute. reflexivity.
Qed.

Lemma sample_hpd0_table :
  hpd_channel_lookup_ sample_map !! 0%nat = Some (@hpd_channels sample_hw 0).
Proof.
  apply (@reachable_hpd_table sample_hw); [apply sample_reachable|].
  split; [|reflexivity]. change (Z.to_nat (@NUM_HPDS sample_hw)) with 288%nat. lia.
Qed.

Lemma hpd_position_roundtrip_witness :
  @reachable sample_hw sample_map ∧
  ((getHPD sample_map 612 = inr 0%nat ∧ getChannelInHPD sample_map 612 = inr 0%nat) ↔
   ∃ chans, hpd_channel_lookup_ sample_map !! 0%nat = Some chans
            ∧ chans !! 0%nat = Some 612%nat).
Proof.
  exact (conj sample_reachable
           (@hpd_position_roundtrip sample_hw sample_map 612 0 0 sample_reachable)).
Defined.

Lemma rbx_position_roundtrip_witness :
  @reachable sample_hw sample_map ∧
  ((getRBX sample_map 612 = inr 0%nat ∧ getChannelInRBX sample_map 612 = inr 0%nat) ↔
   ∃ chans, rbx_channel_lookup_ sample_map !! 0%nat = Some chans
            ∧ chans !! 0%nat = Some 612%nat).
Proof.
  exact (conj sample_reachable
           (@rbx_position_roundtrip sample_hw sample_map 612 0 0 sample_reachable)).
Defined.

Lemma hardware_accessors_witness :
  @reachable sample_hw sample_map ∧ (612 < ChannelCount)%nat ∧
  ∃ h k r q,
    getHPD sample_map 612 = inr h ∧ getChannelInHPD sample_map 612 = inr k ∧
    getRBX sample_map 612 = inr r ∧ getChannelInRBX sample_map 612 = inr q ∧
    (h < Z.to_nat (@NUM_HPDS sample_hw))%nat ∧ (k < maxChannelsPerHPD sample_map)%nat ∧
    (r < Z.to_nat (@NUM_RBXS sample_hw))%nat ∧ (q < maxChannelsPerRBX sample_map)%nat ∧
    Z.of_nat r = @indexRBXfromHPD sample_hw (Z.of_nat h).
Proof.
  exact (conj sample_reachable (conj lt_612_ChannelCount
           (proj1 (@hardware_accessors sample_hw sample_map 612 sample_reachable)
                  lt_612_ChannelCount))).
Defined.

Lemma max_channels_ordered_witness :
  @reachable sample_hw sample_map ∧
  (1 ≤ maxChannelsPerHPD sample_map)%nat ∧
  (maxChannelsPerHPD sample_map ≤ maxChannelsPerRBX sample_map)%nat.
Proof.
  exact (conj sample_reachable
           (@max_channels_ordered sample_hw sample_map sample_reachable)).
Defined.

Lemma channelSetNeighbors_union_witness :
  @reachable sample_hw sample_map ∧ (length [612; 540]%nat ≤ 18)%nat ∧
  Forall (λ c, (c < ChannelCount)%nat) [612; 540]%nat ∧
  ∃ out m', channelSetNeighbors sample_map [612; 540]%nat = inr (out, m')
    ∧ @reachable sample_hw m'
    ∧ StronglySorted (<)%nat out
    ∧ (length out ≤ 18 * 8)%nat
    ∧ ∀ j, j ∈ out ↔
        ∃ i l mi, i ∈ [612; 540]%nat ∧
                  channelNeigborsFromOtherHPDs sample_map i = inr (l, mi) ∧ j ∈ l.
Proof.
  assert (length [612; 540]%nat ≤ 18)%nat as Hlen by (simpl; lia).
  assert (Forall (λ c, (c < ChannelCount)%nat) [612; 540]%nat) as Hall.
  { apply Forall_cons. split; [exact lt_612_ChannelCount|].
    apply Forall_cons. split; [|apply Forall_nil_2].
    apply (bool_decide_unpack _). vm_compute. reflexivity. }
  exact (conj sample_reachable (conj Hlen (conj Hall
           (@channelSetNeighbors_union sample_hw sample_map [612; 540]%nat
              sample_reachable Hlen Hall)))).
Defined.

Lemma channelSetNeighbors_failures_witness :
  @reachable sample_hw sample_map ∧
  channelSetNeighbors sample_map (replicate 19 0%nat) = inl assertion_failed ∧
  channelSetNeighbors sample_map [612; 5184]%nat = inl out_of_range ∧
  channelSetNeighbors sample_map [] = inr ([], sample_map).
Proof.
  destruct (@channelSetNeighbors_failures sample_hw sample_map (replicate 19 0%nat)
              sample_reachable) as (Hmany & _ & Hnil).
  destruct (@channelSetNeighbors_failures sample_hw sample_map [612; 5184]%nat
              sample_reachable) as (_ & Hbad & _).
  split_and!; [apply sample_reachable| | |exact Hnil].
  - apply Hmany. simpl. lia.
  - apply Hbad; [simpl; lia|]. apply Exists_cons_tl, Exists_cons_hd.
    unfold ChannelCount. lia.
Defined.

Lemma channelSetNeighbors_single_witness :
  @reachable sample_hw sample_map ∧
  channelSetNeighbors sample_map [612%nat]
  = channelNeigborsFromOtherHPDs sample_map 612.
Proof.
  exact (conj sample_reachable
           (@channelSetNeighbors_single sample_hw sample_map 612 sample_reachable)).
Defined.

Lemma channelSetNeighbors_hpd_witness :
  @reachable sample_hw sample_map ∧
  hpd_channel_lookup_ sample_map !! 0%nat = Some (@hpd_channels sample_hw 0) ∧
  (length (@hpd_channels sample_hw 0) ≤ 18)%nat ∧
  ∃ l m1 m2, channelSetNeighbors sample_map (@hpd_channels sample_hw 0) = inr (l, m1)
             ∧ @getHPDNeigbors sample_hw sample_map 0 = inr (l, m2).
Proof.
  exact (conj sample_reachable (conj sample_hpd0_table (conj sample_hpd0_size
           (@channelSetNeighbors_hpd sample_hw sample_map 0 _
              sample_reachable sample_hpd0_table sample_hpd0_size)))).
Defined.

Lemma isValidTriple_closed_form_witness :
  @reachable sample_hw sample_map ∧
  isValidTriple sample_map 2 17 1 = false ∧
  isValidTriple sample_map 3 (-16) 72 = true.
Proof.
  destruct (@isValidTriple_closed_form sample_hw sample_map 2 17 1 sample_reachable)
    as [H1 _].
  destruct (@isValidTriple_closed_form sample_hw sample_map 3 (-16) 72 sample_reachable)
    as [H2 _].
  split_and!; [apply sample_reachable| |].
  - apply not_true_is_false. rewrite H1. unfold enumerated. lia.
  - apply H2. unfold enumerated. split_and!; [lia|lia|lia|].
    right. right. split; [reflexivity|]. left. reflexivity.
Defined.

Lemma channel_neighbors_symmetric_witness :
  @reachable sample_hw sample_map ∧
  ∃ li lj mi mj,
    channelNeigborsFromOtherHPDs sample_map 612 = inr (li, mi) ∧
    channelNeigborsFromOtherHPDs sample_map 540 = inr (lj, mj) ∧
    (540%nat ∈ li ↔ 612%nat ∈ lj).
Proof.
  pose proof (@reachable_map_ok sample_hw sample_map sample_reachable) as Hm.
  assert (540 < ChannelCount)%nat as H540
    by (apply (bool_decide_unpack _); vm_compute; reflexivity).
  pose proof (@channelNeigbors_spec sample_hw sample_map 612 Hm lt_612_ChannelCount) as H1.
  pose proof (@channelNeigbors_spec sample_hw sample_map 540 Hm H540) as H2.
  split; [apply sample_reachable|].
  eexists _, _, _, _. split; [exact H1|]. split; [exact H2|].
  exact (@channel_neighbors_symmetric sample_hw sample_map 612 540 _ _ _ _
           sample_reachable H1 H2).
Defined.

Lemma hpd_neighbors_foreign_witness :
  @reachable sample_hw sample_map ∧
  ∃ l m', @getHPDNeigbors sample_hw sample_map 0 = inr (l, m') ∧
    ∀ j, j ∈ l →
      ∃ hj, getHPD sample_map j = inr hj ∧ hj ≠ 0%nat ∧
            ∃ c lj mj, getHPD sample_map c = inr 0%nat ∧
                       @getHPDNeigbors sample_hw sample_map hj = inr (lj, mj) ∧ c ∈ lj.
Proof.
  pose proof (@reachable_map_ok sample_hw sample_map sample_reachable) as Hm.
  assert (0 < Z.to_nat (@NUM_HPDS sample_hw))%nat as H0
    by (change (Z.to_nat (@NUM_HPDS sample_hw)) with 288%nat; lia).
  destruct (@getHPDNeigbors_spec sample_hw sample_map 0 Hm H0) as (m' & Hq & _).
  split; [apply sample_reachable|].
  eexists _, m'. split; [exact Hq|].
  exact (@hpd_neighbors_foreign sample_hw sample_map 0 _ m' sample_reachable Hq).
Defined.

Lemma answers_independent_of_history_witness :
  @reachable sample_hw sample_map ∧
  @reachable sample_hw (@warm_channels sample_hw sample_map) ∧
  (∀ i, getHPD sample_map i = getHPD (@warm_channels sample_hw sample_map) i) ∧
  (∀ i l1 l2 s1 s2,
     channelNeigborsFromOtherHPDs sample_map i = inr (l1, s1) →
     channelNeigborsFromOtherHPDs (@warm_channels sample_hw sample_map) i = inr (l2, s2) →
     l1 = l2).
Proof.
  destruct (@answers_independent_of_history sample_hw sample_map
              (@warm_channels sample_hw sample_map)
              sample_reachable sample_warm_reachable)
    as (H1 & _ & _ & _ & _ & H2 & _).
  exact (conj sample_reachable (conj sample_warm_reachable (conj H2 H1))).
Defined.

(** ** Closed examples for the text reader, the helper and the geometry *)

Lemma sample_lines_no_newline : Forall (λ line, newline ∉ line) sample_lines.
Proof. apply (bool_decide_unpack _). vm_compute. reflexivity. Qed.

Lemma fillTuplesFromText_lines_witness :
  Forall (λ line, newline ∉ line) (sample_lines ++ [["x"%char]; ["3"%char]]) ∧
  (fillTuplesFromText sample_read
     (fresh_stream (text_of_lines (sample_lines ++ [["x"%char]; ["3"%char]])))
     [7%nat] false ULONG_MAX).1
  = (false, [7; 1; 2]%nat).
Proof.
  assert (Forall (λ line, newline ∉ line) (sample_lines ++ [["x"%char]; ["3"%char]]))
    as Hall by (apply (bool_decide_unpack _); vm_compute; reflexivity).
  split; [exact Hall|].
  rewrite (fillTuplesFromText_lines sample_read _ [7%nat] false ULONG_MAX Hall).
  vm_compute. reflexivity.
Defined.

Lemma fillTuplesFromText_unterminated_witness :
  Forall (λ line, newline ∉ line) [[hash]; ["1"%char]] ∧
  (newline ∉ ["2"%char]) ∧ ["2"%char] ≠ [] ∧
  (fillTuplesFromText sample_read
     (fresh_stream (text_of_lines [[hash]; ["1"%char]] ++ ["2"%char]))
     [] false ULONG_MAX).1
  = (true, [1; 2; 2]%nat).
Proof.
  assert (Forall (λ line, newline ∉ line) [[hash]; ["1"%char]]) as Hall
    by (apply (bool_decide_unpack _); vm_compute; reflexivity).
  assert (newline ∉ ["2"%char]) as Hnl
    by (apply (bool_decide_unpack _); vm_compute; reflexivity).
  assert (["2"%char] ≠ []) as Hne by discriminate.
  split_and!; [exact Hall|exact Hnl|exact Hne|].
  rewrite (fillTuplesFromText_unterminated sample_read _ _ [] false ULONG_MAX
             Hall Hnl Hne).
  vm_compute. reflexivity.
Defined.

Lemma fill_loop_enough_witness :
  (length (pending (fresh_stream (text_of_lines sample_lines))) + 2 ≤ 100)%nat ∧
  fill_continues ULONG_MAX
    (fill_loop sample_read 100 false ULONG_MAX
       (mkFill (fresh_stream (text_of_lines sample_lines)) [] true 0 [])) = false.
Proof.
  assert (length (pending (f_stream
            (mkFill (T:=nat) (fresh_stream (text_of_lines sample_lines)) [] true 0 [])))
          + 2 ≤ 100)%nat as Hfuel by (vm_compute; lia).
  split; [exact Hfuel|].
  exact (proj1 (fill_loop_enough sample_read false ULONG_MAX
                  (mkFill (fresh_stream (text_of_lines sample_lines)) [] true 0 [])
                  100 Hfuel)).
Defined.

Lemma helper_window_invariant_witness :
  @helper_reachable Z_arith sample_helper ∧
  (eMinTS_ sample_helper < eMaxTS_ sample_helper ≤ N_TIME_SLICES)%nat.
Proof.
  assert (@helper_reachable Z_arith sample_helper) as Hr
    by apply (@helper_new Z_arith).
  exact (conj Hr (proj1 (@helper_window_invariant Z_arith sample_helper Hr))).
Defined.

Lemma hpd_within_rbx_witness :
  @reachable sample_hw sample_map ∧
  hpd_channel_lookup_ sample_map !! 0%nat = Some (@hpd_channels sample_hw 0) ∧
  StronglySorted (<)%nat (@hpd_channels sample_hw 0).
Proof.
  exact (conj sample_reachable (conj sample_hpd0_table
           (proj1 (@hpd_within_rbx sample_hw sample_map 0 _
                     sample_reachable sample_hpd0_table)))).
Defined.

Lemma row_index_signed_witness :
  - 2 ^ 31 ≤ -1 < 2 ^ 31 ∧ - 2 ^ 31 ≤ 1 < 2 ^ 31 ∧
  ¬ is_Some (@row_index Z_arith (@mkTuple Z_arith 1 1 (-1) 0 0 1)).
Proof.
  assert (- 2 ^ 31 ≤ -1 < 2 ^ 31) as Hd by lia.
  assert (- 2 ^ 31 ≤ 1 < 2 ^ 31) as Hp by lia.
  split; [exact Hd|]. split; [exact Hp|].
  intros Hs.
  apply (@row_index_signed Z_arith (@mkTuple Z_arith 1 1 (-1) 0 0 1) Hd Hp) in Hs.
  unfold enumerated in Hs. cbn [t_depth t_ieta t_iphi] in Hs. lia.
Defined.

Lemma ExampleAnalysis_event_total_witness :
  - 2 ^ 31 ≤ PulseCount sample_helper < 2 ^ 31 ∧
  @ExampleAnalysis_event Z_arith sample_helper
  = inr ((11 - 5) * 2 + (13 - 5) * 2 + (6 - 5) * 2).
Proof.
  assert (- 2 ^ 31 ≤ PulseCount sample_helper < 2 ^ 31) as Hp by (change (PulseCount sample_helper) with 1; lia).
  split; [exact Hp|].
  rewrite (@ExampleAnalysis_event_total Z_arith sample_helper Hp).
  vm_compute. reflexivity.
Defined.

Lemma geometry_final_newline_witness :
  Forall (λ line, newline ∉ line) [[hash]; ["1"%char]] ∧
  (newline ∉ ["2"%char]) ∧ ["2"%char] ≠ [] ∧
  @HBHEChannelGeometry_new sample_hw Z_arith Z_vector3
    (read_geometry sample_read_row
       (Some (text_of_lines [[hash]; ["1"%char]] ++ ["2"%char])))
    (Rows [])
  = @HBHEChannelGeometry_new sample_hw Z_arith Z_vector3
      (read_geometry sample_read_row
         (Some (text_of_lines ([[hash]; ["1"%char]] ++ [["2"%char]]))))
      (Rows []).
Proof.
  assert (Forall (λ line, newline ∉ line) [[hash]; ["1"%char]]) as Hall
    by (apply (bool_decide_unpack _); vm_compute; reflexivity).
  assert (newline ∉ ["2"%char]) as Hnl
    by (apply (bool_decide_unpack _); vm_compute; reflexivity).
  assert (["2"%char] ≠ []) as Hne by discriminate.
  split_and!; [exact Hall|exact Hnl|exact Hne|].
  exact (proj1 (proj2 (@geometry_final_newline sample_hw Z_arith Z_vector3
                         sample_read_row _ _ Hall Hnl Hne)) (Rows [])).
Defined.

Lemma geometry_invalid_argument_witness :
  @HBHEChannelMap_new sample_hw = inr sample_map ∧
  @HBHEChannelGeometry_new sample_hw Z_arith Z_vector3 (Rows []) Malformed
  = inl invalid_argument.
Proof.
  split; [exact sample_new|].
  destruct (@geometry_invalid_argument sample_hw Z_arith Z_vector3 sample_map
              (Rows []) Malformed sample_new) as [[_ Hbad] _].
  apply Hbad. right. right. right. left. reflexivity.
Defined.

Lemma geometry_last_row_wins_witness :
  ∃ g,
    @HBHEChannelGeometry_new sample_hw Z_arith Z_vector3
      (Rows (sample_rows ++ [sample_extra_row])) (Rows []) = inr g ∧
    (sample_rows ++ [sample_extra_row]) ++ [] = sample_rows ++ sample_extra_row :: [] ∧
    @row_index Z_arith sample_extra_row = Some 0%nat ∧
    directions_ g !! 0%nat = Some (0, 1, 0).
Proof.
  assert (@HBHEChannelGeometry_new sample_hw Z_arith Z_vector3
            (Rows (sample_rows ++ [sample_extra_row])) (Rows [])
          = inr (mkGeometry (@load_rows Z_arith Z_vector3
                               (replicate ChannelCount zero_vector)
                               ((sample_rows ++ [sample_extra_row]) ++ [])))) as Hg.
  { apply (@geometry_new_success sample_hw Z_arith Z_vector3 sample_map).
    - exact sample_new.
    - exact sample_rows_valid.
    - exact sample_rows_cover.
    - exact sample_rows_nonzero. }
  assert ((sample_rows ++ [sample_extra_row]) ++ []
          = sample_rows ++ sample_extra_row :: []) as Hsplit by apply app_nil_r.
  assert (@row_index Z_arith sample_extra_row = Some 0%nat) as Hidx
    by (vm_compute; reflexivity).
  assert (∀ t' : @Tuple Z_arith, t' ∈ [] → @row_index Z_arith t' ≠ Some 0%nat) as Hafter.
  { intros t' Ht'. exfalso. exact (proj1 (elem_of_nil t') Ht'). }
  eexists. split; [exact Hg|]. split; [exact Hsplit|]. split; [exact Hidx|].
  exact (@geometry_last_row_wins sample_hw Z_arith Z_vector3 _ _ _ sample_rows
           sample_extra_row [] 0%nat Hg Hsplit Hidx Hafter).
Defined.

Lemma index_roundtrip_witness :
  @reachable sample_hw sample_map ∧ (612 < ChannelCount)%nat ∧
  ∃ c, getChannelTriple sample_map 612 = inr c ∧
       linearIndex sample_map (depth c) (ieta c) (iphi c) = inr 612%nat.
Proof.
  exact (conj sample_reachable (conj lt_612_ChannelCount
           (proj2 (@index_roundtrip sample_hw sample_map sample_reachable)
                  612%nat lt_612_ChannelCount))).
Defined.
